(** * DevLog store: a model of [src/lib/devlog/db.ts]

    The database layer of DevLog keeps three SQLite tables ([entries],
    [attachments], [counters]) and an uploads directory.  This file embeds
    that layer: the tables are lists of rows in rowid order, the uploads
    tree is a finite map from paths to nodes, and every exported function
    of [db.ts] is a computation in a state-and-exception monad over the
    store.  The engine clock ([datetime('now')]), the random prefix
    ([Math.random]) and the process environment are inputs of the
    functions that read them.

    On top of the layer the file embeds the route handlers that add to it:
    the upload route, the create route, the three routes of one entry, the
    grouping loop of the Markdown export and the file name that the
    attachment route puts into its response header. *)

From Stdlib Require Import ZArith String Ascii Strings.Byte.
From stdpp Require Import base decidable option numbers strings list functions gmap sorting pretty.

Local Open Scope Z_scope.

(** ** JavaScript values used by the layer *)

(** Truthiness of a string: only the empty string is falsy. *)
Definition truthy (s : string) : bool :=
  match s with
  | EmptyString => false
  | String _ _ => true
  end.

(** [x || d] on an optional string: [undefined], [null] and [''] give [d]. *)
Definition or_default (x : option string) (d : string) : string :=
  match x with
  | Some s => if truthy s then s else d
  | None => d
  end.

Arguments or_default : simpl never.

(** [x || null] on an optional string. *)
Definition or_null (x : option string) : option string :=
  match x with
  | Some s => if truthy s then Some s else None
  | None => None
  end.

(** [if (x)] on an optional string. *)
Definition truthy_opt (x : option string) : bool :=
  match x with
  | Some s => truthy s
  | None => false
  end.

Fixpoint repeat_string (fill : string) (n : nat) : string :=
  match n with
  | O => ""
  | S n' => fill +:+ repeat_string fill n'
  end.

(** [s.padStart(targetLength, padString)]: the pad string is repeated and
    cut to the missing length; nothing happens when [s] is long enough or
    the pad string is empty. *)
Definition padStart (targetLength : nat) (padString : string) (s : string) : string :=
  let fillLen := (targetLength - String.length s)%nat in
  match fillLen, padString with
  | O, _ => s
  | _, EmptyString => s
  | _, _ => substring 0 fillLen (repeat_string padString fillLen) +:+ s
  end.

(** The largest integer a JavaScript number holds exactly. *)
Definition MAX_SAFE_INTEGER : Z := 2 ^ 53 - 1.

(** [String(num)] for an integral number: its decimal digits.  The store
    reads [num] from a 64-bit SQLite integer into a double, so the digits
    are those of the stored integer up to [MAX_SAFE_INTEGER]; the theorems
    about identifiers keep the counters in that range. *)
Definition String_of_number (num : Z) : string := pretty num.

(** [path.join(dir, segment)] for a normalised [dir] and one segment that
    has no separator and is not a dot segment.  Entry identifiers made by
    the counter and file names made by [addAttachment] are such segments.
    On other segments [path.join] normalises its result, and a removal at
    that path takes away nodes that the model keeps; [reachable_file_lost]
    below accounts for nodes that go this way. *)
Definition path_join (dir segment : string) : string :=
  dir +:+ "/" +:+ segment.

(** Reading the numeric suffix of an identifier: the decimal value of what
    follows the first dash. *)
Definition digit_value (c : ascii) : option Z :=
  let n := Z.of_N (N_of_ascii c) in
  if (48 <=? n) && (n <=? 57) then Some (n - 48) else None.

Fixpoint parse_digits (acc : Z) (s : string) : option Z :=
  match s with
  | EmptyString => Some acc
  | String c s' =>
      match digit_value c with
      | Some d => parse_digits (10 * acc + d) s'
      | None => None
      end
  end.

Fixpoint after_dash (s : string) : option string :=
  match s with
  | EmptyString => None
  | String c s' => if Ascii.eqb c "-"%char then Some s' else after_dash s'
  end.

Definition suffix_text (id : string) : string :=
  default "" (after_dash id).

Definition numeric_suffix (id : string) : option Z :=
  match after_dash id with
  | Some (String c s') => parse_digits 0 (String c s')
  | _ => None
  end.

(** ** Types of [types.ts] *)

Inductive EntryType := change_request | bug_report | note.
Inductive Priority := low | medium | high | critical.
Inductive StorageType := filesystem | blob.

#[global] Instance EntryType_eq_dec : EqDecision EntryType.
Proof. solve_decision. Defined.
#[global] Instance Priority_eq_dec : EqDecision Priority.
Proof. solve_decision. Defined.
#[global] Instance StorageType_eq_dec : EqDecision StorageType.
Proof. solve_decision. Defined.

Definition Buffer := list byte.

Module Attachment.
Record t := mk {
  id : Z;
  entryId : string;
  filename : string;
  originalName : string;
  mimeType : string;
  sizeBytes : Z;
  storageType : StorageType;
  filePath : option string;
  createdAt : string
}.
End Attachment.

Module DevLogEntry.
Record t := mk {
  id : Z;
  entryId : string;
  type : EntryType;
  title : string;
  description : string;
  priority : option Priority;
  isComplete : bool;
  pageUrl : string;
  pagePath : string;
  userAgent : option string;
  createdAt : string;
  updatedAt : string;
  attachments : list Attachment.t
}.
End DevLogEntry.

Module CreateEntryDto.
Record t := mk {
  type : EntryType;
  title : string;
  description : option string;
  priority : option Priority;
  submittedBy : option string;
  pageUrl : string;
  pagePath : string;
  userAgent : option string
}.
End CreateEntryDto.

(** A field of the partial payload is [None] when it is [undefined];
    [priority] may also be present and [null]. *)
Module UpdateEntryDto.
Record t := mk {
  title : option string;
  description : option string;
  priority : option (option Priority);
  isComplete : option bool
}.
End UpdateEntryDto.

(** ** Rows of the three tables *)

Module EntryRow.
Record t := mk {
  id : Z;
  entry_id : string;
  type : EntryType;
  title : string;
  description : string;
  priority : option Priority;
  is_complete : Z;
  page_url : string;
  page_path : string;
  user_agent : option string;
  created_at : string;
  updated_at : string
}.
End EntryRow.

Module AttachmentRow.
Record t := mk {
  id : Z;
  entry_id : string;
  filename : string;
  original_name : string;
  mime_type : string;
  size_bytes : Z;
  storage_type : StorageType;
  blob_data : option Buffer;
  file_path : option string;
  created_at : string
}.
End AttachmentRow.

(** ** The store *)

(** A node of the uploads tree. *)
Inductive Node := File (data : Buffer) | Dir.

(** [counters] has one row per entry type (seeded when the database is
    opened), so it is a total function; [next_number] is its column.
    [entries_seq] and [attachments_seq] are the AUTOINCREMENT sequences. *)
Record Store := mkStore {
  entries : list EntryRow.t;
  entries_seq : Z;
  attachments : list AttachmentRow.t;
  attachments_seq : Z;
  next_number : EntryType → Z;
  disk : gmap string Node
}.

(** The store right after [getDb] has created the schema. *)
Definition getDb_initial : Store :=
  {| entries := []; entries_seq := 0;
     attachments := []; attachments_seq := 0;
     next_number := λ _, 1;
     disk := ∅ |}.

(** ** Computations on the store *)

Inductive Exception :=
  | SQLITE_CONSTRAINT_UNIQUE
  | SQLITE_CONSTRAINT_FOREIGNKEY
  | SQLITE_ERROR
  | EEXIST
  | EISDIR
  | ENOENT
  | ENAMETOOLONG
  | TypeError.

(** A call either returns a value or throws; both leave a store behind,
    since every statement that ran before a throw stays committed. *)
Inductive Result (A : Type) :=
  | Ok (a : A) (st : Store)
  | Throw (e : Exception) (st : Store).
Arguments Ok {A} a st.
Arguments Throw {A} e st.

Definition M (A : Type) : Type := Store → Result A.

#[global] Instance M_ret : MRet M := λ A a st, Ok a st.
#[global] Instance M_bind : MBind M := λ A B f m st,
  match m st with
  | Ok a st' => f a st'
  | Throw e st' => Throw e st'
  end.

Definition gets {A} (f : Store → A) : M A := λ st, Ok (f st) st.
Definition modify (f : Store → Store) : M unit := λ st, Ok tt (f st).
Definition throw {A} (e : Exception) : M A := λ st, Throw e st.
(** [try { c } catch { }] *)
Definition try_ignore (c : M unit) : M unit := λ st,
  match c st with
  | Ok _ st' => Ok tt st'
  | Throw _ st' => Ok tt st'
  end.

Definition final_store {A} (r : Result A) : Store :=
  match r with
  | Ok _ st => st
  | Throw _ st => st
  end.

Definition set_entries (f : list EntryRow.t → list EntryRow.t) (st : Store) : Store :=
  {| entries := f (entries st); entries_seq := entries_seq st;
     attachments := attachments st; attachments_seq := attachments_seq st;
     next_number := next_number st; disk := disk st |}.

Definition set_attachments (f : list AttachmentRow.t → list AttachmentRow.t) (st : Store) : Store :=
  {| entries := entries st; entries_seq := entries_seq st;
     attachments := f (attachments st); attachments_seq := attachments_seq st;
     next_number := next_number st; disk := disk st |}.

Definition set_disk (f : gmap string Node → gmap string Node) (st : Store) : Store :=
  {| entries := entries st; entries_seq := entries_seq st;
     attachments := attachments st; attachments_seq := attachments_seq st;
     next_number := next_number st; disk := f (disk st) |}.

(** ** Entry ID generation *)

Definition PREFIXES (type : EntryType) : string :=
  match type with
  | change_request => "CR"
  | bug_report => "BUG"
  | note => "NOTE"
  end.

(** [UPDATE counters SET next_number = next_number + 1 WHERE type = ?
     RETURNING next_number - 1 AS num] *)
Definition update_counter_returning (type : EntryType) : M Z := λ st,
  let incremented := next_number st type + 1 in
  Ok (incremented - 1)
     {| entries := entries st; entries_seq := entries_seq st;
        attachments := attachments st; attachments_seq := attachments_seq st;
        next_number := <[type := incremented]> (next_number st);
        disk := disk st |}.

Definition format_entry_id (type : EntryType) (num : Z) : string :=
  PREFIXES type +:+ "-" +:+ padStart 3 "0" (String_of_number num).

Definition getNextEntryId (type : EntryType) : M string :=
  num ← update_counter_returning type;
  mret (format_entry_id type num).

(** ** Row mappers *)

Definition mapEntry (row : EntryRow.t) (attachments : list Attachment.t) : DevLogEntry.t :=
  {| DevLogEntry.id := EntryRow.id row;
     DevLogEntry.entryId := EntryRow.entry_id row;
     DevLogEntry.type := EntryRow.type row;
     DevLogEntry.title := EntryRow.title row;
     DevLogEntry.description := or_default (Some (EntryRow.description row)) "";
     DevLogEntry.priority := EntryRow.priority row;
     DevLogEntry.isComplete := bool_decide (EntryRow.is_complete row = 1);
     DevLogEntry.pageUrl := EntryRow.page_url row;
     DevLogEntry.pagePath := EntryRow.page_path row;
     DevLogEntry.userAgent := EntryRow.user_agent row;
     DevLogEntry.createdAt := EntryRow.created_at row;
     DevLogEntry.updatedAt := EntryRow.updated_at row;
     DevLogEntry.attachments := attachments |}.

Definition mapAttachment (row : AttachmentRow.t) : Attachment.t :=
  {| Attachment.id := AttachmentRow.id row;
     Attachment.entryId := AttachmentRow.entry_id row;
     Attachment.filename := AttachmentRow.filename row;
     Attachment.originalName := AttachmentRow.original_name row;
     Attachment.mimeType := AttachmentRow.mime_type row;
     Attachment.sizeBytes := AttachmentRow.size_bytes row;
     Attachment.storageType := AttachmentRow.storage_type row;
     Attachment.filePath := AttachmentRow.file_path row;
     Attachment.createdAt := AttachmentRow.created_at row |}.

(** ** SQL helpers *)

(** The sorter of the engine is stable: a row goes in front of the first
    row that does not sort before it, so rows with equal keys stay in the
    order of the scan. *)
Fixpoint sorter_insert {A} (R : A → A → Prop) `{!∀ x y, Decision (R x y)}
    (x : A) (sorted : list A) : list A :=
  match sorted with
  | [] => [x]
  | y :: sorted' =>
      if decide (R x y) then x :: y :: sorted' else y :: sorter_insert R x sorted'
  end.

Definition sorter {A} (R : A → A → Prop) `{!∀ x y, Decision (R x y)}
    (rows : list A) : list A :=
  foldr (sorter_insert R) [] rows.

(** [ORDER BY key ASC] and [ORDER BY key DESC] on a text column (binary
    collation); rows with equal keys come in the order of the scan, which
    is the order of the rowids. *)
Definition order_by_asc {A} (key : A → string) (rows : list A) : list A :=
  sorter (λ x y, String.le (key x) (key y)) rows.
Definition order_by_desc {A} (key : A → string) (rows : list A) : list A :=
  sorter (λ x y, String.le (key y) (key x)) rows.

(** [WHERE c1 AND ... AND cn] *)
Definition where_all {A} (conditions : list (A → bool)) (row : A) : bool :=
  forallb (λ c, c row) conditions.

(** [SELECT COUNT( * )] *)
Definition count_rows {A} (rows : list A) : Z := Z.of_nat (length rows).

(** [SELECT * FROM entries WHERE entry_id = ?], first row. *)
Definition select_entry (entryId : string) (st : Store) : option EntryRow.t :=
  head (filter (λ r, EntryRow.entry_id r = entryId) (entries st)).

(** [SELECT * FROM attachments WHERE entry_id = ? ORDER BY created_at ASC] *)
Definition select_attachments_of (entryId : string) (st : Store) : list AttachmentRow.t :=
  order_by_asc AttachmentRow.created_at
    (filter (λ a, AttachmentRow.entry_id a = entryId) (attachments st)).

(** [SELECT * FROM attachments WHERE id = ?], first row. *)
Definition select_attachment (id : Z) (st : Store) : option AttachmentRow.t :=
  head (filter (λ a, AttachmentRow.id a = id) (attachments st)).

(** The loop that fills [attachmentMap]: each row is pushed on the array
    kept under its [entry_id]. *)
Definition group_attachments (rows : list AttachmentRow.t) : gmap string (list Attachment.t) :=
  foldl (λ attachmentMap row,
           let existing := default [] (attachmentMap !! AttachmentRow.entry_id row) in
           <[AttachmentRow.entry_id row := existing ++ [mapAttachment row]]> attachmentMap)
        ∅ rows.

(** ** CRUD operations *)

Module ListOptions.
Record t := mk {
  pagePath : option string;
  type : option EntryType;
  includeComplete : option bool
}.
End ListOptions.

Module ListResult.
Record t := mk {
  entries : list DevLogEntry.t;
  total : Z;
  openCount : Z
}.
End ListResult.

Definition page_path_condition (pagePath : option string) : list (EntryRow.t → bool) :=
  match pagePath with
  | Some p => if truthy p then [λ e, String.eqb (EntryRow.page_path e) p] else []
  | None => []
  end.

Definition type_condition (type : option EntryType) : list (EntryRow.t → bool) :=
  match type with
  | Some t => [λ e, bool_decide (EntryRow.type e = t)]
  | None => []
  end.

Definition is_open (e : EntryRow.t) : bool := EntryRow.is_complete e =? 0.

(** The most host parameters ([?]) a statement may hold; preparing one
    with more fails with "too many SQL variables". *)
Definition SQLITE_MAX_VARIABLE_NUMBER : Z := 32766.

(** The attachments query binds one parameter per selected entry:
    [entry_id IN (?, ..., ?)]. *)
Definition listEntries (options : ListOptions.t) : M ListResult.t :=
  let conditions :=
    page_path_condition (ListOptions.pagePath options)
    ++ type_condition (ListOptions.type options)
    ++ (if negb (default false (ListOptions.includeComplete options))
        then [is_open] else []) in
  entryRows ← gets (λ st,
    order_by_desc EntryRow.created_at
      (List.filter (where_all conditions) (entries st)));
  let entryIds := EntryRow.entry_id <$> entryRows in
  attachmentMap ←
    match entryIds with
    | [] => mret ∅
    | _ :: _ =>
        if SQLITE_MAX_VARIABLE_NUMBER <? count_rows entryIds
        then throw SQLITE_ERROR
        else
          gets (λ st,
            group_attachments
              (order_by_asc AttachmentRow.created_at
                 (filter (λ a, AttachmentRow.entry_id a ∈ entryIds) (attachments st))))
    end;
  let mappedEntries :=
    (λ e, mapEntry e (default [] (attachmentMap !! EntryRow.entry_id e))) <$> entryRows in
  let countConditions :=
    [is_open] ++ page_path_condition (ListOptions.pagePath options) in
  openCount ← gets (λ st,
    count_rows (List.filter (where_all countConditions) (entries st)));
  mret {| ListResult.entries := mappedEntries;
          ListResult.total := Z.of_nat (length mappedEntries);
          ListResult.openCount := openCount |}.

Definition getEntry (entryId : string) : M (option DevLogEntry.t) :=
  row ← gets (select_entry entryId);
  match row with
  | None => mret None
  | Some row =>
      attachmentRows ← gets (select_attachments_of entryId);
      mret (Some (mapEntry row (mapAttachment <$> attachmentRows)))
  end.

(** [INSERT INTO entries (...) VALUES (...)] at engine time [now]: the
    UNIQUE constraint on [entry_id] is checked, the rowid comes from the
    AUTOINCREMENT sequence, [is_complete] takes its default 0, and
    [created_at] and [updated_at] both take [datetime('now')], which is one
    value within a statement. *)
Definition insert_entry (now entryId : string) (type : EntryType) (title description : string)
    (priority : option Priority) (pageUrl pagePath : string) (userAgent : option string)
    : M unit := λ st,
  if bool_decide (entryId ∈ EntryRow.entry_id <$> entries st)
  then Throw SQLITE_CONSTRAINT_UNIQUE st
  else
    let row :=
      {| EntryRow.id := entries_seq st + 1;
         EntryRow.entry_id := entryId;
         EntryRow.type := type;
         EntryRow.title := title;
         EntryRow.description := description;
         EntryRow.priority := priority;
         EntryRow.is_complete := 0;
         EntryRow.page_url := pageUrl;
         EntryRow.page_path := pagePath;
         EntryRow.user_agent := userAgent;
         EntryRow.created_at := now;
         EntryRow.updated_at := now |} in
    Ok tt {| entries := entries st ++ [row]; entries_seq := entries_seq st + 1;
             attachments := attachments st; attachments_seq := attachments_seq st;
             next_number := next_number st; disk := disk st |}.

(** The result is [getEntry(entryId)!]; the assertion is erased at run
    time, so the value is whatever [getEntry] gives. *)
Definition createEntry (now : string) (dto : CreateEntryDto.t) : M (option DevLogEntry.t) :=
  entryId ← getNextEntryId (CreateEntryDto.type dto);
  _ ← insert_entry now entryId
        (CreateEntryDto.type dto)
        (CreateEntryDto.title dto)
        (or_default (CreateEntryDto.description dto) "")
        (CreateEntryDto.priority dto)
        (CreateEntryDto.pageUrl dto)
        (CreateEntryDto.pagePath dto)
        (or_null (CreateEntryDto.userAgent dto));
  getEntry entryId.

(** The assignments of [UPDATE entries SET ...], one per element of [sets]. *)
Definition set_updated_at (v : string) (r : EntryRow.t) : EntryRow.t :=
  {| EntryRow.id := EntryRow.id r; EntryRow.entry_id := EntryRow.entry_id r;
     EntryRow.type := EntryRow.type r; EntryRow.title := EntryRow.title r;
     EntryRow.description := EntryRow.description r;
     EntryRow.priority := EntryRow.priority r;
     EntryRow.is_complete := EntryRow.is_complete r;
     EntryRow.page_url := EntryRow.page_url r; EntryRow.page_path := EntryRow.page_path r;
     EntryRow.user_agent := EntryRow.user_agent r;
     EntryRow.created_at := EntryRow.created_at r; EntryRow.updated_at := v |}.

Definition set_title (v : string) (r : EntryRow.t) : EntryRow.t :=
  {| EntryRow.id := EntryRow.id r; EntryRow.entry_id := EntryRow.entry_id r;
     EntryRow.type := EntryRow.type r; EntryRow.title := v;
     EntryRow.description := EntryRow.description r;
     EntryRow.priority := EntryRow.priority r;
     EntryRow.is_complete := EntryRow.is_complete r;
     EntryRow.page_url := EntryRow.page_url r; EntryRow.page_path := EntryRow.page_path r;
     EntryRow.user_agent := EntryRow.user_agent r;
     EntryRow.created_at := EntryRow.created_at r;
     EntryRow.updated_at := EntryRow.updated_at r |}.

Definition set_description (v : string) (r : EntryRow.t) : EntryRow.t :=
  {| EntryRow.id := EntryRow.id r; EntryRow.entry_id := EntryRow.entry_id r;
     EntryRow.type := EntryRow.type r; EntryRow.title := EntryRow.title r;
     EntryRow.description := v;
     EntryRow.priority := EntryRow.priority r;
     EntryRow.is_complete := EntryRow.is_complete r;
     EntryRow.page_url := EntryRow.page_url r; EntryRow.page_path := EntryRow.page_path r;
     EntryRow.user_agent := EntryRow.user_agent r;
     EntryRow.created_at := EntryRow.created_at r;
     EntryRow.updated_at := EntryRow.updated_at r |}.

Definition set_priority (v : option Priority) (r : EntryRow.t) : EntryRow.t :=
  {| EntryRow.id := EntryRow.id r; EntryRow.entry_id := EntryRow.entry_id r;
     EntryRow.type := EntryRow.type r; EntryRow.title := EntryRow.title r;
     EntryRow.description := EntryRow.description r;
     EntryRow.priority := v;
     EntryRow.is_complete := EntryRow.is_complete r;
     EntryRow.page_url := EntryRow.page_url r; EntryRow.page_path := EntryRow.page_path r;
     EntryRow.user_agent := EntryRow.user_agent r;
     EntryRow.created_at := EntryRow.created_at r;
     EntryRow.updated_at := EntryRow.updated_at r |}.

Definition set_is_complete (v : Z) (r : EntryRow.t) : EntryRow.t :=
  {| EntryRow.id := EntryRow.id r; EntryRow.entry_id := EntryRow.entry_id r;
     EntryRow.type := EntryRow.type r; EntryRow.title := EntryRow.title r;
     EntryRow.description := EntryRow.description r;
     EntryRow.priority := EntryRow.priority r;
     EntryRow.is_complete := v;
     EntryRow.page_url := EntryRow.page_url r; EntryRow.page_path := EntryRow.page_path r;
     EntryRow.user_agent := EntryRow.user_agent r;
     EntryRow.created_at := EntryRow.created_at r;
     EntryRow.updated_at := EntryRow.updated_at r |}.

(** [sets.push(...)] when the payload field is not [undefined]. *)
Definition push_if_defined {V} (field : option V) (assign : V → EntryRow.t → EntryRow.t)
    : list (EntryRow.t → EntryRow.t) :=
  match field with
  | Some v => [assign v]
  | None => []
  end.

(** [UPDATE entries SET s1, ..., sn WHERE entry_id = @entryId] *)
Definition update_entries (sets : list (EntryRow.t → EntryRow.t)) (entryId : string) : M unit :=
  modify (set_entries (fmap (λ r,
    if decide (EntryRow.entry_id r = entryId)
    then foldl (λ row assign, assign row) r sets
    else r))).

Definition updateEntry (now entryId : string) (dto : UpdateEntryDto.t) : M (option DevLogEntry.t) :=
  existing ← getEntry entryId;
  match existing with
  | None => mret None
  | Some _ =>
      let sets :=
        [set_updated_at now]
        ++ push_if_defined (UpdateEntryDto.title dto) set_title
        ++ push_if_defined (UpdateEntryDto.description dto) set_description
        ++ push_if_defined (UpdateEntryDto.priority dto) set_priority
        ++ push_if_defined (UpdateEntryDto.isComplete dto)
             (λ isComplete : bool, set_is_complete (if isComplete then 1 else 0)) in
      _ ← update_entries sets entryId;
      getEntry entryId
  end.

(** ** The uploads tree *)

(** [fs.unlinkSync(p)]: removes a file; throws on a directory or on
    nothing. *)
Definition unlinkSync (p : string) : M unit := λ st,
  match disk st !! p with
  | Some (File _) => Ok tt (set_disk (delete p) st)
  | Some Dir => Throw EISDIR st
  | None => Throw ENOENT st
  end.

(** [q] lies below directory [p]. *)
Definition is_below (p q : string) : bool := String.prefix (p +:+ "/") q.

(** [fs.rmSync(p, { recursive: true, force: true })]: removes [p] and all
    that lies below it; a missing [p] is not an error. *)
Definition rmSync_recursive_force (p : string) : M unit :=
  modify (set_disk (filter (λ kv : string * Node, kv.1 ≠ p ∧ is_below p kv.1 = false))).

(** The limits of the file system on names: a component of a path holds at
    most [NAME_MAX] bytes and a path fewer than [PATH_MAX]; a path beyond
    them is refused with ENAMETOOLONG.  The layer creates and writes a path
    below a directory that exists, so the component that can be too long is
    the last one. *)
Definition NAME_MAX : nat := 255.
Definition PATH_MAX : nat := 4096.

(** The length of the text after the last separator of [p], counted on from
    [n]. *)
Fixpoint last_segment_length (n : nat) (p : string) : nat :=
  match p with
  | EmptyString => n
  | String c p' =>
      if Ascii.eqb c "/" then last_segment_length 0 p' else last_segment_length (S n) p'
  end.

Definition fits (p : string) : Prop :=
  (last_segment_length 0 p ≤ NAME_MAX)%nat ∧ (String.length p < PATH_MAX)%nat.

#[global] Instance fits_dec p : Decision (fits p).
Proof. unfold fits. apply _. Defined.

(** [fs.mkdirSync(p, { recursive: true })]: an existing directory is kept;
    a file in the way throws, and so does a name beyond the limits. *)
Definition mkdirSync_recursive (p : string) : M unit := λ st,
  if decide (fits p) then
    match disk st !! p with
    | Some (File _) => Throw EEXIST st
    | _ => Ok tt (set_disk (<[p := Dir]>) st)
    end
  else Throw ENAMETOOLONG st.

(** [fs.writeFileSync(p, data)]: creates or replaces the file; throws on a
    directory and on a name beyond the limits. *)
Definition writeFileSync (p : string) (data : Buffer) : M unit := λ st,
  if decide (fits p) then
    match disk st !! p with
    | Some Dir => Throw EISDIR st
    | _ => Ok tt (set_disk (<[p := File data]>) st)
    end
  else Throw ENAMETOOLONG st.

Definition existsSync (p : string) : M bool :=
  gets (λ st, bool_decide (is_Some (disk st !! p))).

Definition readFileSync (p : string) : M Buffer := λ st,
  match disk st !! p with
  | Some (File data) => Ok data st
  | Some Dir => Throw EISDIR st
  | None => Throw ENOENT st
  end.

(** [for (const x of xs) body(x)] *)
Fixpoint for_of {A} (xs : list A) (body : A → M unit) : M unit :=
  match xs with
  | [] => mret tt
  | x :: xs' => _ ← body x; for_of xs' body
  end.

(** [DELETE FROM entries WHERE entry_id = ?] with foreign keys on: the
    attachment rows that reference a deleted entry go with it (ON DELETE
    CASCADE); the result is [changes], the number of entry rows removed. *)
Definition delete_entries (entryId : string) : M Z := λ st,
  let removed := filter (λ r, EntryRow.entry_id r = entryId) (entries st) in
  Ok (count_rows removed)
     {| entries := filter (λ r, EntryRow.entry_id r ≠ entryId) (entries st);
        entries_seq := entries_seq st;
        attachments :=
          filter (λ a, AttachmentRow.entry_id a ∉ EntryRow.entry_id <$> removed)
                 (attachments st);
        attachments_seq := attachments_seq st;
        next_number := next_number st; disk := disk st |}.

(** [DELETE FROM attachments WHERE id = ?] *)
Definition delete_attachments (id : Z) : M Z := λ st,
  let removed := filter (λ a, AttachmentRow.id a = id) (attachments st) in
  Ok (count_rows removed)
     (set_attachments (filter (λ a, AttachmentRow.id a ≠ id)) st).

(** [INSERT INTO attachments (...) VALUES (...)] at engine time [now]: the
    foreign key on [entry_id] is checked and the rowid comes from the
    AUTOINCREMENT sequence.  A Buffer bound to [blob_data], empty or not,
    is stored as a BLOB and read back as a Buffer, which is truthy. *)
Definition insert_attachment (now entryId filename originalName mimeType : string)
    (sizeBytes : Z) (storageType : StorageType)
    (blobData : option Buffer) (filePath : option string) : M unit := λ st,
  if bool_decide (entryId ∈ EntryRow.entry_id <$> entries st)
  then
    let row :=
      {| AttachmentRow.id := attachments_seq st + 1;
         AttachmentRow.entry_id := entryId;
         AttachmentRow.filename := filename;
         AttachmentRow.original_name := originalName;
         AttachmentRow.mime_type := mimeType;
         AttachmentRow.size_bytes := sizeBytes;
         AttachmentRow.storage_type := storageType;
         AttachmentRow.blob_data := blobData;
         AttachmentRow.file_path := filePath;
         AttachmentRow.created_at := now |} in
    Ok tt {| entries := entries st; entries_seq := entries_seq st;
             attachments := attachments st ++ [row];
             attachments_seq := attachments_seq st + 1;
             next_number := next_number st; disk := disk st |}
  else Throw SQLITE_CONSTRAINT_FOREIGNKEY st.

(** [process.env.DEVLOG_STORAGE_TYPE === 'blob' ? 'blob' : 'filesystem'] *)
Definition getStorageType (DEVLOG_STORAGE_TYPE : option string) : StorageType :=
  if decide (DEVLOG_STORAGE_TYPE = Some "blob") then blob else filesystem.

(** The class [[a-zA-Z0-9._-]] of the file-name pattern. *)
Definition is_name_char (c : ascii) : bool :=
  let n := N_of_ascii c in
  ((97 <=? n) && (n <=? 122) || (65 <=? n) && (n <=? 90) || (48 <=? n) && (n <=? 57)
   || (n =? 46) || (n =? 95) || (n =? 45))%N.

(** [name.replace(/[^a-zA-Z0-9._-]/g, '_')] *)
Fixpoint safe_name (name : string) : string :=
  match name with
  | EmptyString => EmptyString
  | String c rest => String (if is_name_char c then c else "_"%char) (safe_name rest)
  end.

Module UploadedFile.
Record t := mk {
  name : string;
  type : string;
  size : Z;
  buffer : Buffer
}.
End UploadedFile.

Section Store.

(** [getUploadsDir()]: the uploads root, fixed for the process. *)
Variable uploadsDir : string.

Definition deleteEntry (entryId : string) : M bool :=
  attachmentPaths ← gets (λ st,
    AttachmentRow.file_path <$>
      filter (λ a, AttachmentRow.entry_id a = entryId
                   ∧ AttachmentRow.storage_type a = filesystem) (attachments st));
  _ ← for_of attachmentPaths (λ file_path,
        match file_path with
        | Some p => if truthy p then try_ignore (unlinkSync p) else mret tt
        | None => mret tt
        end);
  let entryDir := path_join uploadsDir entryId in
  _ ← try_ignore (rmSync_recursive_force entryDir);
  changes ← delete_entries entryId;
  mret (0 <? changes).

(** [randomPrefix] is [Math.random().toString(36).substring(2, 8)] and [now]
    the engine time of the INSERT. *)
Definition addAttachment (DEVLOG_STORAGE_TYPE : option string) (randomPrefix now : string)
    (entryId : string) (file : UploadedFile.t) : M Attachment.t :=
  let storageType := getStorageType DEVLOG_STORAGE_TYPE in
  let safeOriginalName := safe_name (UploadedFile.name file) in
  let filename := randomPrefix +:+ "-" +:+ safeOriginalName in
  _ ← match storageType with
      | filesystem =>
          let entryDir := path_join uploadsDir entryId in
          _ ← mkdirSync_recursive entryDir;
          let filePath := path_join entryDir filename in
          _ ← writeFileSync filePath (UploadedFile.buffer file);
          insert_attachment now entryId filename (UploadedFile.name file)
            (UploadedFile.type file) (UploadedFile.size file) storageType
            None (Some filePath)
      | blob =>
          insert_attachment now entryId filename (UploadedFile.name file)
            (UploadedFile.type file) (UploadedFile.size file) storageType
            (Some (UploadedFile.buffer file)) None
      end;
  row ← gets (λ st,
    head (filter (λ a, AttachmentRow.entry_id a = entryId
                       ∧ AttachmentRow.filename a = filename) (attachments st)));
  match row with
  | Some row => mret (mapAttachment row)
  | None => throw TypeError
  end.

End Store.

Definition getAttachment (id : Z) : M (option (Attachment.t * Buffer)) :=
  row ← gets (select_attachment id);
  match row with
  | None => mret None
  | Some row =>
      let attachment := mapAttachment row in
      match AttachmentRow.storage_type row, AttachmentRow.blob_data row with
      | blob, Some blob_data => mret (Some (attachment, blob_data))
      | _, _ =>
          match AttachmentRow.file_path row with
          | Some file_path =>
              if truthy file_path then
                present ← existsSync file_path;
                if (present : bool) then
                  data ← readFileSync file_path;
                  mret (Some (attachment, data))
                else mret None
              else mret None
          | None => mret None
          end
      end
  end.

Definition deleteAttachment (id : Z) : M bool :=
  row ← gets (select_attachment id);
  match row with
  | None => mret false
  | Some row =>
      _ ← match AttachmentRow.storage_type row, AttachmentRow.file_path row with
          | filesystem, Some p => if truthy p then try_ignore (unlinkSync p) else mret tt
          | _, _ => mret tt
          end;
      changes ← delete_attachments id;
      mret (0 <? changes)
  end.

(** ** Count *)

Module CountResult.
Record t := mk { openCount : Z; totalCount : Z }.
End CountResult.

Definition getOpenCount (pagePath : option string) : M CountResult.t :=
  if truthy_opt pagePath then
    let p := default "" pagePath in
    open ← gets (λ st, count_rows
      (List.filter (λ e, is_open e && String.eqb (EntryRow.page_path e) p) (entries st)));
    total ← gets (λ st, count_rows
      (List.filter (λ e, String.eqb (EntryRow.page_path e) p) (entries st)));
    mret {| CountResult.openCount := open; CountResult.totalCount := total |}
  else
    open ← gets (λ st, count_rows (List.filter is_open (entries st)));
    total ← gets (λ st, count_rows (entries st));
    mret {| CountResult.openCount := open; CountResult.totalCount := total |}.

(** ** Export *)

Definition exportAllEntries : M (list DevLogEntry.t) :=
  entryRows ← gets (λ st, order_by_desc EntryRow.created_at (entries st));
  attachmentMap ← gets (λ st,
    group_attachments (order_by_asc AttachmentRow.created_at (attachments st)));
  mret ((λ e, mapEntry e (default [] (attachmentMap !! EntryRow.entry_id e))) <$> entryRows).

(** ** Sequences of calls *)

(** One call of an exported function of [db.ts], with the inputs it reads
    from its environment. *)
Inductive Call :=
  | call_getNextEntryId (type : EntryType)
  | call_listEntries (options : ListOptions.t)
  | call_getEntry (entryId : string)
  | call_createEntry (now : string) (dto : CreateEntryDto.t)
  | call_updateEntry (now entryId : string) (dto : UpdateEntryDto.t)
  | call_deleteEntry (entryId : string)
  | call_addAttachment (DEVLOG_STORAGE_TYPE : option string)
      (randomPrefix now entryId : string) (file : UploadedFile.t)
  | call_getAttachment (id : Z)
  | call_deleteAttachment (id : Z)
  | call_getOpenCount (pagePath : option string)
  | call_exportAllEntries.

(** The store a call leaves behind, whether it returns or throws. *)
Definition after_call (uploadsDir : string) (c : Call) (st : Store) : Store :=
  match c with
  | call_getNextEntryId type => final_store (getNextEntryId type st)
  | call_listEntries options => final_store (listEntries options st)
  | call_getEntry entryId => final_store (getEntry entryId st)
  | call_createEntry now dto => final_store (createEntry now dto st)
  | call_updateEntry now entryId dto => final_store (updateEntry now entryId dto st)
  | call_deleteEntry entryId => final_store (deleteEntry uploadsDir entryId st)
  | call_addAttachment env randomPrefix now entryId file =>
      final_store (addAttachment uploadsDir env randomPrefix now entryId file st)
  | call_getAttachment id => final_store (getAttachment id st)
  | call_deleteAttachment id => final_store (deleteAttachment id st)
  | call_getOpenCount pagePath => final_store (getOpenCount pagePath st)
  | call_exportAllEntries => final_store (exportAllEntries st)
  end.

Definition after_calls (uploadsDir : string) (calls : list Call) (st : Store) : Store :=
  foldl (λ st c, after_call uploadsDir c st) st calls.

(** [addAttachment] is to be called for an existing entry: the caller
    checks, as the upload route does with [getEntry]. *)
Definition call_permitted (c : Call) (st : Store) : Prop :=
  match c with
  | call_addAttachment _ _ _ entryId _ => entryId ∈ EntryRow.entry_id <$> entries st
  | _ => True
  end.

(** The stores that calls of the exported functions produce from the
    freshly opened database, where files of the uploads tree may also
    disappear behind the store's back. *)
Inductive reachable (uploadsDir : string) : Store → Prop :=
  | reachable_initial : reachable uploadsDir getDb_initial
  | reachable_call (c : Call) (st : Store) :
      reachable uploadsDir st →
      call_permitted c st →
      reachable uploadsDir (after_call uploadsDir c st)
  | reachable_file_lost (p : string) (st : Store) :
      reachable uploadsDir st →
      reachable uploadsDir (set_disk (delete p) st).

(** ** Relations between stores *)

(** A computation relates the store it starts from to the one it leaves
    behind by [R], whatever its outcome. *)
Definition relates {A} (R : relation Store) (m : M A) : Prop :=
  ∀ st, R st (final_store (m st)).

(** No counter went down. *)
Definition counters_le (st st' : Store) : Prop :=
  ∀ type, next_number st type ≤ next_number st' type.

(** No counter moved. *)
Definition counters_eq (st st' : Store) : Prop :=
  ∀ type, next_number st type = next_number st' type.

(** ** Invariants of the store *)

(** [c] occurs in [s]. *)
Fixpoint mentions (c : ascii) (s : string) : bool :=
  match s with
  | EmptyString => false
  | String c' s' => Ascii.eqb c' c || mentions c s'
  end.

(** One path segment: no separator inside. *)
Definition is_segment (s : string) : Prop := mentions "/"%char s = false.


(** What the schema and the ID counter keep true of the tables: counters
    start at 1; every entry carries an identifier that its type's counter
    has already passed; [entry_id] is UNIQUE; every attachment references
    an entry (foreign key); attachment rowids are unique and below their
    AUTOINCREMENT sequence. *)
Record tables_inv (st : Store) : Prop := {
  inv_counters : ∀ type, 1 ≤ next_number st type;
  inv_entry_ids : ∀ r, r ∈ entries st →
    ∃ num, 1 ≤ num < next_number st (EntryRow.type r)
           ∧ EntryRow.entry_id r = format_entry_id (EntryRow.type r) num;
  inv_entry_unique : NoDup (EntryRow.entry_id <$> entries st);
  inv_foreign_key : ∀ a, a ∈ attachments st →
    AttachmentRow.entry_id a ∈ EntryRow.entry_id <$> entries st;
  inv_attachment_ids : NoDup (AttachmentRow.id <$> attachments st);
  inv_attachment_seq : ∀ a, a ∈ attachments st → AttachmentRow.id a ≤ attachments_seq st
}.

(** An attachment row as [addAttachment] writes it: a blob row holds its
    bytes and no path, a filesystem row holds the path of its file below
    the directory of its entry and no bytes. *)
Definition row_as_written (uploadsDir : string) (a : AttachmentRow.t) : Prop :=
  match AttachmentRow.storage_type a with
  | blob =>
      is_Some (AttachmentRow.blob_data a) ∧ AttachmentRow.file_path a = None
  | filesystem =>
      AttachmentRow.blob_data a = None
      ∧ AttachmentRow.file_path a
        = Some (path_join (path_join uploadsDir (AttachmentRow.entry_id a))
                          (AttachmentRow.filename a))
  end.

(** A node of the uploads tree as the store creates it: a directory per
    entry, files inside such directories. *)
Definition node_as_created (uploadsDir : string) (p : string) (node : Node) : Prop :=
  match node with
  | Dir => ∃ entryId, is_segment entryId ∧ p = path_join uploadsDir entryId
  | File _ => ∃ entryId filename, p = path_join (path_join uploadsDir entryId) filename
  end.

Record uploads_inv (uploadsDir : string) (st : Store) : Prop := {
  inv_rows : ∀ a, a ∈ attachments st → row_as_written uploadsDir a;
  inv_disk : ∀ p node, disk st !! p = Some node → node_as_created uploadsDir p node
}.

Definition store_inv (uploadsDir : string) (st : Store) : Prop :=
  tables_inv st ∧ uploads_inv uploadsDir st.

(** ** Outcomes of the calls *)

(** The value a call returned, if it returned. *)
Definition returned {A} (r : Result A) : option A :=
  match r with
  | Ok a _ => Some a
  | Throw _ _ => None
  end.

(** [updatedAt] of the entry a call returned. *)
Definition updatedAt_of (r : Result (option DevLogEntry.t)) : option string :=
  match returned r with
  | Some (Some e) => Some (DevLogEntry.updatedAt e)
  | _ => None
  end.

(** [userAgent] of the entry a call returned. *)
Definition userAgent_of (r : Result (option DevLogEntry.t)) : option (option string) :=
  match returned r with
  | Some (Some e) => Some (DevLogEntry.userAgent e)
  | _ => None
  end.

(** The bytes of the file at [p], if a file is there. *)
Definition file_content (st : Store) (p : string) : option Buffer :=
  match disk st !! p with
  | Some (File data) => Some data
  | _ => None
  end.

(** The row [updateEntry] leaves under [entryId], field by field. *)
Definition updated_row (now : string) (dto : UpdateEntryDto.t) (row : EntryRow.t) : EntryRow.t :=
  {| EntryRow.id := EntryRow.id row;
     EntryRow.entry_id := EntryRow.entry_id row;
     EntryRow.type := EntryRow.type row;
     EntryRow.title := default (EntryRow.title row) (UpdateEntryDto.title dto);
     EntryRow.description :=
       default (EntryRow.description row) (UpdateEntryDto.description dto);
     EntryRow.priority := default (EntryRow.priority row) (UpdateEntryDto.priority dto);
     EntryRow.is_complete :=
       match UpdateEntryDto.isComplete dto with
       | Some isComplete => if isComplete then 1 else 0
       | None => EntryRow.is_complete row
       end;
     EntryRow.page_url := EntryRow.page_url row;
     EntryRow.page_path := EntryRow.page_path row;
     EntryRow.user_agent := EntryRow.user_agent row;
     EntryRow.created_at := EntryRow.created_at row;
     EntryRow.updated_at := now |}.

(** The row [createEntry] inserts for a payload at engine time [now], given
    the rowid and the identifier it got. *)
Definition created_row (now : string) (dto : CreateEntryDto.t) (id : Z) (entryId : string)
    : EntryRow.t :=
  {| EntryRow.id := id;
     EntryRow.entry_id := entryId;
     EntryRow.type := CreateEntryDto.type dto;
     EntryRow.title := CreateEntryDto.title dto;
     EntryRow.description := or_default (CreateEntryDto.description dto) "";
     EntryRow.priority := CreateEntryDto.priority dto;
     EntryRow.is_complete := 0;
     EntryRow.page_url := CreateEntryDto.pageUrl dto;
     EntryRow.page_path := CreateEntryDto.pagePath dto;
     EntryRow.user_agent := or_null (CreateEntryDto.userAgent dto);
     EntryRow.created_at := now;
     EntryRow.updated_at := now |}.

(** The store [createEntry] leaves behind when the INSERT succeeds. *)
Definition created_store (now : string) (dto : CreateEntryDto.t) (st : Store) : Store :=
  let type := CreateEntryDto.type dto in
  {| entries := entries st
                ++ [created_row now dto (entries_seq st + 1)
                      (format_entry_id type (next_number st type))];
     entries_seq := entries_seq st + 1;
     attachments := attachments st; attachments_seq := attachments_seq st;
     next_number := <[type := next_number st type + 1]> (next_number st);
     disk := disk st |}.

(** The record [createEntry] is to return for a payload: the payload's
    fields, with the defaults of omitted ones. *)
Definition created_entry_fields (dto : CreateEntryDto.t) (e : DevLogEntry.t) : Prop :=
  DevLogEntry.type e = CreateEntryDto.type dto
  ∧ DevLogEntry.title e = CreateEntryDto.title dto
  ∧ DevLogEntry.pageUrl e = CreateEntryDto.pageUrl dto
  ∧ DevLogEntry.pagePath e = CreateEntryDto.pagePath dto
  ∧ DevLogEntry.description e = default "" (CreateEntryDto.description dto)
  ∧ DevLogEntry.priority e = CreateEntryDto.priority dto.

(** The row [addAttachment] inserts, and the store it leaves behind when
    nothing throws. *)
Definition generated_filename (randomPrefix : string) (file : UploadedFile.t) : string :=
  randomPrefix +:+ "-" +:+ safe_name (UploadedFile.name file).

Definition added_row (uploadsDir : string) (storageType : StorageType)
    (randomPrefix now entryId : string) (file : UploadedFile.t) (id : Z) : AttachmentRow.t :=
  let filename := generated_filename randomPrefix file in
  {| AttachmentRow.id := id;
     AttachmentRow.entry_id := entryId;
     AttachmentRow.filename := filename;
     AttachmentRow.original_name := UploadedFile.name file;
     AttachmentRow.mime_type := UploadedFile.type file;
     AttachmentRow.size_bytes := UploadedFile.size file;
     AttachmentRow.storage_type := storageType;
     AttachmentRow.blob_data :=
       match storageType with
       | blob => Some (UploadedFile.buffer file)
       | filesystem => None
       end;
     AttachmentRow.file_path :=
       match storageType with
       | blob => None
       | filesystem => Some (path_join (path_join uploadsDir entryId) filename)
       end;
     AttachmentRow.created_at := now |}.

Definition added_store (uploadsDir : string) (storageType : StorageType)
    (randomPrefix now entryId : string) (file : UploadedFile.t) (st : Store) : Store :=
  let entryDir := path_join uploadsDir entryId in
  let filePath := path_join entryDir (generated_filename randomPrefix file) in
  {| entries := entries st; entries_seq := entries_seq st;
     attachments :=
       attachments st
       ++ [added_row uploadsDir storageType randomPrefix now entryId file
             (attachments_seq st + 1)];
     attachments_seq := attachments_seq st + 1;
     next_number := next_number st;
     disk :=
       match storageType with
       | blob => disk st
       | filesystem =>
           <[filePath := File (UploadedFile.buffer file)]> (<[entryDir := Dir]> (disk st))
       end |}.

(** The paths [addAttachment] creates and writes in filesystem mode are
    within the limits of the file system; blob mode touches no path. *)
Definition upload_fits (uploadsDir : string) (storageType : StorageType)
    (randomPrefix entryId : string) (file : UploadedFile.t) : Prop :=
  match storageType with
  | blob => True
  | filesystem =>
      fits (path_join uploadsDir entryId)
      ∧ fits (path_join (path_join uploadsDir entryId)
                        (generated_filename randomPrefix file))
  end.

#[global] Instance upload_fits_dec uploadsDir storageType randomPrefix entryId file :
  Decision (upload_fits uploadsDir storageType randomPrefix entryId file).
Proof. unfold upload_fits. destruct storageType; apply _. Defined.

(** No attachment of the entry carries the file name yet. *)
Definition filename_unused (entryId filename : string) (st : Store) : Prop :=
  ∀ a, a ∈ attachments st →
    ¬ (AttachmentRow.entry_id a = entryId ∧ AttachmentRow.filename a = filename).

(** The store [deleteEntry] leaves behind, given the uploads tree [disk']
    that the unlink loop left. *)
Definition deleted_store (uploadsDir entryId : string) (disk' : gmap string Node)
    (st : Store) : Store :=
  let entryDir := path_join uploadsDir entryId in
  {| entries := filter (λ r, EntryRow.entry_id r ≠ entryId) (entries st);
     entries_seq := entries_seq st;
     attachments :=
       filter (λ a, AttachmentRow.entry_id a
                    ∉ EntryRow.entry_id <$>
                        filter (λ r, EntryRow.entry_id r = entryId) (entries st))
              (attachments st);
     attachments_seq := attachments_seq st;
     next_number := next_number st;
     disk := filter (λ kv : string * Node, kv.1 ≠ entryDir ∧ is_below entryDir kv.1 = false)
                    disk' |}.

(** ** Counts, as the specification words them *)

(** An optional filter value admits [x]: it is absent or equal to [x]. *)
Definition admits `{EqDecision A} (wanted : option A) (x : A) : bool :=
  match wanted with
  | Some y => bool_decide (x = y)
  | None => true
  end.

(** The open count of [list] read literally: the incomplete entries that
    match the supplied page path and the supplied type. *)
Definition spec_open_count (options : ListOptions.t) (st : Store) : Z :=
  count_rows
    (List.filter (λ e, (EntryRow.is_complete e =? 0)
                       && admits (ListOptions.pagePath options) (EntryRow.page_path e)
                       && admits (ListOptions.type options) (EntryRow.type e))
                 (entries st)).

(** The incomplete entries of a page; of all pages when no page path is
    given or the given one is the empty string. *)
Definition page_open_count (pagePath : option string) (st : Store) : Z :=
  count_rows
    (List.filter (λ e, (EntryRow.is_complete e =? 0)
                       && admits (or_null pagePath) (EntryRow.page_path e))
                 (entries st)).

(** ** Sample stores *)

Definition sample_bug : CreateEntryDto.t :=
  {| CreateEntryDto.type := bug_report;
     CreateEntryDto.title := "Null pointer on save";
     CreateEntryDto.description := None;
     CreateEntryDto.priority := None;
     CreateEntryDto.submittedBy := None;
     CreateEntryDto.pageUrl := "http://localhost:3000/a";
     CreateEntryDto.pagePath := "/a";
     CreateEntryDto.userAgent := None |}.

(** One open bug report on page [/a]. *)
Definition store_one_bug : Store :=
  final_store (createEntry "2026-01-01 00:00:00" sample_bug getDb_initial).

(** A payload that only marks the entry complete. *)
Definition mark_complete : UpdateEntryDto.t :=
  {| UpdateEntryDto.title := None;
     UpdateEntryDto.description := None;
     UpdateEntryDto.priority := None;
     UpdateEntryDto.isComplete := Some true |}.

(** A note whose user agent is supplied as the empty string. *)
Definition sample_note_empty_agent : CreateEntryDto.t :=
  {| CreateEntryDto.type := note;
     CreateEntryDto.title := "Check spacing";
     CreateEntryDto.description := Some "Header looks tight";
     CreateEntryDto.priority := None;
     CreateEntryDto.submittedBy := None;
     CreateEntryDto.pageUrl := "http://localhost:3000/a";
     CreateEntryDto.pagePath := "/a";
     CreateEntryDto.userAgent := Some "" |}.

(** An upload that goes to the entry of [store_one_bug]. *)
Definition sample_upload : UploadedFile.t :=
  {| UploadedFile.name := "save dialog.png";
     UploadedFile.type := "image/png";
     UploadedFile.size := 3;
     UploadedFile.buffer := [Byte.x89; Byte.x50; Byte.x4e] |}.

Definition sample_uploads_dir : string := "/srv/app/.devlog/uploads".

(** An upload whose name has 249 bytes. *)
Definition sample_long_upload : UploadedFile.t :=
  {| UploadedFile.name := repeat_string "a" 245 +:+ ".png";
     UploadedFile.type := "image/png";
     UploadedFile.size := 3;
     UploadedFile.buffer := [Byte.x89; Byte.x50; Byte.x4e] |}.

(** A bug report is created and deleted again. *)
Definition create_then_delete : list Call :=
  [call_createEntry "2026-01-01 00:00:05" sample_bug; call_deleteEntry "BUG-002"].

(** The bug report of [store_one_bug] with one attachment, stored on disk
    or in the row. *)
Definition store_with_upload (DEVLOG_STORAGE_TYPE : option string) : Store :=
  after_call sample_uploads_dir
    (call_addAttachment DEVLOG_STORAGE_TYPE "k3x9qa" "2026-01-01 00:00:07" "BUG-001"
       sample_upload)
    store_one_bug.

(** ** Listing, as one predicate and two orders *)

(** A row passes the filters of [listEntries]: the page path when one is
    given and not empty, the type when one is given, and the completion
    flag unless completed entries are asked for. *)
Definition passes_filters (options : ListOptions.t) (e : EntryRow.t) : bool :=
  admits (or_null (ListOptions.pagePath options)) (EntryRow.page_path e)
  && admits (ListOptions.type options) (EntryRow.type e)
  && (default false (ListOptions.includeComplete options) || is_open e).

(** The entries that pass the filters are few enough for the attachments
    query of [listEntries]. *)
Definition within_variable_limit (options : ListOptions.t) (st : Store) : Prop :=
  count_rows (List.filter (passes_filters options) (entries st))
  ≤ SQLITE_MAX_VARIABLE_NUMBER.

#[global] Instance within_variable_limit_dec options st :
  Decision (within_variable_limit options st).
Proof. unfold within_variable_limit. apply _. Defined.

Definition newest_first (e1 e2 : DevLogEntry.t) : Prop :=
  String.le (DevLogEntry.createdAt e2) (DevLogEntry.createdAt e1).

Definition oldest_first (a1 a2 : Attachment.t) : Prop :=
  String.le (Attachment.createdAt a1) (Attachment.createdAt a2).

(** The attachment rows of an entry, in table order. *)
Definition attachment_rows_of (entryId : string) (st : Store) : list AttachmentRow.t :=
  filter (λ a, AttachmentRow.entry_id a = entryId) (attachments st).

(** The entries of a page; of all pages when no page path is given or the
    given one is the empty string. *)
Definition page_total_count (pagePath : option string) (st : Store) : Z :=
  count_rows
    (List.filter (λ e, admits (or_null pagePath) (EntryRow.page_path e)) (entries st)).

(** 1 when the page path [q] asked for covers page [p], else 0. *)
Definition counts_page (q : option string) (p : string) : Z :=
  if admits (or_null q) p then 1 else 0.

(** What the UPDATE of [updateEntry] does to a row of the table. *)
Definition update_row_of (now entryId : string) (dto : UpdateEntryDto.t) (r : EntryRow.t)
    : EntryRow.t :=
  if decide (EntryRow.entry_id r = entryId) then updated_row now dto r else r.

(** The change of an open count when an entry's completion flag is set to
    [isComplete]. *)
Definition completion_step (isComplete : bool) : Z := if isComplete then -1 else 1.

(** [is_complete] holds the integers the store writes: 0 or 1. *)
Definition flags_inv (st : Store) : Prop :=
  ∀ r, r ∈ entries st → EntryRow.is_complete r = 0 ∨ EntryRow.is_complete r = 1.

(** The uploads tree after [deleteAttachment]: the file of a filesystem row
    is unlinked if it is there. *)
Definition unlinked_disk (id : Z) (st : Store) : gmap string Node :=
  match select_attachment id st with
  | Some row =>
      match AttachmentRow.storage_type row, AttachmentRow.file_path row with
      | filesystem, Some p =>
          match truthy p, disk st !! p with
          | true, Some (File _) => delete p (disk st)
          | _, _ => disk st
          end
      | _, _ => disk st
      end
  | None => disk st
  end.

(** The store [deleteAttachment] leaves behind. *)
Definition detached_store (id : Z) (st : Store) : Store :=
  {| entries := entries st; entries_seq := entries_seq st;
     attachments := filter (λ a, AttachmentRow.id a ≠ id) (attachments st);
     attachments_seq := attachments_seq st;
     next_number := next_number st;
     disk := unlinked_disk id st |}.

(** Two results of [getEntry] that differ at most in the attachments, the
    second holding those of the first, in their order, without the one
    numbered [id]. *)
Definition without_attachment (id : Z) (e e' : option DevLogEntry.t) : Prop :=
  match e, e' with
  | Some x, Some x' =>
      ∃ row atts,
        x = mapEntry row atts
        ∧ x' = mapEntry row (filter (λ a, Attachment.id a ≠ id) atts)
  | None, None => True
  | _, _ => False
  end.

(** The store of [store_with_upload] after a second upload to the same
    entry. *)
Definition store_with_two_uploads (DEVLOG_STORAGE_TYPE : option string) : Store :=
  after_call sample_uploads_dir
    (call_addAttachment DEVLOG_STORAGE_TYPE "p7m2zd" "2026-01-01 00:00:08" "BUG-001"
       sample_upload)
    (store_with_upload DEVLOG_STORAGE_TYPE).

(** The store of [store_with_upload] after a second bug report. *)
Definition store_two_entries (DEVLOG_STORAGE_TYPE : option string) : Store :=
  after_call sample_uploads_dir
    (call_createEntry "2026-01-01 00:00:08" sample_bug)
    (store_with_upload DEVLOG_STORAGE_TYPE).

(** Every character of [s] satisfies [f]. *)
Fixpoint all_chars (f : ascii → bool) (s : string) : bool :=
  match s with
  | EmptyString => true
  | String c s' => f c && all_chars f s'
  end.

(** The identifiers a call allocates for [type]: one for [getNextEntryId]
    and for [createEntry] of that type, none otherwise. *)
Definition allocations (c : Call) (type : EntryType) : Z :=
  match c with
  | call_getNextEntryId t => if decide (t = type) then 1 else 0
  | call_createEntry _ dto => if decide (CreateEntryDto.type dto = type) then 1 else 0
  | _ => 0
  end.

Definition allocations_of (calls : list Call) (type : EntryType) : Z :=
  foldr (λ c n, allocations c type + n) 0 calls.

(** ** The upload route *)

(** A [File] of the submitted form; [file.size] is the number of its
    bytes. *)
Module FormFile.
Record t := mk {
  name : string;
  type : string;
  content : Buffer
}.
Definition size (f : t) : Z := Z.of_nat (length (content f)).
End FormFile.

(** What [formData.get('file')] gives: null, the text of a plain field, or
    a file. *)
Inductive FormField :=
  | no_field
  | text_field (value : string)
  | file_field (file : FormFile.t).

Definition MAX_FILE_SIZE : Z := 10 * 1024 * 1024.

(** [NextResponse.json(body, { status })] *)
Inductive Json :=
  | json_error (error : string)
  | json_attachment (attachment : Attachment.t)
  | json_entry (entry : option DevLogEntry.t)
  | json_success.

Definition NextResponse : Type := Json * Z.

(** The object the route hands to [addAttachment]: name, type (or
    [application/octet-stream] when the type is empty), size and bytes of
    the file. *)
Definition form_upload (f : FormFile.t) : UploadedFile.t :=
  {| UploadedFile.name := FormFile.name f;
     UploadedFile.type := or_default (Some (FormFile.type f)) "application/octet-stream";
     UploadedFile.size := FormFile.size f;
     UploadedFile.buffer := FormFile.content f |}.

Section UploadRoute.

Variable uploadsDir : string.

(** [POST /api/devlog/entries/[entryId]/attachments].  A text field under
    the name [file] passes the size check ([undefined > MAX_FILE_SIZE] is
    false) and fails at [file.arrayBuffer()]. *)
Definition upload_POST (DEVLOG_STORAGE_TYPE : option string) (randomPrefix now : string)
    (entryId : string) (file : FormField) (st : Store) : NextResponse * Store :=
  let handler : M NextResponse :=
    entry ← getEntry entryId;
    match entry with
    | None => mret (json_error "Entry not found", 404)
    | Some _ =>
        match file with
        | no_field => mret (json_error "No file provided", 400)
        | text_field value =>
            if truthy value then throw TypeError
            else mret (json_error "No file provided", 400)
        | file_field f =>
            if MAX_FILE_SIZE <? FormFile.size f
            then mret (json_error "File too large (max 10MB)", 400)
            else
              attachment ← addAttachment uploadsDir DEVLOG_STORAGE_TYPE randomPrefix now
                entryId (form_upload f);
              mret (json_attachment attachment, 201)
        end
    end in
  match handler st with
  | Ok response st' => (response, st')
  | Throw _ st' => (json_error "Failed to upload attachment", 500, st')
  end.

End UploadRoute.

(** A form with the file of [sample_upload]. *)
Definition sample_form : FormField :=
  file_field {| FormFile.name := "save dialog.png"; FormFile.type := "";
                FormFile.content := [Byte.x89; Byte.x50; Byte.x4e] |}.

(** ** The export route *)

(** A JavaScript [Map] with string keys: the pairs in the order in which
    their keys were first set. *)
Definition JsMap (V : Type) : Type := list (string * V).

(** [m.get(key)] *)
Fixpoint map_get {V} (key : string) (m : JsMap V) : option V :=
  match m with
  | [] => None
  | (k, v) :: m' => if decide (k = key) then Some v else map_get key m'
  end.

(** [m.set(key, v)]: an existing key keeps its place. *)
Fixpoint map_set {V} (key : string) (v : V) (m : JsMap V) : JsMap V :=
  match m with
  | [] => [(key, v)]
  | (k, v') :: m' =>
      if decide (k = key) then (k, v) :: m' else (k, v') :: map_set key v m'
  end.

(** The loop of [toMarkdown] that fills [byPage]. *)
Definition group_by_page (entries : list DevLogEntry.t) : JsMap (list DevLogEntry.t) :=
  foldl (λ byPage entry,
           let existing := default [] (map_get (DevLogEntry.pagePath entry) byPage) in
           map_set (DevLogEntry.pagePath entry) (existing ++ [entry]) byPage)
        [] entries.

(** The strings of a list in the order of their first occurrence. *)
Definition first_seen (l : list string) : list string :=
  foldl (λ seen p, if decide (p ∈ seen) then seen else seen ++ [p]) [] l.

(** The entries of a page, in the order of the list. *)
Definition entries_of_page (entries : list DevLogEntry.t) (pagePath : string)
    : list DevLogEntry.t :=
  filter (λ e, DevLogEntry.pagePath e = pagePath) entries.

(** ** The attachment route *)

(** The class [[\x20-\x7E]]. *)
Definition is_printable (c : ascii) : bool :=
  let n := N_of_ascii c in ((32 <=? n) && (n <=? 126))%N.

(** [name.replace(/[^\x20-\x7E]/g, '_')] *)
Fixpoint sanitizeHeaderFilename (name : string) : string :=
  match name with
  | EmptyString => EmptyString
  | String c rest =>
      String (if is_printable c then c else "_"%char) (sanitizeHeaderFilename rest)
  end.

Definition carriage_return : ascii := ascii_of_N 13.
Definition line_feed : ascii := ascii_of_N 10.

(** ** The entry routes *)

(** [try { ... } catch { return NextResponse.json({ error }, { status: 500 }) }] *)
Definition or_500 (failure : string) (handler : M NextResponse) (st : Store)
    : NextResponse * Store :=
  match handler st with
  | Ok response st' => (response, st')
  | Throw _ st' => (json_error failure, 500, st')
  end.

(** [body.type] of a posted JSON body: missing, one of the three entry
    types, or some other string.  The other fields of the body are taken to
    hold values of their declared types; a priority outside the four values
    would fail the CHECK of the schema. *)
Inductive BodyType :=
  | type_absent
  | type_known (type : EntryType)
  | type_other (value : string).

Module CreateBody.
Record t := mk {
  type : BodyType;
  title : option string;
  description : option string;
  priority : option Priority;
  submittedBy : option string;
  pageUrl : option string;
  pagePath : option string;
  userAgent : option string
}.
End CreateBody.

(** [!body.type || !body.title || !body.pageUrl || !body.pagePath] *)
Definition missing_required (body : CreateBody.t) : bool :=
  negb match CreateBody.type body with
       | type_absent => false
       | type_known _ => true
       | type_other value => truthy value
       end
  || negb (truthy_opt (CreateBody.title body))
  || negb (truthy_opt (CreateBody.pageUrl body))
  || negb (truthy_opt (CreateBody.pagePath body)).

(** The payload [createEntry] reads from a body of a known type. *)
Definition body_dto (type : EntryType) (body : CreateBody.t) : CreateEntryDto.t :=
  {| CreateEntryDto.type := type;
     CreateEntryDto.title := default "" (CreateBody.title body);
     CreateEntryDto.description := CreateBody.description body;
     CreateEntryDto.priority := CreateBody.priority body;
     CreateEntryDto.submittedBy := CreateBody.submittedBy body;
     CreateEntryDto.pageUrl := default "" (CreateBody.pageUrl body);
     CreateEntryDto.pagePath := default "" (CreateBody.pagePath body);
     CreateEntryDto.userAgent := CreateBody.userAgent body |}.

(** [POST /api/devlog/entries].  For a type that has no counter the UPDATE
    of [getNextEntryId] returns no row and [row.num] throws. *)
Definition entries_POST (now : string) (body : CreateBody.t) : Store → NextResponse * Store :=
  or_500 "Failed to create entry"
    (if missing_required body
     then mret (json_error "Missing required fields: type, title, pageUrl, pagePath", 400)
     else
       match CreateBody.type body with
       | type_known type =>
           entry ← createEntry now (body_dto type body);
           mret (json_entry entry, 201)
       | _ => throw TypeError
       end).

(** [GET /api/devlog/entries/[entryId]] *)
Definition entry_GET (entryId : string) : Store → NextResponse * Store :=
  or_500 "Failed to get entry"
    (entry ← getEntry entryId;
     match entry with
     | None => mret (json_error "Entry not found", 404)
     | Some _ => mret (json_entry entry, 200)
     end).

(** [PATCH /api/devlog/entries/[entryId]] for a body of the declared type
    [UpdateEntryDto].  The handler passes whatever JSON it receives on to
    [updateEntry]; a body outside the type (a null title, a priority
    outside the four values, text that is not JSON) is not a value of
    [UpdateEntryDto.t] and is left out here. *)
Definition entry_PATCH (now entryId : string) (body : UpdateEntryDto.t)
    : Store → NextResponse * Store :=
  or_500 "Failed to update entry"
    (entry ← updateEntry now entryId body;
     match entry with
     | None => mret (json_error "Entry not found", 404)
     | Some _ => mret (json_entry entry, 200)
     end).

(** [DELETE /api/devlog/entries/[entryId]] *)
Definition entry_DELETE (uploadsDir entryId : string) : Store → NextResponse * Store :=
  or_500 "Failed to delete entry"
    (success ← deleteEntry uploadsDir entryId;
     if success : bool then mret (json_success, 200)
     else mret (json_error "Entry not found", 404)).

(** The status of an entry route: 200 for an entry that is there, 404
    otherwise. *)
Definition found_status (entryId : string) (st : Store) : Z :=
  if bool_decide (entryId ∈ EntryRow.entry_id <$> entries st) then 200 else 404.

(** A posted body for a bug report on page [/a]. *)
Definition sample_body : CreateBody.t :=
  {| CreateBody.type := type_known bug_report;
     CreateBody.title := Some "Null pointer on save";
     CreateBody.description := None;
     CreateBody.priority := None;
     CreateBody.submittedBy := None;
     CreateBody.pageUrl := Some "http://localhost:3000/a";
     CreateBody.pagePath := Some "/a";
     CreateBody.userAgent := None |}.

(** * Properties *)

(** Unfolding the monad: one step of symbolic execution. *)
Ltac run_m :=
  unfold mbind, M_bind, mret, M_ret, gets, modify, throw in *; simpl in *.

(** A decidable statement about concrete values: decide it by evaluation. *)
Ltac by_evaluation :=
  lazymatch goal with
  | |- ?P => apply (bool_decide_unpack P); vm_compute; exact I
  end.

(** ** The sorter *)

Section sorter.
Context {A : Type} (R : A → A → Prop) `{!∀ x y, Decision (R x y)}.

Lemma sorter_insert_perm (x : A) (l : list A) : sorter_insert R x l ≡ₚ x :: l.
Proof.
  induction l as [|y l IH]; [done|]. simpl.
  destruct (decide (R x y)); [done|]. by rewrite IH, Permutation_swap.
Qed.

Lemma sorter_perm (l : list A) : sorter R l ≡ₚ l.
Proof.
  induction l as [|x l IH]; [done|]. simpl.
  by rewrite sorter_insert_perm, IH.
Qed.

Lemma sorter_insert_first (x : A) (l : list A) :
  Forall (R x) l → sorter_insert R x l = x :: l.
Proof. destruct 1 as [|y l Hy _]; [done|]. simpl. by rewrite decide_True. Qed.

Context `{!Transitive R, !Total R}.

Lemma sorter_insert_sorted (x : A) (l : list A) :
  StronglySorted R l → StronglySorted R (sorter_insert R x l).
Proof.
  induction 1 as [|y l Hl IH Hy]; [by repeat constructor|]. simpl.
  destruct (decide (R x y)) as [Hxy|Hxy].
  - constructor; [by constructor|].
    constructor; [done|]. eapply Forall_impl; [exact Hy|].
    intros z Hz. by etrans.
  - constructor; [done|].
    rewrite sorter_insert_perm. constructor; [|done].
    by destruct (total R x y).
Qed.

Lemma sorter_sorted (l : list A) : StronglySorted R (sorter R l).
Proof.
  induction l as [|x l IH]; [constructor|]. simpl. by apply sorter_insert_sorted.
Qed.

(** Stability: selecting rows before or after sorting gives the same
    list. *)
Lemma sorter_insert_filter (P : A → Prop) `{!∀ x, Decision (P x)} (x : A) (l : list A) :
  StronglySorted R l →
  filter P (sorter_insert R x l)
  = if decide (P x) then sorter_insert R x (filter P l) else filter P l.
Proof.
  induction 1 as [|y l Hl IH Hy].
  { simpl. rewrite filter_cons, filter_nil. by destruct (decide (P x)). }
  simpl. destruct (decide (R x y)) as [Hxy|Hxy].
  - rewrite (filter_cons _ x). destruct (decide (P x)) as [Hx|Hx]; [|done].
    rewrite sorter_insert_first; [done|].
    apply Forall_forall. intros z [_ Hz]%list_elem_of_filter.
    apply elem_of_cons in Hz as [->|Hz]; [done|].
    etrans; [exact Hxy|]. by eapply Forall_forall in Hy.
  - rewrite (filter_cons _ y), IH, (filter_cons _ y).
    destruct (decide (P y)), (decide (P x)); simpl; try done.
    by rewrite decide_False.
Qed.

Lemma sorter_filter (P : A → Prop) `{!∀ x, Decision (P x)} (l : list A) :
  filter P (sorter R l) = sorter R (filter P l).
Proof.
  induction l as [|x l IH]; [done|]. simpl.
  rewrite sorter_insert_filter by apply sorter_sorted.
  rewrite filter_cons. destruct (decide (P x)); simpl; by rewrite IH.
Qed.

End sorter.

Lemma order_by_asc_sorted {A} (key : A → string) (rows : list A) :
  StronglySorted (λ x y, String.le (key x) (key y)) (order_by_asc key rows).
Proof.
  unfold order_by_asc. apply sorter_sorted.
  - intros x y z Hxy Hyz. by etrans.
  - intros x y. apply (total String.le).
Qed.

Lemma order_by_desc_sorted {A} (key : A → string) (rows : list A) :
  StronglySorted (λ x y, String.le (key y) (key x)) (order_by_desc key rows).
Proof.
  unfold order_by_desc. apply sorter_sorted.
  - intros x y z Hxy Hyz. by etrans.
  - intros x y. apply (total String.le).
Qed.

Lemma order_by_asc_perm {A} (key : A → string) (rows : list A) :
  order_by_asc key rows ≡ₚ rows.
Proof. apply sorter_perm. Qed.

Lemma order_by_desc_perm {A} (key : A → string) (rows : list A) :
  order_by_desc key rows ≡ₚ rows.
Proof. apply sorter_perm. Qed.

Lemma order_by_asc_filter {A} (key : A → string) (P : A → Prop) `{!∀ x, Decision (P x)}
    (rows : list A) :
  filter P (order_by_asc key rows) = order_by_asc key (filter P rows).
Proof.
  unfold order_by_asc. apply sorter_filter.
  - intros x y z Hxy Hyz. by etrans.
  - intros x y. apply (total String.le).
Qed.

Lemma StronglySorted_filter {A} (R : relation A) (P : A → Prop) `{!∀ x, Decision (P x)}
    (l : list A) :
  StronglySorted R l → StronglySorted R (filter P l).
Proof.
  induction 1 as [|x l Hl IH Hx]; [constructor|].
  rewrite filter_cons. destruct (decide (P x)); [|done].
  constructor; [done|].
  apply Forall_forall. intros y Hy. apply list_elem_of_filter in Hy as [_ Hy].
  by eapply Forall_forall in Hx.
Qed.

(** ** Strings and decimal numerals *)

Lemma string_app_nil_r (s : string) : s +:+ "" = s.
Proof. induction s as [|c s IH]; [done|]. unfold String.app in *. simpl. by rewrite IH. Qed.

Lemma string_app_assoc (s1 s2 s3 : string) : (s1 +:+ s2) +:+ s3 = s1 +:+ (s2 +:+ s3).
Proof.
  induction s1 as [|c s1 IH]; [done|].
  unfold String.app in *. simpl. by rewrite IH.
Qed.

Lemma string_length_app (s1 s2 : string) :
  String.length (s1 +:+ s2) = (String.length s1 + String.length s2)%nat.
Proof.
  induction s1 as [|c s1 IH]; [done|].
  unfold String.app in *. simpl. by rewrite IH.
Qed.

Lemma string_app_cons (c : ascii) (s1 s2 : string) :
  String c s1 +:+ s2 = String c (s1 +:+ s2).
Proof. done. Qed.

Lemma parse_digits_app (s1 s2 : string) (acc : Z) :
  parse_digits acc (s1 +:+ s2)
  = match parse_digits acc s1 with
    | Some acc' => parse_digits acc' s2
    | None => None
    end.
Proof.
  revert acc. induction s1 as [|c s1 IH]; intros acc; [done|].
  rewrite string_app_cons. simpl. destruct (digit_value c); [apply IH|done].
Qed.

Lemma digit_value_pretty_N_char (d : N) :
  (d < 10)%N → digit_value (pretty_N_char d) = Some (Z.of_N d).
Proof.
  intros Hd.
  assert (Hcases : d = 0%N ∨ d = 1%N ∨ d = 2%N ∨ d = 3%N ∨ d = 4%N ∨ d = 5%N
                   ∨ d = 6%N ∨ d = 7%N ∨ d = 8%N ∨ d = 9%N) by lia.
  destruct Hcases as [->|[->|[->|[->|[->|[->|[->|[->|[->| ->]]]]]]]]]; reflexivity.
Qed.

Lemma pretty_N_go_app (x : N) (s : string) :
  pretty_N_go x s = pretty_N_go x "" +:+ s.
Proof.
  revert s. induction (N.lt_wf_0 x) as [x _ IH]; intros s.
  destruct (decide (0 < x)%N) as [Hx|Hx].
  - rewrite (pretty_N_go_step x s), (pretty_N_go_step x "") by done.
    assert (Hlt : (x `div` 10 < x)%N) by (apply N.div_lt; lia).
    rewrite (IH _ Hlt (String _ s)), (IH _ Hlt (String _ "")).
    by rewrite string_app_assoc.
  - assert (x = 0%N) as -> by lia. by rewrite !pretty_N_go_0.
Qed.

Lemma parse_digits_pretty_N_go (x : N) :
  parse_digits 0 (pretty_N_go x "") = Some (Z.of_N x).
Proof.
  induction (N.lt_wf_0 x) as [x _ IH].
  destruct (decide (0 < x)%N) as [Hx|Hx].
  - rewrite pretty_N_go_step by done.
    rewrite pretty_N_go_app, parse_digits_app.
    rewrite IH by (apply N.div_lt; lia). simpl.
    rewrite digit_value_pretty_N_char by (apply N.mod_lt; lia).
    f_equal. pose proof (N.div_mod x 10). lia.
  - assert (x = 0%N) as -> by lia. done.
Qed.

Lemma parse_digits_String_of_number (n : Z) :
  0 ≤ n → parse_digits 0 (String_of_number n) = Some n.
Proof.
  intros Hn. destruct n as [|p|p]; [done| |lia].
  unfold String_of_number, pretty, pretty_Z, pretty, pretty_positive, pretty, pretty_N.
  rewrite decide_False by done.
  by rewrite parse_digits_pretty_N_go.
Qed.

Lemma String_of_number_pos (p : positive) :
  String_of_number (Z.pos p) = pretty_N_go (N.pos p) "".
Proof.
  unfold String_of_number, pretty, pretty_Z, pretty, pretty_positive, pretty, pretty_N.
  by rewrite decide_False.
Qed.

(** The numeral of a number below 1000 has at most three digits, that of a
    larger one at least four. *)
Lemma String_of_number_short (n : Z) :
  0 ≤ n ≤ 999 → (1 ≤ String.length (String_of_number n) ≤ 3)%nat.
Proof.
  intros Hn. destruct n as [|p|p]; [simpl; lia| |lia].
  rewrite String_of_number_pos.
  set (x := N.pos p). assert (Hx : (0 < x ∧ x < 1000)%N) by lia. clearbody x.
  assert (H3 : (x / 10 / 10 / 10 = 0)%N).
  { rewrite !N.Div0.div_div. apply N.div_small. lia. }
  rewrite pretty_N_go_step by lia.
  destruct (x `div` 10)%N as [|q1]; [rewrite pretty_N_go_0; simpl; lia|].
  rewrite pretty_N_go_step by lia.
  destruct (N.pos q1 `div` 10)%N as [|q2]; [rewrite pretty_N_go_0; simpl; lia|].
  rewrite pretty_N_go_step by lia.
  rewrite H3, pretty_N_go_0. simpl. lia.
Qed.

Lemma String_of_number_long (n : Z) :
  999 < n → (4 ≤ String.length (String_of_number n))%nat.
Proof.
  intros Hn. destruct n as [|p|p]; [lia| |lia].
  rewrite String_of_number_pos.
  set (x := N.pos p). assert (Hx : (1000 ≤ x)%N) by lia. clearbody x.
  assert (H1 : (100 ≤ x `div` 10)%N) by (apply N.div_le_lower_bound; lia).
  assert (H2 : (10 ≤ x / 10 / 10)%N) by (apply N.div_le_lower_bound; lia).
  assert (H3 : (1 ≤ x / 10 / 10 / 10)%N) by (apply N.div_le_lower_bound; lia).
  do 4 (rewrite pretty_N_go_step by lia).
  rewrite pretty_N_go_app, string_length_app. simpl. lia.
Qed.

(** Padding with zeros: what [padStart(3, '0')] puts in front. *)
Lemma padStart_zeros (s : string) :
  padStart 3 "0" s = repeat_string "0" (3 - String.length s) +:+ s.
Proof. by destruct s as [|a [|b [|c s]]]. Qed.

Lemma padStart_long (s : string) :
  (3 ≤ String.length s)%nat → padStart 3 "0" s = s.
Proof. intros Hs. destruct s as [|a [|b [|c s]]]; simpl in Hs; try lia. done. Qed.

Lemma padStart_length (s : string) :
  String.length (padStart 3 "0" s) = (String.length s `max` 3)%nat.
Proof. destruct s as [|a [|b [|c s]]]; simpl; try done. lia. Qed.

Lemma parse_digits_padStart (s : string) :
  parse_digits 0 (padStart 3 "0" s) = parse_digits 0 s.
Proof. by destruct s as [|a [|b [|c s]]]. Qed.

Lemma after_dash_format (type : EntryType) (num : Z) :
  after_dash (format_entry_id type num) = Some (padStart 3 "0" (String_of_number num)).
Proof. by destruct type. Qed.

Lemma numeric_suffix_format (type : EntryType) (num : Z) :
  0 ≤ num → numeric_suffix (format_entry_id type num) = Some num.
Proof.
  intros Hnum. unfold numeric_suffix. rewrite after_dash_format.
  pose proof (padStart_length (String_of_number num)) as Hlen.
  pose proof (parse_digits_padStart (String_of_number num)) as Hparse.
  destruct (padStart 3 "0" (String_of_number num)) as [|c s]; [simpl in Hlen; lia|].
  rewrite Hparse. by apply parse_digits_String_of_number.
Qed.

(** Identifiers of different types or numbers are different strings. *)
Lemma format_entry_id_inj (t1 t2 : EntryType) (n1 n2 : Z) :
  0 ≤ n1 → 0 ≤ n2 →
  format_entry_id t1 n1 = format_entry_id t2 n2 → t1 = t2 ∧ n1 = n2.
Proof.
  intros H1 H2 Heq. split.
  - by destruct t1, t2.
  - apply (f_equal numeric_suffix) in Heq.
    rewrite !numeric_suffix_format in Heq by done. by simplify_eq.
Qed.

(** ** The ID counter *)

Lemma getNextEntryId_eq (type : EntryType) (st : Store) :
  getNextEntryId type st
  = Ok (format_entry_id type (next_number st type))
       {| entries := entries st; entries_seq := entries_seq st;
          attachments := attachments st; attachments_seq := attachments_seq st;
          next_number := <[type := next_number st type + 1]> (next_number st);
          disk := disk st |}.
Proof.
  unfold getNextEntryId, mbind, M_bind, update_counter_returning, mret, M_ret.
  do 2 f_equal. lia.
Qed.

Lemma format_entry_id_shape (type : EntryType) (num : Z) :
  format_entry_id type num
  = PREFIXES type +:+ "-"
    +:+ repeat_string "0" (3 - String.length (String_of_number num))
    +:+ String_of_number num.
Proof. unfold format_entry_id. by rewrite padStart_zeros. Qed.

(** C2: [getNextEntryId] returns the pre-increment counter value, written as
    the prefix of the type (CR, BUG, NOTE), a dash, and the decimal numeral
    of the number with zeros in front up to three digits: exactly three
    characters up to 999 and the bare numeral above; the counter goes up by
    one, and the numeric suffixes of two consecutive identifiers of one
    type differ by exactly 1.  The counter is taken in the range that the
    number read from the database holds exactly. *)
Theorem getNextEntryId_consecutive (st : Store) (type : EntryType) :
  1 ≤ next_number st type < MAX_SAFE_INTEGER →
  ∃ id1 st1 id2 st2 (n1 n2 : Z),
    getNextEntryId type st = Ok id1 st1
    ∧ getNextEntryId type st1 = Ok id2 st2
    ∧ n1 = next_number st type
    ∧ next_number st1 type = n1 + 1
    ∧ PREFIXES type = match type with
                      | change_request => "CR"
                      | bug_report => "BUG"
                      | note => "NOTE"
                      end
    ∧ id1 = PREFIXES type +:+ "-"
            +:+ repeat_string "0" (3 - String.length (String_of_number n1))
            +:+ String_of_number n1
    ∧ id2 = PREFIXES type +:+ "-"
            +:+ repeat_string "0" (3 - String.length (String_of_number n2))
            +:+ String_of_number n2
    ∧ (n1 ≤ 999 → String.length (suffix_text id1) = 3%nat)
    ∧ (999 < n1 → suffix_text id1 = String_of_number n1
                  ∧ (3 < String.length (suffix_text id1))%nat)
    ∧ numeric_suffix id1 = Some n1
    ∧ numeric_suffix id2 = Some n2
    ∧ n2 - n1 = 1.
Proof.
  intros [Hlo Hhi].
  set (n := next_number st type).
  eexists (format_entry_id type n), _, (format_entry_id type (n + 1)), _, n, (n + 1).
  split; [apply getNextEntryId_eq|].
  split.
  { rewrite getNextEntryId_eq. simpl. rewrite fn_lookup_insert. reflexivity. }
  split; [done|].
  split; [simpl; by rewrite fn_lookup_insert|].
  split; [done|].
  split; [apply format_entry_id_shape|].
  split; [apply format_entry_id_shape|].
  unfold suffix_text. rewrite after_dash_format. simpl.
  split.
  { intros Hn. rewrite padStart_length.
    pose proof (String_of_number_short n). lia. }
  split.
  { intros Hn. pose proof (String_of_number_long n Hn).
    rewrite padStart_long by lia. split; [done|lia]. }
  split; [apply numeric_suffix_format; lia|].
  split; [apply numeric_suffix_format; lia|lia].
Qed.

Lemma getNextEntryId_consecutive_witness :
  ∃ id1 st1 id2 st2 (n1 n2 : Z),
    getNextEntryId note getDb_initial = Ok id1 st1
    ∧ getNextEntryId note st1 = Ok id2 st2
    ∧ n1 = next_number getDb_initial note
    ∧ next_number st1 note = n1 + 1
    ∧ PREFIXES note = "NOTE"
    ∧ id1 = PREFIXES note +:+ "-"
            +:+ repeat_string "0" (3 - String.length (String_of_number n1))
            +:+ String_of_number n1
    ∧ id2 = PREFIXES note +:+ "-"
            +:+ repeat_string "0" (3 - String.length (String_of_number n2))
            +:+ String_of_number n2
    ∧ (n1 ≤ 999 → String.length (suffix_text id1) = 3%nat)
    ∧ (999 < n1 → suffix_text id1 = String_of_number n1
                  ∧ (3 < String.length (suffix_text id1))%nat)
    ∧ numeric_suffix id1 = Some n1
    ∧ numeric_suffix id2 = Some n2
    ∧ n2 - n1 = 1.
Proof.
  apply (getNextEntryId_consecutive getDb_initial note).
  unfold MAX_SAFE_INTEGER. simpl. lia.
Defined.

(** ** Listing and counting *)

Lemma where_count_conditions (pagePath : option string) (e : EntryRow.t) :
  where_all ([is_open] ++ page_path_condition pagePath) e
  = (EntryRow.is_complete e =? 0) && admits (or_null pagePath) (EntryRow.page_path e).
Proof.
  unfold where_all, page_path_condition, is_open, or_null.
  destruct pagePath as [[|c p]|]; simpl; rewrite ?andb_true_r; try done.
  f_equal. destruct (String.eqb_spec (EntryRow.page_path e) (String c p)) as [Heq|Hne].
  - by rewrite bool_decide_eq_true_2.
  - by rewrite bool_decide_eq_false_2.
Qed.

(** What the loop over the attachment rows leaves under a key. *)
Lemma group_attachments_lookup (rows : list AttachmentRow.t) (entryId : string) :
  default [] (group_attachments rows !! entryId)
  = mapAttachment <$> filter (λ a, AttachmentRow.entry_id a = entryId) rows.
Proof.
  unfold group_attachments.
  assert (Hgen : ∀ m : gmap string (list Attachment.t),
    default []
      (foldl (λ attachmentMap row,
                let existing := default [] (attachmentMap !! AttachmentRow.entry_id row) in
                <[AttachmentRow.entry_id row := existing ++ [mapAttachment row]]>
                  attachmentMap) m rows !! entryId)
    = default [] (m !! entryId)
      ++ (mapAttachment <$> filter (λ a, AttachmentRow.entry_id a = entryId) rows)).
  { induction rows as [|row rows IH]; intros m; simpl.
    - by rewrite app_nil_r.
    - rewrite IH, filter_cons.
      destruct (decide (AttachmentRow.entry_id row = entryId)) as [<-|Hne].
      + rewrite lookup_insert_eq. simpl. by rewrite <- app_assoc.
      + by rewrite lookup_insert_ne. }
  by rewrite Hgen, lookup_empty.
Qed.

Lemma where_all_passes_filters (options : ListOptions.t) (e : EntryRow.t) :
  where_all
    (page_path_condition (ListOptions.pagePath options)
     ++ type_condition (ListOptions.type options)
     ++ (if negb (default false (ListOptions.includeComplete options))
         then [is_open] else [])) e
  = passes_filters options e.
Proof.
  unfold where_all, passes_filters. rewrite !forallb_app, andb_assoc.
  f_equal; [f_equal|].
  - unfold page_path_condition, or_null, admits.
    destruct (ListOptions.pagePath options) as [[|c p]|]; simpl; try done.
    rewrite ?andb_true_r.
    destruct (String.eqb_spec (EntryRow.page_path e) (String c p)).
    + by rewrite bool_decide_eq_true_2.
    + by rewrite bool_decide_eq_false_2.
  - unfold type_condition, admits.
    destruct (ListOptions.type options); simpl; by rewrite ?andb_true_r.
  - destruct (default false (ListOptions.includeComplete options)); simpl;
      by rewrite ?andb_true_r.
Qed.

Lemma count_selected_rows (options : ListOptions.t) (st : Store) :
  count_rows
    (EntryRow.entry_id <$>
       order_by_desc EntryRow.created_at
         (List.filter
            (where_all
               (page_path_condition (ListOptions.pagePath options)
                ++ type_condition (ListOptions.type options)
                ++ (if negb (default false (ListOptions.includeComplete options))
                    then [is_open] else [])))
            (entries st)))
  = count_rows (List.filter (passes_filters options) (entries st)).
Proof.
  unfold count_rows. rewrite length_fmap, order_by_desc_perm.
  erewrite List.filter_ext; [reflexivity|].
  intros e. apply where_all_passes_filters.
Qed.

(** More selected entries than a statement has parameters: the
    attachments query fails, before the count query is reached. *)
Lemma listEntries_too_many (options : ListOptions.t) (st : Store) :
  ¬ within_variable_limit options st →
  listEntries options st = Throw SQLITE_ERROR st.
Proof.
  unfold within_variable_limit. intros Hmany. unfold listEntries. cbv zeta.
  unfold mbind at 1, M_bind at 1, gets at 1.
  pose proof (count_selected_rows options st) as Hcount.
  destruct (EntryRow.entry_id <$> _) as [|i ids] eqn:Hids.
  { exfalso. apply Hmany. rewrite <- Hcount.
    unfold count_rows, SQLITE_MAX_VARIABLE_NUMBER. simpl. lia. }
  rewrite Hcount. unfold mbind, M_bind.
  destruct (SQLITE_MAX_VARIABLE_NUMBER <? _) eqn:Hlimit; [done|].
  apply Z.ltb_ge in Hlimit. done.
Qed.

(** The rows [listEntries] selects, and how it fills each entry. *)
Lemma listEntries_eq (options : ListOptions.t) (st : Store) :
  within_variable_limit options st →
  let rows := order_by_desc EntryRow.created_at
                (List.filter (passes_filters options) (entries st)) in
  listEntries options st
  = Ok {| ListResult.entries :=
            (λ e, mapEntry e
                    (mapAttachment <$> select_attachments_of (EntryRow.entry_id e) st))
              <$> rows;
          ListResult.total := Z.of_nat (length rows);
          ListResult.openCount :=
            page_open_count (ListOptions.pagePath options) st |} st.
Proof.
  intros Hlimit. unfold within_variable_limit in Hlimit. cbv zeta.
  unfold listEntries. cbv zeta.
  unfold mbind at 1, M_bind at 1, gets at 1.
  pose proof (count_selected_rows options st) as Hcount.
  rewrite (List.filter_ext _ (passes_filters options)
             (λ e, where_all_passes_filters options e)) in *.
  set (rows := order_by_desc EntryRow.created_at
                 (List.filter (passes_filters options) (entries st))) in *.
  assert (Hopen : count_rows
                    (List.filter
                       (where_all
                          ([is_open] ++ page_path_condition (ListOptions.pagePath options)))
                       (entries st))
                  = page_open_count (ListOptions.pagePath options) st).
  { unfold page_open_count. f_equal.
    apply List.filter_ext. intros e. apply where_count_conditions. }
  destruct (EntryRow.entry_id <$> rows) as [|i ids] eqn:Hids.
  { destruct rows; [|done]. run_m. by rewrite Hopen. }
  rewrite Hcount. rewrite (proj2 (Z.ltb_ge _ _)) by done.
  run_m. rewrite Hopen, length_fmap. do 2 f_equal.
  apply list_fmap_ext. intros n e He%list_elem_of_lookup_2. f_equal.
  rewrite group_attachments_lookup. f_equal.
  unfold select_attachments_of. rewrite order_by_asc_filter, list_filter_filter_l; [done|].
  intros a ->. rewrite <- Hids. by apply list_elem_of_fmap_2.
Qed.

Lemma listEntries_final (options : ListOptions.t) (st : Store) :
  final_store (listEntries options st) = st.
Proof.
  destruct (decide (within_variable_limit options st)) as [Hlimit|Hmany].
  - by rewrite listEntries_eq.
  - by rewrite listEntries_too_many.
Qed.

Lemma listEntries_openCount_eq (options : ListOptions.t) (st : Store) :
  within_variable_limit options st →
  ∃ r, listEntries options st = Ok r st
       ∧ ListResult.openCount r = page_open_count (ListOptions.pagePath options) st.
Proof. intros Hlimit. eexists. split; [by apply listEntries_eq|done]. Qed.

(** C1 (as amended): the open count returned by [listEntries] is the number
    of incomplete entries of the supplied page path (of all pages when the
    path is absent or empty); it ignores the type filter and is the same
    whether completed entries are included or not.  A call returns when the
    entries it selects are within the parameter limit of the attachments
    query. *)
Theorem listEntries_openCount_page_scope (options : ListOptions.t) (st : Store) :
  within_variable_limit options st →
  ∃ r, listEntries options st = Ok r st
    ∧ ListResult.openCount r = page_open_count (ListOptions.pagePath options) st
    ∧ ∀ type' includeComplete',
        within_variable_limit
          {| ListOptions.pagePath := ListOptions.pagePath options;
             ListOptions.type := type';
             ListOptions.includeComplete := includeComplete' |} st →
        ∃ r', listEntries
                {| ListOptions.pagePath := ListOptions.pagePath options;
                   ListOptions.type := type';
                   ListOptions.includeComplete := includeComplete' |} st = Ok r' st
              ∧ ListResult.openCount r' = ListResult.openCount r.
Proof.
  intros Hlimit.
  destruct (listEntries_openCount_eq options st Hlimit) as (r & Hr & Hcount).
  exists r. split; [done|]. split; [done|].
  intros type' includeComplete' Hlimit'.
  destruct (listEntries_openCount_eq
              {| ListOptions.pagePath := ListOptions.pagePath options;
                 ListOptions.type := type';
                 ListOptions.includeComplete := includeComplete' |} st Hlimit')
    as (r' & Hr' & Hcount').
  exists r'. split; [done|]. by rewrite Hcount, Hcount'.
Qed.

(** C1, as stated, fails: with one open bug report on [/a], listing the
    notes of [/a] reports an open count of 1, while no incomplete entry
    matches both the page path and the type. *)
Lemma listEntries_openCount_ignores_type :
  let options := {| ListOptions.pagePath := Some "/a";
                    ListOptions.type := Some note;
                    ListOptions.includeComplete := Some true |} in
  ListResult.openCount <$> returned (listEntries options store_one_bug) = Some 1
  ∧ spec_open_count options store_one_bug = 0
  ∧ ListResult.openCount <$> returned (listEntries options store_one_bug)
    ≠ Some (spec_open_count options store_one_bug).
Proof. split; [|split]; vm_compute; [reflexivity|reflexivity|discriminate]. Qed.

Lemma listEntries_openCount_page_scope_witness :
  ∃ r, listEntries {| ListOptions.pagePath := Some "/a";
                      ListOptions.type := Some note;
                      ListOptions.includeComplete := Some true |} store_one_bug
       = Ok r store_one_bug
    ∧ ListResult.openCount r = page_open_count (Some "/a") store_one_bug
    ∧ ∀ type' includeComplete',
        within_variable_limit
          {| ListOptions.pagePath := Some "/a";
             ListOptions.type := type';
             ListOptions.includeComplete := includeComplete' |} store_one_bug →
        ∃ r', listEntries
                {| ListOptions.pagePath := Some "/a";
                   ListOptions.type := type';
                   ListOptions.includeComplete := includeComplete' |} store_one_bug
              = Ok r' store_one_bug
              ∧ ListResult.openCount r' = ListResult.openCount r.
Proof.
  apply (listEntries_openCount_page_scope
           {| ListOptions.pagePath := Some "/a";
              ListOptions.type := Some note;
              ListOptions.includeComplete := Some true |} store_one_bug).
  vm_compute. discriminate.
Defined.

Lemma listEntries_entry_ids (options : ListOptions.t) (st : Store) :
  within_variable_limit options st →
  ∃ r, listEntries options st = Ok r st
    ∧ DevLogEntry.entryId <$> ListResult.entries r
      ≡ₚ EntryRow.entry_id <$> List.filter (passes_filters options) (entries st).
Proof.
  intros Hlimit. eexists. split; [by apply listEntries_eq|]. simpl.
  rewrite <- list_fmap_compose.
  by rewrite order_by_desc_perm.
Qed.

(** C10: an empty page path is no page path.  [listEntries] with
    [pagePath = ''] gives what it gives without a page path, so the entries
    of every page are returned (those that pass the type and completion
    filters), when they are within the parameter limit of the attachments
    query; [getOpenCount('')] gives the global counts: the open entries and
    all entries of the store. *)
Theorem empty_pagePath_means_all_pages (st : Store)
    (type : option EntryType) (includeComplete : option bool) :
  listEntries {| ListOptions.pagePath := Some "";
                 ListOptions.type := type;
                 ListOptions.includeComplete := includeComplete |} st
  = listEntries {| ListOptions.pagePath := None;
                   ListOptions.type := type;
                   ListOptions.includeComplete := includeComplete |} st
  ∧ (within_variable_limit {| ListOptions.pagePath := Some "";
                              ListOptions.type := type;
                              ListOptions.includeComplete := includeComplete |} st →
     ∃ r, listEntries {| ListOptions.pagePath := Some "";
                         ListOptions.type := type;
                         ListOptions.includeComplete := includeComplete |} st = Ok r st
       ∧ DevLogEntry.entryId <$> ListResult.entries r
         ≡ₚ EntryRow.entry_id <$>
              List.filter
                (λ e, admits type (EntryRow.type e)
                      && (default false includeComplete || is_open e))
                (entries st))
  ∧ getOpenCount (Some "") st = getOpenCount None st
  ∧ getOpenCount (Some "") st
    = Ok {| CountResult.openCount := count_rows (List.filter is_open (entries st));
            CountResult.totalCount := count_rows (entries st) |} st.
Proof.
  split; [reflexivity|]. split; [|split; reflexivity].
  intros Hlimit.
  destruct (listEntries_entry_ids _ st Hlimit) as (r & Hr & Hperm).
  exists r. split; [done|]. rewrite Hperm. done.
Qed.

Lemma empty_pagePath_means_all_pages_witness :
  ∃ r, listEntries {| ListOptions.pagePath := Some "";
                      ListOptions.type := None;
                      ListOptions.includeComplete := Some true |} store_one_bug
       = Ok r store_one_bug
    ∧ DevLogEntry.entryId <$> ListResult.entries r
      ≡ₚ EntryRow.entry_id <$>
           List.filter
             (λ e, admits None (EntryRow.type e) && (default false (Some true) || is_open e))
             (entries store_one_bug).
Proof.
  apply (empty_pagePath_means_all_pages store_one_bug None (Some true)).
  vm_compute. discriminate.
Defined.

(** ** Reading and updating an entry *)

Lemma getEntry_eq (entryId : string) (st : Store) :
  getEntry entryId st
  = Ok ((λ row, mapEntry row (mapAttachment <$> select_attachments_of entryId st))
          <$> select_entry entryId st) st.
Proof. unfold getEntry. run_m. by destruct (select_entry entryId st). Qed.

Lemma or_default_same (s : string) : or_default (Some s) "" = s.
Proof. by destruct s. Qed.

(** An update that keeps [entry_id] commutes with the lookup by [entry_id]. *)
Lemma select_entry_fmap (g : EntryRow.t → EntryRow.t) (entryId : string) (st : Store) :
  (∀ r, EntryRow.entry_id (g r) = EntryRow.entry_id r) →
  select_entry entryId (set_entries (fmap g) st) = g <$> select_entry entryId st.
Proof.
  intros Hg. unfold select_entry, set_entries. simpl.
  induction (entries st) as [|r l IH]; [done|].
  rewrite fmap_cons, !filter_cons, Hg.
  destruct (decide (EntryRow.entry_id r = entryId)); [done|apply IH].
Qed.

Lemma foldl_sets_entry_id (sets : list (EntryRow.t → EntryRow.t)) (r : EntryRow.t) :
  Forall (λ assign, ∀ r, EntryRow.entry_id (assign r) = EntryRow.entry_id r) sets →
  EntryRow.entry_id (foldl (λ row assign, assign row) r sets) = EntryRow.entry_id r.
Proof.
  intros Hsets. revert r. induction Hsets as [|assign sets Ha _ IH]; intros r; [done|].
  simpl. by rewrite IH, Ha.
Qed.

Lemma select_entry_entry_id (entryId : string) (st : Store) (row : EntryRow.t) :
  select_entry entryId st = Some row → EntryRow.entry_id row = entryId ∧ row ∈ entries st.
Proof.
  unfold select_entry. intros Hhead.
  apply head_Some_elem_of in Hhead. by apply list_elem_of_filter in Hhead.
Qed.

Lemma updateEntry_found (now entryId : string) (dto : UpdateEntryDto.t) (st : Store)
    (row : EntryRow.t) :
  select_entry entryId st = Some row →
  ∃ st',
    updateEntry now entryId dto st
    = Ok (Some (mapEntry (updated_row now dto row)
                  (mapAttachment <$> select_attachments_of entryId st))) st'
    ∧ attachments st' = attachments st
    ∧ next_number st' = next_number st
    ∧ disk st' = disk st.
Proof.
  intros Hrow. unfold updateEntry.
  unfold mbind at 1, M_bind at 1. rewrite getEntry_eq, Hrow. simpl.
  unfold mbind, M_bind, update_entries, modify.
  eexists. split.
  { rewrite getEntry_eq.
    rewrite select_entry_fmap.
    2:{ intros r. case_decide; [|done]. apply foldl_sets_entry_id.
        destruct dto as [[?|] [?|] [?|] [?|]]; simpl; repeat constructor. }
    rewrite Hrow. simpl. do 3 f_equal.
    apply select_entry_entry_id in Hrow as [Hid _].
    rewrite decide_True by done.
    destruct dto as [[?|] [?|] [?|] [?|]]; reflexivity. }
  done.
Qed.

Lemma updateEntry_not_found (now entryId : string) (dto : UpdateEntryDto.t) (st : Store) :
  select_entry entryId st = None → updateEntry now entryId dto st = Ok None st.
Proof.
  intros Hrow. unfold updateEntry.
  unfold mbind, M_bind. by rewrite getEntry_eq, Hrow.
Qed.

(** What [updateEntry] returns is what the store holds afterwards. *)
Lemma updateEntry_returns_stored (now entryId : string) (dto : UpdateEntryDto.t)
    (st st' : Store) (e' : DevLogEntry.t) :
  updateEntry now entryId dto st = Ok (Some e') st' →
  getEntry entryId st' = Ok (Some e') st'.
Proof.
  unfold updateEntry. unfold mbind at 1, M_bind at 1. rewrite getEntry_eq.
  destruct (select_entry entryId st) as [row|]; simpl; [|done].
  unfold mbind, M_bind, update_entries, modify. rewrite getEntry_eq.
  intros [= Hresult <-]. by rewrite getEntry_eq, Hresult.
Qed.

(** C4: [updateEntry] on an existing entry changes, among title,
    description, priority and isComplete, only the fields present in the
    payload, which take the payload's values; the omitted ones, and id,
    entryId, type, pageUrl, pagePath, userAgent, createdAt and the
    attachments, keep their prior values.  The entry it returns is the
    entry the store holds afterwards, as [getEntry] returns it.  On an
    entryId that has no entry it returns null and leaves the store as it
    was. *)
Theorem updateEntry_changes_only_supplied_fields
    (now entryId : string) (dto : UpdateEntryDto.t) (st : Store) :
  ∃ existing, getEntry entryId st = Ok existing st ∧
    match existing with
    | None => updateEntry now entryId dto st = Ok None st
    | Some e =>
        ∃ e' st', updateEntry now entryId dto st = Ok (Some e') st'
          ∧ DevLogEntry.title e'
            = default (DevLogEntry.title e) (UpdateEntryDto.title dto)
          ∧ DevLogEntry.description e'
            = default (DevLogEntry.description e) (UpdateEntryDto.description dto)
          ∧ DevLogEntry.priority e'
            = default (DevLogEntry.priority e) (UpdateEntryDto.priority dto)
          ∧ DevLogEntry.isComplete e'
            = default (DevLogEntry.isComplete e) (UpdateEntryDto.isComplete dto)
          ∧ DevLogEntry.id e' = DevLogEntry.id e
          ∧ DevLogEntry.entryId e' = DevLogEntry.entryId e
          ∧ DevLogEntry.type e' = DevLogEntry.type e
          ∧ DevLogEntry.pageUrl e' = DevLogEntry.pageUrl e
          ∧ DevLogEntry.pagePath e' = DevLogEntry.pagePath e
          ∧ DevLogEntry.userAgent e' = DevLogEntry.userAgent e
          ∧ DevLogEntry.createdAt e' = DevLogEntry.createdAt e
          ∧ DevLogEntry.attachments e' = DevLogEntry.attachments e
          ∧ getEntry entryId st' = Ok (Some e') st'
    end.
Proof.
  eexists. split; [apply getEntry_eq|].
  destruct (select_entry entryId st) as [row|] eqn:Hrow; simpl.
  - destruct (updateEntry_found now entryId dto st row Hrow) as (st' & Hupd & _).
    eexists _, st'. split; [exact Hupd|].
    pose proof (updateEntry_returns_stored _ _ _ _ _ _ Hupd) as Hstored.
    simpl. rewrite !or_default_same.
    destruct dto as [title description priority [[|]|]]; simpl; by repeat split.
  - by apply updateEntry_not_found.
Qed.

(** C5 (as amended): every successful [updateEntry] sets [updatedAt] to
    the reading of the engine clock at the update, [datetime('now')],
    which counts whole seconds: the entry it returns carries that reading,
    and it is the entry the store holds afterwards, as [getEntry] returns
    it.  The new value is therefore later than the previous one when the
    clock reading is later than it, and equal to the previous one when the
    update falls in the second of the previous write. *)
Theorem updateEntry_refreshes_updatedAt
    (now entryId : string) (dto : UpdateEntryDto.t) (st : Store) :
  ∃ existing, getEntry entryId st = Ok existing st ∧
    match existing with
    | None => updateEntry now entryId dto st = Ok None st
    | Some e =>
        ∃ e' st', updateEntry now entryId dto st = Ok (Some e') st'
          ∧ DevLogEntry.updatedAt e' = now
          ∧ (String.ltb (DevLogEntry.updatedAt e) now = true →
             String.ltb (DevLogEntry.updatedAt e) (DevLogEntry.updatedAt e') = true)
          ∧ (DevLogEntry.updatedAt e = now →
             DevLogEntry.updatedAt e' = DevLogEntry.updatedAt e)
          ∧ getEntry entryId st' = Ok (Some e') st'
          ∧ updatedAt_of (getEntry entryId st') = Some now
    end.
Proof.
  eexists. split; [apply getEntry_eq|].
  destruct (select_entry entryId st) as [row|] eqn:Hrow; simpl.
  - destruct (updateEntry_found now entryId dto st row Hrow) as (st' & Hupd & _).
    eexists _, st'. split; [exact Hupd|].
    pose proof (updateEntry_returns_stored _ _ _ _ _ _ Hupd) as Hstored.
    rewrite Hstored. simpl. done.
  - by apply updateEntry_not_found.
Qed.

(** C5, as stated, fails: an update in the second in which the entry was
    created returns the entry with the [updatedAt] it had, which is not
    strictly greater. *)
Lemma updateEntry_same_second_not_increasing :
  let before := updatedAt_of (getEntry "BUG-001" store_one_bug) in
  let after := updatedAt_of
                 (updateEntry "2026-01-01 00:00:00" "BUG-001" mark_complete store_one_bug) in
  before = Some "2026-01-01 00:00:00"
  ∧ after = Some "2026-01-01 00:00:00"
  ∧ ¬ ∃ t t', before = Some t ∧ after = Some t' ∧ String.ltb t t' = true.
Proof.
  split; [vm_compute; reflexivity|]. split; [vm_compute; reflexivity|].
  intros (t & t' & Hbefore & Hafter & Hlt).
  vm_compute in Hbefore, Hafter.
  injection Hbefore as <-. injection Hafter as <-.
  vm_compute in Hlt. discriminate.
Qed.

(** ** Creating an entry *)

Lemma filter_none {A} (P : A → Prop) `{!∀ x, Decision (P x)} (l : list A) :
  (∀ x, x ∈ l → ¬ P x) → filter P l = [].
Proof.
  intros Hnone. destruct (filter P l) as [|x k] eqn:Hfilter; [done|].
  assert (Hx : x ∈ filter P l) by (rewrite Hfilter; left).
  apply list_elem_of_filter in Hx as [HP Hx]. by destruct (Hnone x Hx).
Qed.

Lemma fresh_entry_id (st : Store) (type : EntryType) :
  tables_inv st →
  format_entry_id type (next_number st type) ∉ EntryRow.entry_id <$> entries st.
Proof.
  intros Hinv Hin. apply list_elem_of_fmap in Hin as (r & Heq & Hr).
  destruct (inv_entry_ids st Hinv r Hr) as (num & Hnum & Hid).
  rewrite Hid in Heq.
  pose proof (inv_counters st Hinv type) as Hlow.
  apply format_entry_id_inj in Heq as [Htype Hnum']; [|lia..].
  rewrite <- Htype in Hnum. lia.
Qed.

Lemma select_entry_snoc (entryId : string) (rows : list EntryRow.t) (row : EntryRow.t) :
  entryId ∉ EntryRow.entry_id <$> rows →
  EntryRow.entry_id row = entryId →
  head (filter (λ r, EntryRow.entry_id r = entryId) (rows ++ [row])) = Some row.
Proof.
  intros Hfresh Hrow. rewrite filter_app.
  assert (filter (λ r, EntryRow.entry_id r = entryId) rows = []) as ->.
  { apply filter_none. intros r Hr Heq.
    apply Hfresh, list_elem_of_fmap. eauto. }
  rewrite filter_cons, decide_True by done. done.
Qed.

Lemma select_attachments_of_none (entryId : string) (st : Store) :
  (∀ a, a ∈ attachments st → AttachmentRow.entry_id a ≠ entryId) →
  select_attachments_of entryId st = [].
Proof.
  intros Hnone. unfold select_attachments_of.
  assert (filter (λ a, AttachmentRow.entry_id a = entryId) (attachments st) = []) as ->.
  { apply filter_none. intros a Ha. by apply Hnone. }
  done.
Qed.

Lemma createEntry_eq (now : string) (dto : CreateEntryDto.t) (st : Store) :
  tables_inv st →
  createEntry now dto st
  = Ok (Some (mapEntry
                (created_row now dto (entries_seq st + 1)
                   (format_entry_id (CreateEntryDto.type dto)
                      (next_number st (CreateEntryDto.type dto))))
                []))
       (created_store now dto st).
Proof.
  intros Hinv. unfold createEntry.
  unfold mbind at 1, M_bind at 1. rewrite getNextEntryId_eq.
  unfold mbind, M_bind, insert_entry. simpl.
  rewrite bool_decide_eq_false_2 by by apply fresh_entry_id.
  rewrite getEntry_eq.
  unfold select_entry. simpl.
  rewrite select_entry_snoc; [|by apply fresh_entry_id|done].
  rewrite select_attachments_of_none; [done|].
  simpl. intros a Ha Heq.
  apply (fresh_entry_id st (CreateEntryDto.type dto) Hinv).
  rewrite <- Heq. by apply inv_foreign_key.
Qed.

Lemma or_default_empty (x : option string) : or_default x "" = default "" x.
Proof. by destruct x as [[|c s]|]. Qed.

(** C3 (as amended): on a store that satisfies the invariants of its
    tables, [createEntry] returns an entry, and [getEntry] on the returned
    entryId yields that same record: type, title, pageUrl, pagePath,
    description and priority are those of the payload (description the
    empty string and priority absent when omitted), userAgent is the
    payload's unless it is omitted or the empty string, in which case it is
    absent; the attachments are empty and createdAt equals updatedAt.  The
    counter of the type is taken in the range that the number read from
    the database holds exactly. *)
Theorem createEntry_then_getEntry (now : string) (dto : CreateEntryDto.t) (st : Store) :
  tables_inv st →
  next_number st (CreateEntryDto.type dto) ≤ MAX_SAFE_INTEGER →
  ∃ e st',
    createEntry now dto st = Ok (Some e) st'
    ∧ getEntry (DevLogEntry.entryId e) st' = Ok (Some e) st'
    ∧ created_entry_fields dto e
    ∧ DevLogEntry.userAgent e = or_null (CreateEntryDto.userAgent dto)
    ∧ (∀ agent, CreateEntryDto.userAgent dto = Some agent → agent ≠ "" →
         DevLogEntry.userAgent e = Some agent)
    ∧ (CreateEntryDto.userAgent dto = None → DevLogEntry.userAgent e = None)
    ∧ DevLogEntry.isComplete e = false
    ∧ DevLogEntry.attachments e = []
    ∧ DevLogEntry.createdAt e = DevLogEntry.updatedAt e.
Proof.
  intros Hinv _.
  eexists _, _. split; [by apply createEntry_eq|].
  split.
  { simpl. rewrite getEntry_eq. unfold select_entry. simpl.
    rewrite select_entry_snoc; [|by apply fresh_entry_id|done].
    rewrite select_attachments_of_none; [done|].
    simpl. intros a Ha Heq.
    apply (fresh_entry_id st (CreateEntryDto.type dto) Hinv).
    rewrite <- Heq. by apply inv_foreign_key. }
  split.
  { unfold created_entry_fields. simpl.
    rewrite or_default_same, or_default_empty. done. }
  simpl. split; [done|].
  split; [by intros [|c agent] -> ?|].
  split; [by intros ->|done].
Qed.

(** C3, as stated, fails: a payload that supplies the empty string as
    userAgent comes back with userAgent absent. *)
Lemma createEntry_drops_empty_userAgent :
  CreateEntryDto.userAgent sample_note_empty_agent = Some ""
  ∧ userAgent_of (createEntry "2026-01-01 00:00:00" sample_note_empty_agent getDb_initial)
    = Some None
  ∧ userAgent_of (createEntry "2026-01-01 00:00:00" sample_note_empty_agent getDb_initial)
    ≠ Some (CreateEntryDto.userAgent sample_note_empty_agent).
Proof. split; [|split]; vm_compute; [reflexivity|reflexivity|discriminate]. Qed.

Lemma tables_inv_initial : tables_inv getDb_initial.
Proof.
  split; simpl; try (intros a Ha; by apply elem_of_nil in Ha).
  - intros type. lia.
  - constructor.
  - constructor.
Qed.

Lemma createEntry_then_getEntry_witness :
  tables_inv getDb_initial
  ∧ ∃ e st',
      createEntry "2026-01-01 00:00:00" sample_bug getDb_initial = Ok (Some e) st'
      ∧ getEntry (DevLogEntry.entryId e) st' = Ok (Some e) st'
      ∧ created_entry_fields sample_bug e
      ∧ DevLogEntry.userAgent e = or_null (CreateEntryDto.userAgent sample_bug)
      ∧ (∀ agent, CreateEntryDto.userAgent sample_bug = Some agent → agent ≠ "" →
           DevLogEntry.userAgent e = Some agent)
      ∧ (CreateEntryDto.userAgent sample_bug = None → DevLogEntry.userAgent e = None)
      ∧ DevLogEntry.isComplete e = false
      ∧ DevLogEntry.attachments e = []
      ∧ DevLogEntry.createdAt e = DevLogEntry.updatedAt e.
Proof.
  split; [exact tables_inv_initial|].
  apply (createEntry_then_getEntry "2026-01-01 00:00:00" sample_bug getDb_initial).
  - exact tables_inv_initial.
  - unfold MAX_SAFE_INTEGER. simpl. lia.
Defined.

(** ** Counters along sequences of calls *)

#[local] Instance counters_le_preorder : PreOrder counters_le.
Proof.
  split.
  - intros st type. lia.
  - intros st1 st2 st3 H12 H23 type. specialize (H12 type). specialize (H23 type). lia.
Qed.

#[local] Instance counters_eq_preorder : PreOrder counters_eq.
Proof.
  split.
  - by intros st type.
  - intros st1 st2 st3 H12 H23 type. by rewrite H12.
Qed.

Lemma counters_eq_le (st st' : Store) : counters_eq st st' → counters_le st st'.
Proof. intros Heq type. rewrite (Heq type). lia. Qed.

Section relates.
Context (R : relation Store) `{!PreOrder R}.

Lemma relates_ret {A} (a : A) : relates R (mret a).
Proof. intros st. simpl. reflexivity. Qed.

Lemma relates_gets {A} (f : Store → A) : relates R (gets f).
Proof. intros st. simpl. reflexivity. Qed.

Lemma relates_throw {A} (e : Exception) : relates R (throw (A:=A) e).
Proof. intros st. simpl. reflexivity. Qed.

Lemma relates_bind {A B} (m : M A) (f : A → M B) :
  relates R m → (∀ a, relates R (f a)) → relates R (m ≫= f).
Proof.
  intros Hm Hf st. specialize (Hm st). unfold mbind, M_bind.
  destruct (m st) as [a st1|e st1]; simpl in *; [|done].
  etrans; [exact Hm|apply Hf].
Qed.

Lemma relates_try_ignore (m : M unit) : relates R m → relates R (try_ignore m).
Proof.
  intros Hm st. specialize (Hm st). unfold try_ignore.
  by destruct (m st).
Qed.

Lemma relates_for_of {A} (xs : list A) (body : A → M unit) :
  (∀ x, relates R (body x)) → relates R (for_of xs body).
Proof.
  intros Hbody. induction xs as [|x xs IH]; simpl.
  - apply relates_ret.
  - apply relates_bind; [apply Hbody|by intros _].
Qed.
End relates.

(** Statements and file-system calls that do not touch [counters]. *)
Lemma counters_eq_modify_entries f : relates counters_eq (modify (set_entries f)).
Proof. by intros st type. Qed.
Lemma counters_eq_insert_entry now entryId type title description priority pageUrl
    pagePath userAgent :
  relates counters_eq
    (insert_entry now entryId type title description priority pageUrl pagePath userAgent).
Proof. intros st t. unfold insert_entry. by case_bool_decide. Qed.
Lemma counters_eq_insert_attachment now entryId filename originalName mimeType sizeBytes
    storageType blobData filePath :
  relates counters_eq
    (insert_attachment now entryId filename originalName mimeType sizeBytes storageType
       blobData filePath).
Proof. intros st t. unfold insert_attachment. by case_bool_decide. Qed.
Lemma counters_eq_delete_entries entryId : relates counters_eq (delete_entries entryId).
Proof. by intros st type. Qed.
Lemma counters_eq_delete_attachments id : relates counters_eq (delete_attachments id).
Proof. by intros st type. Qed.
Lemma counters_eq_unlinkSync p : relates counters_eq (unlinkSync p).
Proof. intros st type. unfold unlinkSync. by destruct (disk st !! p) as [[]|]. Qed.
Lemma counters_eq_rmSync p : relates counters_eq (rmSync_recursive_force p).
Proof. by intros st type. Qed.
Lemma counters_eq_mkdirSync p : relates counters_eq (mkdirSync_recursive p).
Proof.
  intros st type. unfold mkdirSync_recursive.
  destruct (decide (fits p)); [|done]. by destruct (disk st !! p) as [[]|].
Qed.
Lemma counters_eq_writeFileSync p data : relates counters_eq (writeFileSync p data).
Proof.
  intros st type. unfold writeFileSync.
  destruct (decide (fits p)); [|done]. by destruct (disk st !! p) as [[]|].
Qed.
Lemma counters_eq_existsSync p : relates counters_eq (existsSync p).
Proof. by intros st type. Qed.
Lemma counters_eq_readFileSync p : relates counters_eq (readFileSync p).
Proof. intros st type. unfold readFileSync. by destruct (disk st !! p) as [[]|]. Qed.

Create HintDb counters discriminated.
#[local] Hint Resolve counters_eq_modify_entries counters_eq_insert_entry
  counters_eq_insert_attachment counters_eq_delete_entries counters_eq_delete_attachments
  counters_eq_unlinkSync counters_eq_rmSync counters_eq_mkdirSync counters_eq_writeFileSync
  counters_eq_existsSync counters_eq_readFileSync : counters.

(** Walks through a computation, statement by statement. *)
Ltac step_relates :=
  repeat first
    [ apply relates_bind; [apply _..| |intros ?]
    | apply relates_ret; apply _
    | apply relates_gets; apply _
    | apply relates_throw; apply _
    | apply relates_try_ignore; [apply _..|]
    | apply relates_for_of; [apply _..|intros ?]
    | progress eauto with counters
    | match goal with
      | |- relates _ (match ?x with _ => _ end) => destruct x
      | |- relates _ (if ?b then _ else _) => destruct b
      end ].

Lemma getEntry_counters entryId : relates counters_eq (getEntry entryId).
Proof. unfold getEntry. step_relates. Qed.

Lemma listEntries_counters options : relates counters_eq (listEntries options).
Proof. unfold listEntries. step_relates. Qed.

Lemma updateEntry_counters now entryId dto : relates counters_eq (updateEntry now entryId dto).
Proof.
  unfold updateEntry, update_entries.
  pose proof getEntry_counters. step_relates.
Qed.

Lemma deleteEntry_counters uploadsDir entryId :
  relates counters_eq (deleteEntry uploadsDir entryId).
Proof. unfold deleteEntry. step_relates. Qed.

Lemma addAttachment_counters uploadsDir env randomPrefix now entryId file :
  relates counters_eq (addAttachment uploadsDir env randomPrefix now entryId file).
Proof. unfold addAttachment. step_relates. Qed.

Lemma getAttachment_counters id : relates counters_eq (getAttachment id).
Proof. unfold getAttachment. step_relates. Qed.

Lemma deleteAttachment_counters id : relates counters_eq (deleteAttachment id).
Proof. unfold deleteAttachment. step_relates. Qed.

Lemma getOpenCount_counters pagePath : relates counters_eq (getOpenCount pagePath).
Proof. unfold getOpenCount. step_relates. Qed.

Lemma exportAllEntries_counters : relates counters_eq exportAllEntries.
Proof. unfold exportAllEntries. step_relates. Qed.

Lemma getNextEntryId_counters type : relates counters_le (getNextEntryId type).
Proof.
  intros st t. rewrite getNextEntryId_eq. simpl.
  destruct (decide (type = t)) as [->|Hne].
  - rewrite fn_lookup_insert. lia.
  - rewrite fn_lookup_insert_ne by done. lia.
Qed.

Lemma createEntry_counters now dto : relates counters_le (createEntry now dto).
Proof.
  unfold createEntry.
  apply relates_bind; [apply _|apply getNextEntryId_counters|intros entryId].
  apply relates_bind; [apply _| |intros _].
  - intros st. apply counters_eq_le, counters_eq_insert_entry.
  - intros st. apply counters_eq_le, getEntry_counters.
Qed.

Lemma after_call_counters (uploadsDir : string) (c : Call) (st : Store) :
  counters_le st (after_call uploadsDir c st).
Proof.
  destruct c; simpl.
  - apply (getNextEntryId_counters type st).
  - apply counters_eq_le, (listEntries_counters options st).
  - apply counters_eq_le, (getEntry_counters entryId st).
  - apply (createEntry_counters now dto st).
  - apply counters_eq_le, (updateEntry_counters now entryId dto st).
  - apply counters_eq_le, (deleteEntry_counters uploadsDir entryId st).
  - apply counters_eq_le,
      (addAttachment_counters uploadsDir DEVLOG_STORAGE_TYPE randomPrefix now entryId file st).
  - apply counters_eq_le, (getAttachment_counters id st).
  - apply counters_eq_le, (deleteAttachment_counters id st).
  - apply counters_eq_le, (getOpenCount_counters pagePath st).
  - apply counters_eq_le, (exportAllEntries_counters st).
Qed.

Lemma after_calls_counters (uploadsDir : string) (calls : list Call) (st : Store) :
  counters_le st (after_calls uploadsDir calls st).
Proof.
  revert st. induction calls as [|c calls IH]; intros st; simpl.
  - reflexivity.
  - etrans; [apply (after_call_counters uploadsDir c)|apply IH].
Qed.

(** C9: no call of the store lowers or resets a counter: allocation adds
    one, [deleteEntry] leaves every counter as it is, and every other call
    leaves the counters as they are or raises them.  So the number an
    allocation returned is below the number any later allocation of that
    type returns, whatever calls come in between, and the identifiers
    differ; in particular the identifier of a created entry is not
    allocated again after the entry has been deleted.  The counter is taken
    to stay in the range that the number read from the database holds
    exactly. *)
Theorem sequence_numbers_never_reused
    (uploadsDir : string) (type : EntryType) (st : Store) (calls : list Call) :
  1 ≤ next_number st type →
  next_number (after_calls uploadsDir calls (final_store (getNextEntryId type st))) type
    ≤ MAX_SAFE_INTEGER →
  (∀ c st0, counters_le st0 (after_call uploadsDir c st0))
  ∧ (∀ entryId st0, counters_eq st0 (final_store (deleteEntry uploadsDir entryId st0)))
  ∧ (∀ t st0, next_number (final_store (getNextEntryId t st0)) t = next_number st0 t + 1)
  ∧ (∃ id1 st1 n1,
        getNextEntryId type st = Ok id1 st1
        ∧ numeric_suffix id1 = Some n1
        ∧ ∃ id2 st3 n2,
            getNextEntryId type (after_calls uploadsDir calls st1) = Ok id2 st3
            ∧ numeric_suffix id2 = Some n2
            ∧ n1 < n2
            ∧ id1 ≠ id2)
  ∧ (∀ now dto e st1,
        tables_inv st →
        CreateEntryDto.type dto = type →
        createEntry now dto st = Ok (Some e) st1 →
        ∃ id2 st3,
          getNextEntryId type
            (after_calls uploadsDir (calls ++ [call_deleteEntry (DevLogEntry.entryId e)]) st1)
          = Ok id2 st3
          ∧ id2 ≠ DevLogEntry.entryId e).
Proof.
  intros Hlow _.
  split; [apply after_call_counters|].
  split; [intros entryId st0; apply deleteEntry_counters|].
  split; [intros t st0; rewrite getNextEntryId_eq; simpl; by rewrite fn_lookup_insert|].
  split.
  - rewrite getNextEntryId_eq. simpl.
    set (st1 := {| entries := entries st; entries_seq := entries_seq st;
                   attachments := attachments st; attachments_seq := attachments_seq st;
                   next_number := <[type := next_number st type + 1]> (next_number st);
                   disk := disk st |}).
    pose proof (after_calls_counters uploadsDir calls st1 type) as Hmono.
    assert (Hnext : next_number st1 type = next_number st type + 1)
      by (simpl; by rewrite fn_lookup_insert).
    eexists _, st1, (next_number st type).
    split; [reflexivity|].
    split; [apply numeric_suffix_format; lia|].
    rewrite getNextEntryId_eq.
    eexists _, _, (next_number (after_calls uploadsDir calls st1) type).
    split; [reflexivity|].
    split; [apply numeric_suffix_format; lia|].
    split; [lia|].
    intros Heq. apply format_entry_id_inj in Heq as [_ Heq]; lia.
  - intros now dto e st1 Hinv <- Hcreate.
    rewrite createEntry_eq in Hcreate by done. injection Hcreate as <- <-.
    set (later := call_deleteEntry _).
    pose proof (after_calls_counters uploadsDir (calls ++ [later])
                  (created_store now dto st) (CreateEntryDto.type dto)) as Hmono.
    assert (Hnext : next_number (created_store now dto st) (CreateEntryDto.type dto)
                    = next_number st (CreateEntryDto.type dto) + 1)
      by (simpl; by rewrite fn_lookup_insert).
    rewrite getNextEntryId_eq. eexists _, _. split; [reflexivity|]. simpl.
    intros Heq. apply format_entry_id_inj in Heq as [_ Heq]; lia.
Qed.

Lemma sequence_numbers_never_reused_witness :
  ∃ id1 st1 n1,
    getNextEntryId bug_report getDb_initial = Ok id1 st1
    ∧ numeric_suffix id1 = Some n1
    ∧ ∃ id2 st3 n2,
        getNextEntryId bug_report (after_calls sample_uploads_dir create_then_delete st1)
        = Ok id2 st3
        ∧ numeric_suffix id2 = Some n2
        ∧ n1 < n2
        ∧ id1 ≠ id2.
Proof.
  apply (sequence_numbers_never_reused
           sample_uploads_dir bug_report getDb_initial create_then_delete).
  - simpl. lia.
  - vm_compute. discriminate.
Defined.

(** ** Paths below the uploads root *)

Lemma mentions_app (c : ascii) (s1 s2 : string) :
  mentions c (s1 +:+ s2) = mentions c s1 || mentions c s2.
Proof.
  induction s1 as [|c1 s1 IH]; [done|].
  rewrite string_app_cons. simpl. rewrite IH. by rewrite orb_assoc.
Qed.

Lemma path_join_nested (dir entryId filename : string) :
  path_join (path_join dir entryId) filename
  = path_join dir (entryId +:+ "/" +:+ filename).
Proof. unfold path_join. by rewrite !string_app_assoc. Qed.

Lemma path_join_inj (dir s1 s2 : string) : path_join dir s1 = path_join dir s2 → s1 = s2.
Proof. unfold path_join. intros Heq. by do 2 apply String.app_inj in Heq. Qed.

Lemma path_join_truthy (dir segment : string) : truthy (path_join dir segment) = true.
Proof. by destruct dir. Qed.

(** The directory of an entry is not a file inside a directory of some
    entry. *)
Lemma entry_dir_not_a_file_path (dir entryId entryId' filename : string) :
  is_segment entryId →
  path_join dir entryId ≠ path_join (path_join dir entryId') filename.
Proof.
  intros Hseg Heq. rewrite path_join_nested in Heq.
  apply path_join_inj in Heq. unfold is_segment in Hseg.
  rewrite Heq, !mentions_app in Hseg. simpl in Hseg.
  by rewrite orb_true_r in Hseg.
Qed.

Lemma path_join_proper (dir segment : string) : path_join dir segment ≠ dir.
Proof.
  unfold path_join. intros Heq.
  rewrite <- (string_app_nil_r dir) in Heq at 2.
  by apply String.app_inj in Heq.
Qed.

Lemma prefix_app (s t : string) : String.prefix s (s +:+ t) = true.
Proof.
  induction s as [|c s IH]; [by destruct t|].
  rewrite string_app_cons. simpl. by destruct (ascii_dec c c).
Qed.

Lemma is_below_path_join (dir segment : string) :
  is_below dir (path_join dir segment) = true.
Proof.
  unfold is_below, path_join. rewrite <- string_app_assoc. apply prefix_app.
Qed.

Lemma mentions_pretty_N_go (x : N) (s : string) :
  mentions "/"%char (pretty_N_go x s) = mentions "/"%char s.
Proof.
  revert s. induction (N.lt_wf_0 x) as [x _ IH]; intros s.
  destruct (decide (0 < x)%N) as [Hx|Hx].
  - rewrite pretty_N_go_step by done.
    rewrite IH by (apply N.div_lt; lia). simpl.
    assert (Hd : (x `mod` 10 < 10)%N) by (apply N.mod_lt; lia).
    revert Hd. generalize (x `mod` 10)%N. intros d Hd.
    assert (Hcases : d = 0%N ∨ d = 1%N ∨ d = 2%N ∨ d = 3%N ∨ d = 4%N ∨ d = 5%N
                     ∨ d = 6%N ∨ d = 7%N ∨ d = 8%N ∨ d = 9%N) by lia.
    destruct Hcases as [->|[->|[->|[->|[->|[->|[->|[->|[->| ->]]]]]]]]]; reflexivity.
  - assert (x = 0%N) as -> by lia. by rewrite pretty_N_go_0.
Qed.

(** An identifier made by the counter is one path segment. *)
Lemma format_entry_id_segment (type : EntryType) (num : Z) :
  0 ≤ num → is_segment (format_entry_id type num).
Proof.
  intros Hnum. unfold is_segment. rewrite format_entry_id_shape, !mentions_app.
  assert (mentions "/"%char (String_of_number num) = false) as ->.
  { destruct num as [|p|p]; [done| |lia].
    by rewrite String_of_number_pos, mentions_pretty_N_go. }
  assert (∀ k, mentions "/"%char (repeat_string "0" k) = false) as ->.
  { intros k. induction k as [|k IH]; [done|]. simpl. by rewrite mentions_app, IH. }
  by destruct type.
Qed.

Lemma entry_id_segment (st : Store) (entryId : string) :
  tables_inv st → entryId ∈ EntryRow.entry_id <$> entries st → is_segment entryId.
Proof.
  intros Hinv Hin. apply list_elem_of_fmap in Hin as (r & -> & Hr).
  destruct (inv_entry_ids st Hinv r Hr) as (num & Hnum & ->).
  apply format_entry_id_segment. lia.
Qed.

(** ** Reading an attachment *)

Lemma select_attachment_elem (id : Z) (st : Store) (row : AttachmentRow.t) :
  select_attachment id st = Some row → AttachmentRow.id row = id ∧ row ∈ attachments st.
Proof.
  unfold select_attachment. intros Hhead.
  apply head_Some_elem_of in Hhead. by apply list_elem_of_filter in Hhead.
Qed.

(** No directory sits at the path of a filesystem row. *)
Lemma row_path_not_dir (uploadsDir : string) (st : Store) (a : AttachmentRow.t) (p : string) :
  uploads_inv uploadsDir st →
  a ∈ attachments st →
  AttachmentRow.storage_type a = filesystem →
  AttachmentRow.file_path a = Some p →
  disk st !! p ≠ Some Dir.
Proof.
  intros Hinv Ha Hfs Hp Hdir.
  pose proof (inv_rows uploadsDir st Hinv a Ha) as Hrow.
  unfold row_as_written in Hrow. rewrite Hfs, Hp in Hrow. destruct Hrow as [_ [= ->]].
  destruct (inv_disk uploadsDir st Hinv _ _ Hdir) as (entryId & Hseg & Heq).
  symmetry in Heq. by apply entry_dir_not_a_file_path in Heq.
Qed.

Lemma getAttachment_filesystem (id : Z) (st : Store) (row : AttachmentRow.t) (p : string) :
  select_attachment id st = Some row →
  AttachmentRow.storage_type row = filesystem →
  AttachmentRow.file_path row = Some p →
  truthy p = true →
  disk st !! p ≠ Some Dir →
  getAttachment id st = Ok ((λ data, (mapAttachment row, data)) <$> file_content st p) st.
Proof.
  intros Hsel Hmode Hpath Htruthy Hnodir.
  unfold getAttachment, mbind, M_bind, gets. rewrite Hsel, Hmode, Hpath, Htruthy.
  unfold existsSync, readFileSync, file_content, gets, mret, M_ret.
  destruct (disk st !! p) as [[data|]|] eqn:Hdisk; [| done |].
  - rewrite bool_decide_eq_true_2 by done. cbv beta. by rewrite Hdisk.
  - rewrite bool_decide_eq_false_2; [done|]. by intros [? ?].
Qed.

Lemma getAttachment_blob (id : Z) (st : Store) (row : AttachmentRow.t) (data : Buffer) :
  select_attachment id st = Some row →
  AttachmentRow.storage_type row = blob →
  AttachmentRow.blob_data row = Some data →
  getAttachment id st = Ok (Some (mapAttachment row, data)) st.
Proof.
  intros Hsel Hmode Hblob.
  unfold getAttachment, mbind, M_bind, gets. by rewrite Hsel, Hmode, Hblob.
Qed.

Lemma getAttachment_no_row (id : Z) (st : Store) :
  select_attachment id st = None → getAttachment id st = Ok None st.
Proof. intros Hsel. unfold getAttachment, mbind, M_bind, gets. by rewrite Hsel. Qed.

(** C8: on a store that satisfies its invariants, [getAttachment] always
    returns and never throws.  It returns null exactly when no row has the
    id, or the row is a filesystem row whose file is not on disk; in every
    other case it returns the row's metadata with the bytes: the stored
    column of a blob row, the content of the file of a filesystem row. *)
Theorem getAttachment_null_iff_missing (uploadsDir : string) (st : Store) (id : Z) :
  store_inv uploadsDir st →
  ∃ result, getAttachment id st = Ok result st
    ∧ (result = None ↔
         select_attachment id st = None
         ∨ ∃ row p, select_attachment id st = Some row
                    ∧ AttachmentRow.storage_type row = filesystem
                    ∧ AttachmentRow.file_path row = Some p
                    ∧ disk st !! p = None)
    ∧ (∀ row, select_attachment id st = Some row →
         match AttachmentRow.storage_type row with
         | blob =>
             ∃ data, AttachmentRow.blob_data row = Some data
                     ∧ result = Some (mapAttachment row, data)
         | filesystem =>
             ∃ p, AttachmentRow.file_path row = Some p
                  ∧ result = (λ data, (mapAttachment row, data)) <$> file_content st p
         end).
Proof.
  intros [Htables Huploads].
  destruct (select_attachment id st) as [row|] eqn:Hsel.
  - pose proof Hsel as Hrow. apply select_attachment_elem in Hrow as [_ Hrow].
    pose proof (inv_rows uploadsDir st Huploads row Hrow) as Hwritten.
    unfold row_as_written in Hwritten.
    destruct (AttachmentRow.storage_type row) eqn:Hmode.
    + destruct Hwritten as [Hblob Hpath].
      pose proof (row_path_not_dir uploadsDir st row _ Huploads Hrow Hmode Hpath) as Hnodir.
      eexists. split.
      { eapply getAttachment_filesystem; eauto using path_join_truthy. }
      split.
      * unfold file_content.
        destruct (disk st !! _) as [[data|]|] eqn:Hdisk; simpl; [|done|].
        -- split; [done|]. intros [?|(row' & p & ? & _ & ? & ?)]; simplify_eq.
        -- split; [|done]. intros _. right. by eexists _, _.
      * intros ? [= <-]. rewrite Hmode. by eexists.
    + destruct Hwritten as [[data Hblob] Hpath].
      eexists. split; [by eapply getAttachment_blob|]. split.
      * split; [done|]. intros [?|(row' & p & ? & ? & _)]; congruence.
      * intros ? [= <-]. rewrite Hmode. by eexists.
  - eexists. split; [by apply getAttachment_no_row|]. split; [|done].
    split; [by left|done].
Qed.

(** ** Adding an attachment *)

Lemma mkdirSync_recursive_ok (p : string) (st : Store) :
  fits p →
  (∀ data, disk st !! p ≠ Some (File data)) →
  mkdirSync_recursive p st = Ok tt (set_disk (<[p := Dir]>) st).
Proof.
  intros Hfits Hfree. unfold mkdirSync_recursive. rewrite decide_True by done.
  destruct (disk st !! p) as [[data|]|] eqn:Hp; [by destruct (Hfree data)|done..].
Qed.

Lemma writeFileSync_ok (p : string) (data : Buffer) (st : Store) :
  fits p →
  disk st !! p ≠ Some Dir →
  writeFileSync p data st = Ok tt (set_disk (<[p := File data]>) st).
Proof.
  intros Hfits Hfree. unfold writeFileSync. rewrite decide_True by done.
  by destruct (disk st !! p) as [[?|]|] eqn:Hp.
Qed.

Lemma entry_dir_free (uploadsDir entryId : string) (st : Store) :
  store_inv uploadsDir st →
  entryId ∈ EntryRow.entry_id <$> entries st →
  ∀ data, disk st !! path_join uploadsDir entryId ≠ Some (File data).
Proof.
  intros [Htables Huploads] Hin data Hfile.
  destruct (inv_disk uploadsDir st Huploads _ _ Hfile) as (entryId' & filename & Heq).
  eapply entry_dir_not_a_file_path; [|exact Heq]. by eapply entry_id_segment.
Qed.

Lemma file_path_free (uploadsDir entryId filename : string) (st : Store) :
  store_inv uploadsDir st →
  disk st !! path_join (path_join uploadsDir entryId) filename ≠ Some Dir.
Proof.
  intros [Htables Huploads] Hdir.
  destruct (inv_disk uploadsDir st Huploads _ _ Hdir) as (entryId' & Hseg & Heq).
  symmetry in Heq. by eapply entry_dir_not_a_file_path.
Qed.

Lemma head_filter_snoc {A} (P : A → Prop) `{!∀ x, Decision (P x)} (l : list A) (x : A) :
  P x → is_Some (head (filter P (l ++ [x]))).
Proof.
  intros HP. rewrite filter_app, filter_cons_True by done.
  destruct (filter P l); simpl; eauto.
Qed.

Lemma head_filter_snoc_fresh {A} (P : A → Prop) `{!∀ x, Decision (P x)}
    (l : list A) (x : A) :
  (∀ y, y ∈ l → ¬ P y) → P x → head (filter P (l ++ [x])) = Some x.
Proof.
  intros Hfresh HP. rewrite filter_app, filter_cons_True by done.
  by rewrite filter_none.
Qed.

Lemma addAttachment_eq (uploadsDir : string) (env : option string)
    (randomPrefix now entryId : string) (file : UploadedFile.t) (st : Store) :
  store_inv uploadsDir st →
  entryId ∈ EntryRow.entry_id <$> entries st →
  upload_fits uploadsDir (getStorageType env) randomPrefix entryId file →
  ∃ row,
    addAttachment uploadsDir env randomPrefix now entryId file st
    = Ok (mapAttachment row)
         (added_store uploadsDir (getStorageType env) randomPrefix now entryId file st)
    ∧ (filename_unused entryId (generated_filename randomPrefix file) st →
       row = added_row uploadsDir (getStorageType env) randomPrefix now entryId file
               (attachments_seq st + 1)).
Proof.
  intros Hinv Hin. unfold addAttachment. cbv zeta.
  generalize (getStorageType env). intros mode Hfits.
  change (randomPrefix +:+ "-" +:+ safe_name (UploadedFile.name file))
    with (generated_filename randomPrefix file).
  set (filename := generated_filename randomPrefix file).
  set (new := added_row uploadsDir mode randomPrefix now entryId file
                (attachments_seq st + 1)).
  set (wanted := λ a, AttachmentRow.entry_id a = entryId
                      ∧ AttachmentRow.filename a = filename).
  assert (Hnew : wanted new) by (by split).
  destruct (head_filter_snoc wanted (attachments st) new Hnew) as [row Hrow].
  exists row. split.
  - unfold mbind at 1, M_bind at 1.
    assert (Hstmts :
      match mode with
      | filesystem =>
          _ ← mkdirSync_recursive (path_join uploadsDir entryId);
          _ ← writeFileSync (path_join (path_join uploadsDir entryId) filename)
                (UploadedFile.buffer file);
          insert_attachment now entryId filename (UploadedFile.name file)
            (UploadedFile.type file) (UploadedFile.size file) mode
            None (Some (path_join (path_join uploadsDir entryId) filename))
      | blob =>
          insert_attachment now entryId filename (UploadedFile.name file)
            (UploadedFile.type file) (UploadedFile.size file) mode
            (Some (UploadedFile.buffer file)) None
      end st
      = Ok tt (added_store uploadsDir mode randomPrefix now entryId file st)).
    { unfold added_store. subst new. unfold added_row. fold filename.
      destruct mode.
      - unfold mbind, M_bind. destruct Hfits as [Hdir Hfile].
        rewrite mkdirSync_recursive_ok; [|done|by apply entry_dir_free].
        rewrite writeFileSync_ok; [|done|].
        2:{ simpl. rewrite lookup_insert_ne by (symmetry; apply path_join_proper).
            by apply file_path_free. }
        unfold insert_attachment. simpl.
        by rewrite bool_decide_eq_true_2.
      - unfold insert_attachment. by rewrite bool_decide_eq_true_2. }
    rewrite Hstmts. unfold gets, mbind, M_bind.
    unfold added_store at 1. cbn [attachments]. fold new. fold wanted.
    by rewrite Hrow.
  - intros Hunused.
    rewrite head_filter_snoc_fresh in Hrow; [congruence| |done].
    intros a Ha. by apply Hunused.
Qed.

Lemma select_attachment_added (uploadsDir : string) (mode : StorageType)
    (randomPrefix now entryId : string) (file : UploadedFile.t) (st : Store) :
  tables_inv st →
  select_attachment (attachments_seq st + 1)
    (added_store uploadsDir mode randomPrefix now entryId file st)
  = Some (added_row uploadsDir mode randomPrefix now entryId file (attachments_seq st + 1)).
Proof.
  intros Hinv. unfold select_attachment, added_store. cbn [attachments].
  apply head_filter_snoc_fresh; [|done].
  intros a Ha Hid. pose proof (inv_attachment_seq st Hinv a Ha). lia.
Qed.

(** C7 (as amended): for an existing entry and a file whose stored name and
    path are within the limits of the file system (nothing is asked of the
    name in blob mode), [addAttachment] returns; the row it stores gets the
    next rowid, and [getAttachment] on that id returns the row's metadata
    with bytes identical to the input buffer, in blob mode (bytes kept in
    the row) and in filesystem mode (bytes kept in the file below the
    entry's directory).  The metadata [addAttachment] returns is that of
    the stored row when no attachment of the entry already carries the
    generated file name.  The random prefix holds no separator, as the
    base-36 digits of the code do. *)
Theorem addAttachment_getAttachment_round_trip
    (uploadsDir : string) (env : option string) (randomPrefix now entryId : string)
    (file : UploadedFile.t) (st : Store) :
  store_inv uploadsDir st →
  entryId ∈ EntryRow.entry_id <$> entries st →
  is_segment randomPrefix →
  upload_fits uploadsDir (getStorageType env) randomPrefix entryId file →
  ∃ returned_metadata st' stored,
    addAttachment uploadsDir env randomPrefix now entryId file st = Ok returned_metadata st'
    ∧ attachments st' = attachments st ++ [stored]
    ∧ AttachmentRow.id stored = attachments_seq st + 1
    ∧ AttachmentRow.entry_id stored = entryId
    ∧ (env = Some "blob" →
         AttachmentRow.storage_type stored = blob
         ∧ AttachmentRow.blob_data stored = Some (UploadedFile.buffer file)
         ∧ AttachmentRow.file_path stored = None)
    ∧ (env ≠ Some "blob" →
         AttachmentRow.storage_type stored = filesystem
         ∧ AttachmentRow.blob_data stored = None
         ∧ ∃ p, AttachmentRow.file_path stored = Some p
                ∧ disk st' !! p = Some (File (UploadedFile.buffer file)))
    ∧ getAttachment (AttachmentRow.id stored) st'
      = Ok (Some (mapAttachment stored, UploadedFile.buffer file)) st'
    ∧ (filename_unused entryId (generated_filename randomPrefix file) st →
       returned_metadata = mapAttachment stored).
Proof.
  intros Hinv Hin _ Hfits.
  destruct (addAttachment_eq uploadsDir env randomPrefix now entryId file st Hinv Hin
              Hfits) as (row & Hadd & Hrow).
  set (mode := getStorageType env) in *.
  set (stored := added_row uploadsDir mode randomPrefix now entryId file
                   (attachments_seq st + 1)) in *.
  exists (mapAttachment row),
         (added_store uploadsDir mode randomPrefix now entryId file st), stored.
  split; [exact Hadd|]. split; [done|]. split; [done|]. split; [done|].
  assert (Hsel := select_attachment_added uploadsDir mode randomPrefix now entryId file st
                    (proj1 Hinv)).
  fold stored in Hsel.
  split; [|split; [|split]].
  - intros ->. by subst stored mode.
  - intros Hfs. subst stored mode. unfold getStorageType. rewrite decide_False by done.
    split; [done|]. split; [done|]. eexists. split; [done|].
    simpl. apply lookup_insert_eq.
  - change (AttachmentRow.id stored) with (attachments_seq st + 1).
    destruct mode eqn:Hmode.
    + erewrite getAttachment_filesystem;
        [|exact Hsel|done|done|apply path_join_truthy|].
      * unfold file_content. simpl. by rewrite lookup_insert_eq.
      * simpl. by rewrite lookup_insert_eq.
    + by erewrite getAttachment_blob.
  - intros Hunused. by rewrite (Hrow Hunused).
Qed.

(** ** Deleting an entry *)

(** The loop over the attachment files only removes nodes. *)
Lemma unlink_loop_eq (paths : list (option string)) (st : Store) :
  ∃ disk',
    for_of paths
      (λ file_path,
         match file_path with
         | Some p => if truthy p then try_ignore (unlinkSync p) else mret tt
         | None => mret tt
         end) st
    = Ok tt (set_disk (λ _, disk') st)
    ∧ disk' ⊆ disk st.
Proof.
  revert st. induction paths as [|path paths IH]; intros st.
  - exists (disk st). split; [by destruct st|done].
  - simpl. unfold mbind, M_bind.
    assert (Hbody : ∃ disk1,
      match path with
      | Some p => if truthy p then try_ignore (unlinkSync p) else mret tt
      | None => mret tt
      end st = Ok tt (set_disk (λ _, disk1) st) ∧ disk1 ⊆ disk st).
    { destruct path as [p|]; [destruct (truthy p)|];
        try (exists (disk st); split; [by destruct st|done]).
      unfold try_ignore, unlinkSync.
      destruct (disk st !! p) as [[data|]|] eqn:Hp;
        try (exists (disk st); split; [by destruct st|done]).
      exists (delete p (disk st)). split; [done|apply delete_subseteq]. }
    destruct Hbody as (disk1 & -> & Hsub1).
    destruct (IH (set_disk (λ _, disk1) st)) as (disk2 & -> & Hsub2).
    exists disk2. split; [done|]. by etrans.
Qed.

Lemma deleteEntry_eq (uploadsDir entryId : string) (st : Store) :
  ∃ disk',
    deleteEntry uploadsDir entryId st
    = Ok (0 <? count_rows (filter (λ r, EntryRow.entry_id r = entryId) (entries st)))
         (deleted_store uploadsDir entryId disk' st)
    ∧ disk' ⊆ disk st.
Proof.
  unfold deleteEntry. unfold mbind at 1, M_bind at 1, gets at 1.
  unfold mbind at 1, M_bind at 1.
  destruct (unlink_loop_eq
              (AttachmentRow.file_path <$>
                 filter (λ a, AttachmentRow.entry_id a = entryId
                              ∧ AttachmentRow.storage_type a = filesystem)
                        (attachments st)) st)
    as (disk' & -> & Hsub).
  exists disk'. split; [done|exact Hsub].
Qed.

Lemma count_rows_positive {A} (rows : list A) : (0 <? count_rows rows) = true ↔ rows ≠ [].
Proof.
  unfold count_rows. destruct rows; simpl; [done|].
  split; [done|]. intros _. apply Z.ltb_lt. lia.
Qed.

Lemma entry_exists_filter (entryId : string) (rows : list EntryRow.t) :
  filter (λ r, EntryRow.entry_id r = entryId) rows ≠ []
  ↔ entryId ∈ EntryRow.entry_id <$> rows.
Proof.
  split.
  - intros Hne. destruct (filter _ rows) as [|r k] eqn:Hfilter; [done|].
    assert (Hr : r ∈ filter (λ r, EntryRow.entry_id r = entryId) rows)
      by (rewrite Hfilter; left).
    apply list_elem_of_filter in Hr as [<- Hr]. apply list_elem_of_fmap. eauto.
  - intros Hin Hnil. apply list_elem_of_fmap in Hin as (r & Heq & Hr).
    eapply filter_nil_not_elem_of; [exact Hnil| |exact Hr]. done.
Qed.

(** After the cascade no attachment of the entry is left. *)
Lemma cascade_removes_attachments (entryId : string) (st : Store) (a : AttachmentRow.t) :
  tables_inv st →
  a ∈ filter (λ a, AttachmentRow.entry_id a
                   ∉ EntryRow.entry_id <$>
                       filter (λ r, EntryRow.entry_id r = entryId) (entries st))
             (attachments st) →
  AttachmentRow.entry_id a ≠ entryId.
Proof.
  intros Hinv Ha Heq. apply list_elem_of_filter in Ha as [Hkept Ha].
  apply Hkept. pose proof (inv_foreign_key st Hinv a Ha) as Hfk.
  apply list_elem_of_fmap in Hfk as (r & Hr & Hin).
  apply list_elem_of_fmap. exists r. split; [done|].
  apply list_elem_of_filter. split; [congruence|done].
Qed.

Lemma NoDup_fmap_eq {A B} (f : A → B) (l : list A) (x y : A) :
  NoDup (f <$> l) → x ∈ l → y ∈ l → f x = f y → x = y.
Proof.
  induction l as [|z l IH]; intros Hnd Hx Hy Hf; [by apply elem_of_nil in Hx|].
  rewrite fmap_cons in Hnd. apply NoDup_cons in Hnd as [Hz Hnd].
  apply elem_of_cons in Hx as [->|Hx]; apply elem_of_cons in Hy as [->|Hy]; try done.
  - destruct Hz. rewrite Hf. apply list_elem_of_fmap. eauto.
  - destruct Hz. rewrite <- Hf. apply list_elem_of_fmap. eauto.
  - by apply IH.
Qed.

(** C6: [deleteEntry] returns, and returns true exactly when a row of
    [entries] carried the entryId.  Afterwards no entry row and no
    attachment row of the entryId is left; the file of every filesystem
    attachment of the entry is gone, and so are the entry's directory under
    the uploads root and all below it; [getEntry] on the entryId and
    [getAttachment] on the id of any former attachment of the entry return
    null. *)
Theorem deleteEntry_removes_entry_and_attachments
    (uploadsDir entryId : string) (st : Store) :
  store_inv uploadsDir st →
  ∃ removed st',
    deleteEntry uploadsDir entryId st = Ok removed st'
    ∧ (removed = true ↔ entryId ∈ EntryRow.entry_id <$> entries st)
    ∧ entries st' = filter (λ r, EntryRow.entry_id r ≠ entryId) (entries st)
    ∧ (∀ a, a ∈ attachments st' → AttachmentRow.entry_id a ≠ entryId)
    ∧ (∀ a p, a ∈ attachments st →
         AttachmentRow.entry_id a = entryId →
         AttachmentRow.storage_type a = filesystem →
         AttachmentRow.file_path a = Some p →
         disk st' !! p = None)
    ∧ disk st' !! path_join uploadsDir entryId = None
    ∧ (∀ q, is_below (path_join uploadsDir entryId) q = true → disk st' !! q = None)
    ∧ getEntry entryId st' = Ok None st'
    ∧ (∀ a, a ∈ attachments st →
         AttachmentRow.entry_id a = entryId →
         getAttachment (AttachmentRow.id a) st' = Ok None st').
Proof.
  intros [Htables Huploads].
  destruct (deleteEntry_eq uploadsDir entryId st) as (disk' & Hdel & Hsub).
  eexists _, _. split; [exact Hdel|].
  assert (Hbelow : ∀ q, is_below (path_join uploadsDir entryId) q = true →
                        disk (deleted_store uploadsDir entryId disk' st) !! q = None).
  { intros q Hq. simpl. apply map_lookup_filter_None. right.
    intros node _ [_ Hout]. simpl in Hout. congruence. }
  split; [by rewrite count_rows_positive, entry_exists_filter|].
  split; [done|].
  split; [intros a Ha; by eapply cascade_removes_attachments|].
  split.
  { intros a p Ha Hid Hmode Hpath.
    pose proof (inv_rows uploadsDir st Huploads a Ha) as Hrow.
    unfold row_as_written in Hrow. rewrite Hmode, Hpath, Hid in Hrow.
    destruct Hrow as [_ [= ->]]. apply Hbelow, is_below_path_join. }
  split.
  { simpl. apply map_lookup_filter_None. right. by intros node _ [Hne _]. }
  split; [exact Hbelow|].
  split.
  { rewrite getEntry_eq. unfold select_entry. simpl.
    rewrite filter_none; [done|].
    intros r Hr Heq. by apply list_elem_of_filter in Hr as [Hne _]. }
  intros a Ha Hid. apply getAttachment_no_row.
  unfold select_attachment. simpl. rewrite filter_none; [done|].
  intros a' Ha' Hsame.
  pose proof (cascade_removes_attachments entryId st a' Htables Ha') as Hother.
  apply list_elem_of_filter in Ha' as [_ Ha'].
  assert (a' = a) as ->; [|done].
  eapply (NoDup_fmap_eq AttachmentRow.id); [by apply inv_attachment_ids|done..].
Qed.

(** ** The invariants hold on every store the calls produce *)

Lemma store_inv_initial (uploadsDir : string) : store_inv uploadsDir getDb_initial.
Proof.
  split; [apply tables_inv_initial|].
  split; simpl.
  - intros a Ha. by apply elem_of_nil in Ha.
  - intros p node Hp. by rewrite lookup_empty in Hp.
Qed.

(** Rows and nodes may go; what stays keeps the invariants. *)
Lemma store_inv_shrink (uploadsDir : string) (st st' : Store) :
  store_inv uploadsDir st →
  entries st' = entries st →
  next_number st' = next_number st →
  attachments_seq st' = attachments_seq st →
  attachments st' `sublist_of` attachments st →
  disk st' ⊆ disk st →
  store_inv uploadsDir st'.
Proof.
  intros [Htables Huploads] Hentries Hcounters Hseq Hrows Hdisk.
  destruct Htables, Huploads.
  split; split; rewrite ?Hentries, ?Hcounters, ?Hseq; try done.
  - intros a Ha. eauto using elem_of_sublist.
  - eapply sublist_NoDup; [exact inv_attachment_ids0|]. by apply fmap_sublist.
  - intros a Ha. eauto using elem_of_sublist.
  - intros a Ha. eauto using elem_of_sublist.
  - intros p node Hp. eapply inv_disk0, lookup_weaken; eauto.
Qed.

(** Rewriting rows in place, keeping [entry_id] and [type]. *)
Lemma store_inv_update (uploadsDir : string) (g : EntryRow.t → EntryRow.t) (st : Store) :
  (∀ r, EntryRow.entry_id (g r) = EntryRow.entry_id r
        ∧ EntryRow.type (g r) = EntryRow.type r) →
  store_inv uploadsDir st →
  store_inv uploadsDir (set_entries (fmap g) st).
Proof.
  intros Hg [Htables Huploads].
  assert (Hids : EntryRow.entry_id <$> (g <$> entries st) = EntryRow.entry_id <$> entries st).
  { rewrite <- list_fmap_compose. apply list_fmap_ext. intros _ r _. simpl. apply Hg. }
  destruct Htables, Huploads.
  split; split; simpl; rewrite ?Hids; try done.
  intros r' Hr'. apply list_elem_of_fmap in Hr' as (r & -> & Hr).
  destruct (Hg r) as [-> ->]. by apply inv_entry_ids0.
Qed.

Lemma store_inv_getNextEntryId (uploadsDir : string) (type : EntryType) (st : Store) :
  store_inv uploadsDir st →
  store_inv uploadsDir (final_store (getNextEntryId type st)).
Proof.
  intros [Htables Huploads]. rewrite getNextEntryId_eq. simpl.
  pose proof (getNextEntryId_counters type st) as Hmono.
  rewrite getNextEntryId_eq in Hmono. simpl in Hmono.
  destruct Htables, Huploads.
  split; split; simpl; try done.
  - intros t. specialize (Hmono t). specialize (inv_counters0 t). simpl in Hmono. lia.
  - intros r Hr. destruct (inv_entry_ids0 r Hr) as (num & Hnum & Hid).
    exists num. split; [|done].
    specialize (Hmono (EntryRow.type r)). simpl in Hmono. lia.
Qed.

Lemma store_inv_created (uploadsDir now : string) (dto : CreateEntryDto.t) (st : Store) :
  store_inv uploadsDir st →
  store_inv uploadsDir (created_store now dto st).
Proof.
  intros [Htables Huploads].
  pose proof (fresh_entry_id st (CreateEntryDto.type dto) Htables) as Hfresh.
  pose proof (store_inv_getNextEntryId uploadsDir (CreateEntryDto.type dto) st
                (conj Htables Huploads)) as [Hbumped _].
  rewrite getNextEntryId_eq in Hbumped. simpl in Hbumped.
  pose proof (inv_counters st Htables (CreateEntryDto.type dto)) as Hlow.
  destruct Hbumped, Htables, Huploads.
  split; split; simpl in *; try done.
  - intros r Hr. apply elem_of_app in Hr as [Hr|Hr]; [by apply inv_entry_ids0|].
    apply list_elem_of_singleton in Hr as ->. simpl.
    exists (next_number st (CreateEntryDto.type dto)).
    rewrite fn_lookup_insert. split; [lia|done].
  - rewrite fmap_app. apply NoDup_app. split; [done|]. split; [|apply NoDup_singleton].
    intros x Hx Hx'. apply list_elem_of_singleton in Hx'. simpl in Hx'. by subst x.
  - intros a Ha. rewrite fmap_app. apply elem_of_app. left. by apply inv_foreign_key1.
Qed.

Lemma store_inv_added (uploadsDir : string) (mode : StorageType)
    (randomPrefix now entryId : string) (file : UploadedFile.t) (st : Store) :
  store_inv uploadsDir st →
  entryId ∈ EntryRow.entry_id <$> entries st →
  store_inv uploadsDir (added_store uploadsDir mode randomPrefix now entryId file st).
Proof.
  intros [Htables Huploads] Hin.
  pose proof (entry_id_segment st entryId Htables Hin) as Hseg.
  destruct Htables, Huploads.
  split; split; simpl; try done.
  - intros a Ha. apply elem_of_app in Ha as [Ha|Ha]; [by apply inv_foreign_key0|].
    by apply list_elem_of_singleton in Ha as ->.
  - rewrite fmap_app. apply NoDup_app. split; [done|]. split; [|apply NoDup_singleton].
    intros x Hx Hx'. apply list_elem_of_singleton in Hx'. simpl in Hx'. subst x.
    apply list_elem_of_fmap in Hx as (a & Heq & Ha).
    specialize (inv_attachment_seq0 a Ha). lia.
  - intros a Ha. apply elem_of_app in Ha as [Ha|Ha].
    + specialize (inv_attachment_seq0 a Ha). lia.
    + apply list_elem_of_singleton in Ha as ->. simpl. lia.
  - intros a Ha. apply elem_of_app in Ha as [Ha|Ha]; [by apply inv_rows0|].
    apply list_elem_of_singleton in Ha as ->.
    unfold row_as_written. simpl. destruct mode; eauto.
  - intros p node Hp. destruct mode; [|by apply inv_disk0].
    apply lookup_insert_Some in Hp as [[<- <-]|[_ Hp]]; [simpl; eauto|].
    apply lookup_insert_Some in Hp as [[<- <-]|[_ Hp]]; [simpl; eauto|].
    by apply inv_disk0.
Qed.

Lemma store_inv_mkdir (uploadsDir entryId : string) (st : Store) :
  store_inv uploadsDir st →
  entryId ∈ EntryRow.entry_id <$> entries st →
  store_inv uploadsDir (set_disk (<[path_join uploadsDir entryId := Dir]>) st).
Proof.
  intros [Htables Huploads] Hin.
  pose proof (entry_id_segment st entryId Htables Hin) as Hseg.
  destruct Htables, Huploads.
  split; split; simpl; try done.
  intros p node Hp.
  apply lookup_insert_Some in Hp as [[<- <-]|[_ Hp]]; [simpl; eauto|].
  by apply inv_disk0.
Qed.

(** A name beyond the limits of the file system: [addAttachment] throws in
    filesystem mode, at [mkdirSync] or, the directory made, at
    [writeFileSync]; no row is inserted. *)
Lemma addAttachment_too_long (uploadsDir : string) (env : option string)
    (randomPrefix now entryId : string) (file : UploadedFile.t) (st : Store) :
  store_inv uploadsDir st →
  entryId ∈ EntryRow.entry_id <$> entries st →
  ¬ upload_fits uploadsDir (getStorageType env) randomPrefix entryId file →
  addAttachment uploadsDir env randomPrefix now entryId file st
  = Throw ENAMETOOLONG
      (if decide (fits (path_join uploadsDir entryId))
       then set_disk (<[path_join uploadsDir entryId := Dir]>) st else st).
Proof.
  intros Hinv Hin. unfold addAttachment. cbv zeta.
  change (randomPrefix +:+ "-" +:+ safe_name (UploadedFile.name file))
    with (generated_filename randomPrefix file).
  destruct (getStorageType env); simpl; [|by intros []].
  intros Hlong. unfold mbind, M_bind.
  destruct (decide (fits (path_join uploadsDir entryId))) as [Hdir|Hdir].
  - rewrite mkdirSync_recursive_ok; [|done|by apply entry_dir_free].
    unfold writeFileSync. rewrite decide_False; [done|].
    intros Hfile. by apply Hlong.
  - unfold mkdirSync_recursive. by rewrite decide_False.
Qed.

Lemma addAttachment_final (uploadsDir : string) (env : option string)
    (randomPrefix now entryId : string) (file : UploadedFile.t) (st : Store) :
  store_inv uploadsDir st →
  entryId ∈ EntryRow.entry_id <$> entries st →
  store_inv uploadsDir
    (final_store (addAttachment uploadsDir env randomPrefix now entryId file st))
  ∧ entries (final_store (addAttachment uploadsDir env randomPrefix now entryId file st))
    = entries st.
Proof.
  intros Hinv Hin.
  destruct (decide (upload_fits uploadsDir (getStorageType env) randomPrefix entryId file))
    as [Hfits|Hlong].
  - destruct (addAttachment_eq uploadsDir env randomPrefix now entryId file st Hinv Hin
                Hfits) as (row & -> & _).
    split; [by apply store_inv_added|done].
  - rewrite addAttachment_too_long by done. simpl.
    destruct (decide (fits (path_join uploadsDir entryId))); [|done].
    split; [by apply store_inv_mkdir|done].
Qed.

Lemma store_inv_deleted (uploadsDir entryId : string) (disk' : gmap string Node)
    (st : Store) :
  store_inv uploadsDir st →
  disk' ⊆ disk st →
  store_inv uploadsDir (deleted_store uploadsDir entryId disk' st).
Proof.
  intros [Htables Huploads] Hsub.
  pose proof (cascade_removes_attachments entryId st) as Hcascade.
  destruct Htables, Huploads.
  split; split; simpl.
  - done.
  - intros r Hr. apply list_elem_of_filter in Hr as [_ Hr]. by apply inv_entry_ids0.
  - eapply sublist_NoDup; [exact inv_entry_unique0|]. apply fmap_sublist, sublist_filter.
  - intros a Ha. pose proof (Hcascade a ltac:(by split) Ha) as Hother.
    apply list_elem_of_filter in Ha as [_ Ha].
    pose proof (inv_foreign_key0 a Ha) as Hfk.
    apply list_elem_of_fmap in Hfk as (r & Heq & Hr).
    apply list_elem_of_fmap. exists r. split; [done|].
    apply list_elem_of_filter. split; [congruence|done].
  - eapply sublist_NoDup; [exact inv_attachment_ids0|]. apply fmap_sublist, sublist_filter.
  - intros a Ha. apply list_elem_of_filter in Ha as [_ Ha]. by apply inv_attachment_seq0.
  - intros a Ha. apply list_elem_of_filter in Ha as [_ Ha]. by apply inv_rows0.
  - intros p node Hp. apply map_lookup_filter_Some in Hp as [Hp _].
    eapply inv_disk0, lookup_weaken; eauto.
Qed.

Lemma set_entries_id (st : Store) : set_entries (fmap id) st = st.
Proof. destruct st. unfold set_entries. simpl. by rewrite list_fmap_id. Qed.

Lemma updateEntry_final (now entryId : string) (dto : UpdateEntryDto.t) (st : Store) :
  ∃ g, (∀ r, EntryRow.entry_id (g r) = EntryRow.entry_id r
             ∧ EntryRow.type (g r) = EntryRow.type r)
       ∧ final_store (updateEntry now entryId dto st) = set_entries (fmap g) st.
Proof.
  destruct (select_entry entryId st) as [row|] eqn:Hrow.
  - unfold updateEntry. unfold mbind at 1, M_bind at 1. rewrite getEntry_eq, Hrow. simpl.
    unfold mbind, M_bind, update_entries, modify. rewrite getEntry_eq. simpl.
    eexists. split; [|reflexivity].
    intros r. simpl. case_decide; [|done].
    destruct dto as [[?|] [?|] [?|] [?|]]; done.
  - exists id. split; [done|].
    by rewrite updateEntry_not_found, set_entries_id.
Qed.

Lemma getAttachment_final (id : Z) (st : Store) : final_store (getAttachment id st) = st.
Proof.
  unfold getAttachment, mbind, M_bind, gets.
  destruct (select_attachment id st) as [row|]; [|done].
  destruct (AttachmentRow.storage_type row), (AttachmentRow.blob_data row),
    (AttachmentRow.file_path row) as [p|]; try done;
    destruct (truthy p); try done;
    unfold existsSync, readFileSync, gets;
    destruct (disk st !! p) as [[?|]|] eqn:Hp;
    rewrite ?bool_decide_eq_true_2, ?bool_decide_eq_false_2 by (by rewrite ?is_Some_alt);
    cbv beta; rewrite ?Hp; done.
Qed.

Lemma deleteAttachment_final (id : Z) (st : Store) :
  ∃ st', final_store (deleteAttachment id st) = st'
    ∧ entries st' = entries st
    ∧ next_number st' = next_number st
    ∧ attachments_seq st' = attachments_seq st
    ∧ attachments st' `sublist_of` attachments st
    ∧ disk st' ⊆ disk st.
Proof.
  unfold deleteAttachment. unfold mbind at 1, M_bind at 1, gets.
  destruct (select_attachment id st) as [row|]; [|by exists st].
  unfold mbind at 1, M_bind at 1.
  assert (Hunlink : ∃ disk',
    match AttachmentRow.storage_type row, AttachmentRow.file_path row with
    | filesystem, Some p => if truthy p then try_ignore (unlinkSync p) else mret tt
    | _, _ => mret tt
    end st = Ok tt (set_disk (λ _, disk') st) ∧ disk' ⊆ disk st).
  { destruct (AttachmentRow.storage_type row), (AttachmentRow.file_path row) as [p|];
      try (exists (disk st); split; [by destruct st|done]).
    destruct (truthy p); [|exists (disk st); split; [by destruct st|done]].
    unfold try_ignore, unlinkSync.
    destruct (disk st !! p) as [[data|]|] eqn:Hp;
      try (exists (disk st); split; [by destruct st|done]).
    exists (delete p (disk st)). split; [done|apply delete_subseteq]. }
  destruct Hunlink as (disk' & -> & Hsub).
  eexists. split; [reflexivity|]. simpl.
  repeat split; try done. apply sublist_filter.
Qed.

Lemma store_inv_after_call (uploadsDir : string) (c : Call) (st : Store) :
  store_inv uploadsDir st →
  call_permitted c st →
  store_inv uploadsDir (after_call uploadsDir c st).
Proof.
  intros Hinv Hok. destruct c; cbn [after_call].
  - by apply store_inv_getNextEntryId.
  - by rewrite listEntries_final.
  - by rewrite getEntry_eq.
  - rewrite createEntry_eq by apply Hinv. by apply store_inv_created.
  - destruct (updateEntry_final now entryId dto st) as (g & Hg & ->).
    by apply store_inv_update.
  - destruct (deleteEntry_eq uploadsDir entryId st) as (disk' & -> & Hsub).
    by apply store_inv_deleted.
  - by apply addAttachment_final.
  - by rewrite getAttachment_final.
  - destruct (deleteAttachment_final id st) as (st' & -> & ? & ? & ? & ? & ?).
    by eapply store_inv_shrink.
  - unfold getOpenCount. by destruct (truthy_opt pagePath).
  - done.
Qed.

(** Every reachable store satisfies the invariants. *)
Theorem reachable_store_inv (uploadsDir : string) (st : Store) :
  reachable uploadsDir st → store_inv uploadsDir st.
Proof.
  induction 1 as [|c st _ IH Hok|p st _ IH].
  - apply store_inv_initial.
  - by apply store_inv_after_call.
  - eapply store_inv_shrink; [exact IH|done..|]. apply delete_subseteq.
Qed.

(** ** The sample stores are reachable *)

Lemma store_one_bug_reachable : reachable sample_uploads_dir store_one_bug.
Proof.
  apply (reachable_call sample_uploads_dir
           (call_createEntry "2026-01-01 00:00:00" sample_bug) getDb_initial);
    [apply reachable_initial|exact I].
Qed.

Lemma store_one_bug_entry : "BUG-001" ∈ EntryRow.entry_id <$> entries store_one_bug.
Proof. vm_compute. left. Qed.

Lemma store_with_upload_inv (env : option string) :
  store_inv sample_uploads_dir (store_with_upload env).
Proof.
  apply reachable_store_inv. unfold store_with_upload.
  apply reachable_call; [apply store_one_bug_reachable|apply store_one_bug_entry].
Qed.

Lemma store_with_upload_reachable (env : option string) :
  reachable sample_uploads_dir (store_with_upload env).
Proof.
  unfold store_with_upload.
  apply reachable_call; [apply store_one_bug_reachable|apply store_one_bug_entry].
Qed.

Lemma store_with_two_uploads_reachable (env : option string) :
  reachable sample_uploads_dir (store_with_two_uploads env).
Proof.
  unfold store_with_two_uploads, store_with_upload.
  apply reachable_call.
  - apply reachable_call; [apply store_one_bug_reachable|apply store_one_bug_entry].
  - destruct (addAttachment_final sample_uploads_dir env "k3x9qa" "2026-01-01 00:00:07"
                "BUG-001" sample_upload store_one_bug) as [_ Heq].
    + apply reachable_store_inv, store_one_bug_reachable.
    + apply store_one_bug_entry.
    + cbn [call_permitted after_call]. rewrite Heq. apply store_one_bug_entry.
Qed.

Lemma store_two_entries_reachable (env : option string) :
  reachable sample_uploads_dir (store_two_entries env).
Proof.
  unfold store_two_entries.
  apply reachable_call; [apply store_with_upload_reachable|exact I].
Qed.

Lemma getAttachment_null_iff_missing_witness :
  ∃ result,
    getAttachment 1 (store_with_upload None) = Ok result (store_with_upload None)
    ∧ (result = None ↔
         select_attachment 1 (store_with_upload None) = None
         ∨ ∃ row p, select_attachment 1 (store_with_upload None) = Some row
                    ∧ AttachmentRow.storage_type row = filesystem
                    ∧ AttachmentRow.file_path row = Some p
                    ∧ disk (store_with_upload None) !! p = None)
    ∧ (∀ row, select_attachment 1 (store_with_upload None) = Some row →
         match AttachmentRow.storage_type row with
         | blob =>
             ∃ data, AttachmentRow.blob_data row = Some data
                     ∧ result = Some (mapAttachment row, data)
         | filesystem =>
             ∃ p, AttachmentRow.file_path row = Some p
                  ∧ result = (λ data, (mapAttachment row, data))
                               <$> file_content (store_with_upload None) p
         end).
Proof.
  apply (getAttachment_null_iff_missing sample_uploads_dir (store_with_upload None) 1).
  apply store_with_upload_inv.
Defined.

Lemma addAttachment_getAttachment_round_trip_witness :
  ∃ returned_metadata st' stored,
    addAttachment sample_uploads_dir None "p0o9i8" "2026-01-01 00:00:09"
      "BUG-001" sample_upload (store_with_upload None) = Ok returned_metadata st'
    ∧ AttachmentRow.id stored = 2
    ∧ getAttachment (AttachmentRow.id stored) st'
      = Ok (Some (mapAttachment stored, UploadedFile.buffer sample_upload)) st'.
Proof.
  destruct (addAttachment_getAttachment_round_trip
              sample_uploads_dir None "p0o9i8" "2026-01-01 00:00:09" "BUG-001"
              sample_upload (store_with_upload None))
    as (md & st' & stored & Hadd & _ & Hid & _ & _ & _ & Hget & _).
  - apply store_with_upload_inv.
  - vm_compute. left.
  - reflexivity.
  - by_evaluation.
  - exists md, st', stored. split; [exact Hadd|]. split; [exact Hid|exact Hget].
Defined.

(** C7, as stated, fails in filesystem mode: the stored name of a file
    whose name has 249 bytes has 256, and [addAttachment] throws where the
    file is written; no attachment is stored, while blob mode stores the
    same file. *)
Lemma addAttachment_long_name_throws :
  returned (addAttachment sample_uploads_dir None "k3x9qa" "2026-01-01 00:00:07"
              "BUG-001" sample_long_upload store_one_bug) = None
  ∧ attachments
      (final_store (addAttachment sample_uploads_dir None "k3x9qa" "2026-01-01 00:00:07"
                      "BUG-001" sample_long_upload store_one_bug)) = []
  ∧ Attachment.id <$>
      returned (addAttachment sample_uploads_dir (Some "blob") "k3x9qa"
                  "2026-01-01 00:00:07" "BUG-001" sample_long_upload store_one_bug)
    = Some 1.
Proof. split; [|split]; vm_compute; reflexivity. Qed.

Lemma deleteEntry_removes_entry_and_attachments_witness :
  ∃ removed st',
    deleteEntry sample_uploads_dir "BUG-001" (store_with_upload None) = Ok removed st'
    ∧ (removed = true ↔ "BUG-001" ∈ EntryRow.entry_id <$> entries (store_with_upload None))
    ∧ disk st' !! path_join sample_uploads_dir "BUG-001" = None
    ∧ getEntry "BUG-001" st' = Ok None st'.
Proof.
  destruct (deleteEntry_removes_entry_and_attachments
              sample_uploads_dir "BUG-001" (store_with_upload None))
    as (removed & st' & Hdel & Hret & _ & _ & _ & Hdir & _ & Hget & _).
  - apply store_with_upload_inv.
  - exists removed, st'. split; [exact Hdel|]. split; [exact Hret|]. split; [exact Hdir|exact Hget].
Defined.

(** What a clash of generated file names does: the second upload to the
    entry gets the same random prefix and name as the first.  Its row is
    stored under id 2 and holds its bytes, but the lookup by entry and file
    name finds the older row, so the metadata returned carries id 1. *)
Example addAttachment_same_filename_twice :
  let st := store_with_upload (Some "blob") in
  Attachment.id <$>
    returned (addAttachment sample_uploads_dir (Some "blob") "k3x9qa" "2026-01-01 00:00:09"
                "BUG-001" sample_upload st)
  = Some 1.
Proof. vm_compute. reflexivity. Qed.

(** * Further properties of the layer and its routes *)

(** ** What [listEntries] returns *)


Lemma elem_of_List_filter {A} (f : A → bool) (l : list A) (x : A) :
  x ∈ List.filter f l ↔ x ∈ l ∧ f x = true.
Proof. rewrite !list_elem_of_In. apply List.filter_In. Qed.

Lemma head_filter_unique {A B} `{EqDecision B} (f : A → B) (l : list A) (x : A) :
  NoDup (f <$> l) → x ∈ l → head (filter (λ y, f y = f x) l) = Some x.
Proof.
  induction l as [|y l IH]; intros Hnd Hx; [by apply elem_of_nil in Hx|].
  rewrite filter_cons. destruct (decide (f y = f x)) as [Heq|Hne].
  - simpl. f_equal. eapply (NoDup_fmap_eq f); [exact Hnd|left|exact Hx|exact Heq].
  - rewrite fmap_cons in Hnd. apply NoDup_cons in Hnd as [_ Hnd].
    apply elem_of_cons in Hx as [->|Hx]; [done|]. by apply IH.
Qed.

(** X1: when the entries that pass the supplied filters are within the
    parameter limit of the attachments query, [listEntries] returns exactly
    those entries.  Every returned entry is on the given page (when a
    non-empty page path is given), has the given type (when one is given)
    and is incomplete unless completed entries are asked for; every row
    that passes the filters is returned; and [total] is the number of
    returned entries, which is the number of such rows.  When more entries
    pass the filters, [listEntries] throws and leaves the store as it
    was. *)
Theorem listEntries_returns_the_matching_entries (options : ListOptions.t) (st : Store) :
  if decide (within_variable_limit options st) then
    ∃ r, listEntries options st = Ok r st
      ∧ (∀ e, e ∈ ListResult.entries r →
           admits (or_null (ListOptions.pagePath options)) (DevLogEntry.pagePath e) = true
           ∧ admits (ListOptions.type options) (DevLogEntry.type e) = true
           ∧ (default false (ListOptions.includeComplete options) = false →
              DevLogEntry.isComplete e = false))
      ∧ (∀ row, row ∈ entries st → passes_filters options row = true →
           ∃ e, e ∈ ListResult.entries r
                ∧ DevLogEntry.entryId e = EntryRow.entry_id row
                ∧ DevLogEntry.id e = EntryRow.id row)
      ∧ ListResult.total r = Z.of_nat (length (ListResult.entries r))
      ∧ ListResult.total r
        = count_rows (List.filter (passes_filters options) (entries st))
  else listEntries options st = Throw SQLITE_ERROR st.
Proof.
  destruct (decide (within_variable_limit options st)) as [Hlimit|Hmany];
    [|by apply listEntries_too_many].
  eexists. split; [by apply listEntries_eq|]. simpl.
  split; [|split; [|split]].
  - intros e He. apply list_elem_of_fmap in He as (row & -> & Hrow).
    rewrite order_by_desc_perm in Hrow.
    apply elem_of_List_filter in Hrow as [_ Hpass]. simpl.
    unfold passes_filters in Hpass.
    apply andb_true_iff in Hpass as [Hpass Hcomplete].
    apply andb_true_iff in Hpass as [Hpage Htype].
    split; [done|]. split; [done|].
    intros Hic. rewrite Hic in Hcomplete. simpl in Hcomplete.
    unfold is_open in Hcomplete. apply Z.eqb_eq in Hcomplete.
    rewrite Hcomplete. done.
  - intros row Hrow Hpass.
    exists (mapEntry row
              (mapAttachment <$> select_attachments_of (EntryRow.entry_id row) st)).
    split; [|done].
    apply list_elem_of_fmap. exists row. split; [done|].
    rewrite order_by_desc_perm. by apply elem_of_List_filter.
  - by rewrite length_fmap.
  - unfold count_rows. by rewrite order_by_desc_perm.
Qed.

(** X2: when [listEntries] returns (the entries that pass the filters are
    within the parameter limit of the attachments query), the entries are
    ordered newest first by createdAt, and the attachments of each returned
    entry are those of the entry in the [attachments] table, none missing
    and none twice, ordered oldest first by createdAt. *)
Theorem listEntries_order_and_attachments (options : ListOptions.t) (st : Store) :
  within_variable_limit options st →
  ∃ r, listEntries options st = Ok r st
    ∧ StronglySorted newest_first (ListResult.entries r)
    ∧ ∀ e, e ∈ ListResult.entries r →
        DevLogEntry.attachments e
        ≡ₚ mapAttachment <$> attachment_rows_of (DevLogEntry.entryId e) st
        ∧ StronglySorted oldest_first (DevLogEntry.attachments e).
Proof.
  intros Hlimit.
  eexists. split; [by apply listEntries_eq|]. simpl. split.
  - eapply StronglySorted_fmap; [|apply order_by_desc_sorted].
    intros x y Hxy. exact Hxy.
  - intros e He. apply list_elem_of_fmap in He as (row & -> & Hrow). simpl. split.
    + unfold select_attachments_of, attachment_rows_of. by rewrite order_by_asc_perm.
    + eapply StronglySorted_fmap; [|apply order_by_asc_sorted].
      intros x y Hxy. exact Hxy.
Qed.

Lemma listEntries_order_and_attachments_witness :
  ∃ r, listEntries {| ListOptions.pagePath := Some "/a";
                      ListOptions.type := None;
                      ListOptions.includeComplete := None |} (store_with_two_uploads None)
       = Ok r (store_with_two_uploads None)
    ∧ StronglySorted newest_first (ListResult.entries r)
    ∧ ∀ e, e ∈ ListResult.entries r →
        DevLogEntry.attachments e
        ≡ₚ mapAttachment <$>
             attachment_rows_of (DevLogEntry.entryId e) (store_with_two_uploads None)
        ∧ StronglySorted oldest_first (DevLogEntry.attachments e).
Proof.
  apply (listEntries_order_and_attachments
           {| ListOptions.pagePath := Some "/a";
              ListOptions.type := None;
              ListOptions.includeComplete := None |} (store_with_two_uploads None)).
  vm_compute. discriminate.
Defined.

(** ** [getEntry], [exportAllEntries] and how they agree with [listEntries] *)

Lemma filter_all {A} (P : A → Prop) `{!∀ x, Decision (P x)} (l : list A) :
  (∀ x, x ∈ l → P x) → filter P l = l.
Proof.
  induction l as [|x l IH]; intros Hall; [done|].
  rewrite filter_cons_True by (apply Hall; left).
  f_equal. apply IH. intros y Hy. apply Hall. by right.
Qed.

Lemma List_filter_all {A} (f : A → bool) (l : list A) :
  (∀ x, f x = true) → List.filter f l = l.
Proof.
  intros Hall. induction l as [|x l IH]; [done|]. simpl. by rewrite Hall, IH.
Qed.

(** X3: [getEntry] returns null exactly when no row of [entries] carries
    the entryId.  Otherwise it returns the first such row with the entryId
    asked for, and with the attachments of that entry, none missing and
    none twice, ordered oldest first by createdAt.  The store is left as
    it was. *)
Theorem getEntry_returns_the_entry_with_its_attachments (entryId : string) (st : Store) :
  ∃ result, getEntry entryId st = Ok result st
    ∧ (result = None ↔ entryId ∉ EntryRow.entry_id <$> entries st)
    ∧ ∀ e, result = Some e →
        DevLogEntry.entryId e = entryId
        ∧ (∃ row, row ∈ entries st ∧ e = mapEntry row (DevLogEntry.attachments e))
        ∧ DevLogEntry.attachments e ≡ₚ mapAttachment <$> attachment_rows_of entryId st
        ∧ StronglySorted oldest_first (DevLogEntry.attachments e).
Proof.
  eexists. split; [apply getEntry_eq|].
  destruct (select_entry entryId st) as [row|] eqn:Hrow; simpl.
  - apply select_entry_entry_id in Hrow as [Hid Hin]. split.
    + split; [done|]. intros Hnot. destruct Hnot. apply list_elem_of_fmap. eauto.
    + intros e [= <-]. simpl. split; [done|]. split; [eauto|]. split.
      * unfold select_attachments_of, attachment_rows_of.
        by rewrite order_by_asc_perm.
      * eapply StronglySorted_fmap; [|apply order_by_asc_sorted].
        intros x y Hxy. exact Hxy.
  - split; [|done]. split; [|done]. intros _ Hin.
    apply entry_exists_filter in Hin. unfold select_entry in Hrow.
    by destruct (filter _ (entries st)).
Qed.

(** X4: on a store that satisfies the invariants of its tables, every entry
    [listEntries] returns is the entry [getEntry] returns for its entryId:
    the same row with the same attachments in the same order. *)
Theorem listEntries_agrees_with_getEntry (options : ListOptions.t) (st : Store) :
  tables_inv st →
  within_variable_limit options st →
  ∃ r, listEntries options st = Ok r st
    ∧ ∀ e, e ∈ ListResult.entries r →
        getEntry (DevLogEntry.entryId e) st = Ok (Some e) st.
Proof.
  intros Hinv Hlimit.
  eexists. split; [by apply listEntries_eq|]. simpl.
  intros e He. apply list_elem_of_fmap in He as (row & -> & Hrow).
  rewrite order_by_desc_perm in Hrow. apply elem_of_List_filter in Hrow as [Hrow _].
  cbn [DevLogEntry.entryId mapEntry]. rewrite getEntry_eq. unfold select_entry.
  by rewrite (head_filter_unique EntryRow.entry_id (entries st) row
                (inv_entry_unique st Hinv) Hrow).
Qed.

Lemma listEntries_agrees_with_getEntry_witness :
  ∃ r, listEntries {| ListOptions.pagePath := Some "/a";
                      ListOptions.type := None;
                      ListOptions.includeComplete := None |} (store_with_upload None)
       = Ok r (store_with_upload None)
    ∧ ∀ e, e ∈ ListResult.entries r →
        getEntry (DevLogEntry.entryId e) (store_with_upload None)
        = Ok (Some e) (store_with_upload None).
Proof.
  apply (listEntries_agrees_with_getEntry
           {| ListOptions.pagePath := Some "/a";
              ListOptions.type := None;
              ListOptions.includeComplete := None |} (store_with_upload None)).
  - apply (store_with_upload_inv None).
  - vm_compute. discriminate.
Defined.

Lemma exportAllEntries_eq (st : Store) :
  exportAllEntries st
  = Ok ((λ e, mapEntry e
                (mapAttachment <$>
                   filter (λ a, AttachmentRow.entry_id a = EntryRow.entry_id e)
                     (order_by_asc AttachmentRow.created_at (attachments st))))
          <$> order_by_desc EntryRow.created_at (entries st)) st.
Proof.
  unfold exportAllEntries. run_m. f_equal.
  apply list_fmap_ext. intros _ e _. by rewrite group_attachments_lookup.
Qed.

(** X5: [exportAllEntries] returns every entry of the store exactly once,
    newest first by createdAt, each with the attachments of that entry,
    none missing and none twice, oldest first by createdAt; the store is
    left as it was. *)
Theorem exportAllEntries_returns_every_entry_once (st : Store) :
  ∃ exported, exportAllEntries st = Ok exported st
    ∧ DevLogEntry.id <$> exported ≡ₚ EntryRow.id <$> entries st
    ∧ DevLogEntry.entryId <$> exported ≡ₚ EntryRow.entry_id <$> entries st
    ∧ length exported = length (entries st)
    ∧ StronglySorted newest_first exported
    ∧ ∀ e, e ∈ exported →
        DevLogEntry.attachments e
        ≡ₚ mapAttachment <$> attachment_rows_of (DevLogEntry.entryId e) st
        ∧ StronglySorted oldest_first (DevLogEntry.attachments e).
Proof.
  eexists. split; [apply exportAllEntries_eq|].
  split; [|split; [|split; [|split]]].
  - rewrite <- list_fmap_compose. simpl.
    apply (fmap_Permutation EntryRow.id), order_by_desc_perm.
  - rewrite <- list_fmap_compose. simpl.
    apply (fmap_Permutation EntryRow.entry_id), order_by_desc_perm.
  - by rewrite length_fmap, order_by_desc_perm.
  - eapply StronglySorted_fmap; [|apply order_by_desc_sorted].
    intros x y Hxy. exact Hxy.
  - intros e He. apply list_elem_of_fmap in He as (row & -> & Hrow). simpl. split.
    + unfold attachment_rows_of. by rewrite order_by_asc_perm.
    + eapply StronglySorted_fmap;
        [|apply StronglySorted_filter, order_by_asc_sorted].
      intros x y Hxy. exact Hxy.
Qed.

(** X6: when the entries of the store are within the parameter limit of
    the attachments query of [listEntries], the export is the list of
    entries that [listEntries] returns without filters and with completed
    entries included. *)
Theorem exportAllEntries_is_the_unfiltered_list (st : Store) :
  within_variable_limit {| ListOptions.pagePath := None;
                           ListOptions.type := None;
                           ListOptions.includeComplete := Some true |} st →
  ∃ r, listEntries {| ListOptions.pagePath := None;
                      ListOptions.type := None;
                      ListOptions.includeComplete := Some true |} st = Ok r st
    ∧ exportAllEntries st = Ok (ListResult.entries r) st.
Proof.
  intros Hlimit.
  eexists. split; [by apply listEntries_eq|]. simpl.
  rewrite exportAllEntries_eq. f_equal.
  rewrite List_filter_all by done.
  apply list_fmap_ext. intros i e He. f_equal.
  unfold select_attachments_of. by rewrite order_by_asc_filter.
Qed.

Lemma exportAllEntries_is_the_unfiltered_list_witness :
  ∃ r, listEntries {| ListOptions.pagePath := None;
                      ListOptions.type := None;
                      ListOptions.includeComplete := Some true |} (store_with_upload None)
       = Ok r (store_with_upload None)
    ∧ exportAllEntries (store_with_upload None)
      = Ok (ListResult.entries r) (store_with_upload None).
Proof.
  apply (exportAllEntries_is_the_unfiltered_list (store_with_upload None)).
  vm_compute. discriminate.
Defined.

(** ** Counting *)

Lemma getOpenCount_eq (pagePath : option string) (st : Store) :
  getOpenCount pagePath st
  = Ok {| CountResult.openCount := page_open_count pagePath st;
          CountResult.totalCount := page_total_count pagePath st |} st.
Proof.
  unfold getOpenCount, page_open_count, page_total_count, or_null, truthy_opt.
  destruct pagePath as [[|c p]|]; run_m.
  - do 2 f_equal; [f_equal; apply List.filter_ext; intros e; by rewrite andb_true_r|].
    by rewrite List_filter_all.
  - assert (Heqb : ∀ e, String.eqb (EntryRow.page_path e) (String c p)
                        = bool_decide (EntryRow.page_path e = String c p)).
    { intros e. destruct (String.eqb_spec (EntryRow.page_path e) (String c p)).
      - by rewrite bool_decide_eq_true_2.
      - by rewrite bool_decide_eq_false_2. }
    do 2 f_equal; f_equal; apply List.filter_ext; intros e; unfold is_open;
      by rewrite Heqb.
  - do 2 f_equal; [f_equal; apply List.filter_ext; intros e; by rewrite andb_true_r|].
    by rewrite List_filter_all.
Qed.

Lemma List_filter_length_le {A} (f g : A → bool) (l : list A) :
  (∀ x, f x = true → g x = true) →
  (length (List.filter f l) ≤ length (List.filter g l))%nat.
Proof.
  intros Hfg. induction l as [|x l IH]; [done|]. simpl.
  destruct (f x) eqn:Hf.
  - rewrite (Hfg x Hf). simpl. lia.
  - destruct (g x); simpl; lia.
Qed.

(** X7: [getOpenCount] and [listEntries] report the same open count for the
    same page path, whatever type and completion filter the list carries,
    when [listEntries] returns (the entries it selects are within the
    parameter limit of its attachments query); the open count is never
    negative and never above the total count. *)
Theorem getOpenCount_agrees_with_listEntries (options : ListOptions.t) (st : Store) :
  within_variable_limit options st →
  ∃ c r,
    getOpenCount (ListOptions.pagePath options) st = Ok c st
    ∧ listEntries options st = Ok r st
    ∧ CountResult.openCount c = ListResult.openCount r
    ∧ 0 ≤ CountResult.openCount c ≤ CountResult.totalCount c.
Proof.
  intros Hlimit.
  eexists _, _. split; [apply getOpenCount_eq|]. split; [by apply listEntries_eq|].
  simpl. split; [done|].
  unfold page_open_count, page_total_count, count_rows. split; [lia|].
  apply inj_le, List_filter_length_le.
  intros e He. by apply andb_true_iff in He as [_ He].
Qed.

Lemma getOpenCount_agrees_with_listEntries_witness :
  ∃ c r,
    getOpenCount (Some "/a") store_one_bug = Ok c store_one_bug
    ∧ listEntries {| ListOptions.pagePath := Some "/a";
                     ListOptions.type := Some note;
                     ListOptions.includeComplete := None |} store_one_bug
      = Ok r store_one_bug
    ∧ CountResult.openCount c = ListResult.openCount r
    ∧ 0 ≤ CountResult.openCount c ≤ CountResult.totalCount c.
Proof.
  apply (getOpenCount_agrees_with_listEntries
           {| ListOptions.pagePath := Some "/a";
              ListOptions.type := Some note;
              ListOptions.includeComplete := None |} store_one_bug).
  vm_compute. discriminate.
Defined.

(** X8: on a store that satisfies the invariants of its tables, creating an
    entry raises by one the open count and the total count of every page
    path that covers the entry's page (its own path, or no path or the
    empty one), and leaves the counts of every other page path as they
    were. *)
Theorem createEntry_raises_the_counts_of_its_page
    (now : string) (dto : CreateEntryDto.t) (q : option string) (st : Store) :
  tables_inv st →
  ∃ e st' before after,
    createEntry now dto st = Ok (Some e) st'
    ∧ getOpenCount q st = Ok before st
    ∧ getOpenCount q st' = Ok after st'
    ∧ CountResult.openCount after
      = CountResult.openCount before + counts_page q (CreateEntryDto.pagePath dto)
    ∧ CountResult.totalCount after
      = CountResult.totalCount before + counts_page q (CreateEntryDto.pagePath dto).
Proof.
  intros Hinv. eexists _, _, _, _.
  split; [by apply createEntry_eq|].
  split; [apply getOpenCount_eq|]. split; [apply getOpenCount_eq|].
  unfold page_open_count, page_total_count, count_rows, counts_page. simpl.
  rewrite !List.filter_app, !length_app. simpl.
  destruct (admits (or_null q) (CreateEntryDto.pagePath dto)); simpl; lia.
Qed.

Lemma createEntry_raises_the_counts_of_its_page_witness :
  ∃ e st' before after,
    createEntry "2026-01-01 00:00:03" sample_bug store_one_bug = Ok (Some e) st'
    ∧ getOpenCount (Some "/a") store_one_bug = Ok before store_one_bug
    ∧ getOpenCount (Some "/a") st' = Ok after st'
    ∧ CountResult.openCount after
      = CountResult.openCount before
        + counts_page (Some "/a") (CreateEntryDto.pagePath sample_bug)
    ∧ CountResult.totalCount after
      = CountResult.totalCount before
        + counts_page (Some "/a") (CreateEntryDto.pagePath sample_bug).
Proof.
  apply (createEntry_raises_the_counts_of_its_page
           "2026-01-01 00:00:03" sample_bug (Some "/a") store_one_bug).
  apply (reachable_store_inv sample_uploads_dir), store_one_bug_reachable.
Defined.

(** ** Updating *)

Lemma foldl_sets_updated_row (now : string) (dto : UpdateEntryDto.t) (r : EntryRow.t) :
  foldl (λ row assign, assign row) r
    ([set_updated_at now]
     ++ push_if_defined (UpdateEntryDto.title dto) set_title
     ++ push_if_defined (UpdateEntryDto.description dto) set_description
     ++ push_if_defined (UpdateEntryDto.priority dto) set_priority
     ++ push_if_defined (UpdateEntryDto.isComplete dto)
          (λ isComplete : bool, set_is_complete (if isComplete then 1 else 0)))
  = updated_row now dto r.
Proof. destruct dto as [[?|] [?|] [?|] [?|]]; reflexivity. Qed.

Lemma set_entries_fmap_fixed (g : EntryRow.t → EntryRow.t) (st : Store) :
  (∀ r, r ∈ entries st → g r = r) → set_entries (fmap g) st = st.
Proof.
  intros Hg. destruct st as [es ? ? ? ? ?]. unfold set_entries. simpl in *. f_equal.
  induction es as [|r es IH]; [done|]. rewrite fmap_cons. f_equal.
  - apply Hg. left.
  - apply IH. intros r' Hr'. apply Hg. by right.
Qed.

(** The store [updateEntry] leaves behind, whether the entry exists or
    not. *)
Lemma updateEntry_run (now entryId : string) (dto : UpdateEntryDto.t) (st : Store) :
  ∃ r,
    updateEntry now entryId dto st
    = Ok r (set_entries (fmap (update_row_of now entryId dto)) st).
Proof.
  destruct (select_entry entryId st) as [row|] eqn:Hrow.
  - unfold updateEntry. unfold mbind at 1, M_bind at 1. rewrite getEntry_eq, Hrow. simpl.
    unfold mbind, M_bind, update_entries, modify. rewrite getEntry_eq.
    eexists. f_equal. unfold set_entries. f_equal.
    apply list_fmap_ext. intros _ r _. unfold update_row_of.
    case_decide; [|done]. apply foldl_sets_updated_row.
  - exists None. rewrite updateEntry_not_found by done. f_equal. symmetry.
    apply set_entries_fmap_fixed. intros r Hr. unfold update_row_of.
    case_decide as Hid; [|done]. exfalso.
    unfold select_entry in Hrow. apply head_None in Hrow.
    assert (Hin : r ∈ filter (λ r, EntryRow.entry_id r = entryId) (entries st))
      by by apply list_elem_of_filter.
    rewrite Hrow in Hin. by apply elem_of_nil in Hin.
Qed.

Lemma List_filter_fmap_length {A} (f : A → bool) (g : A → A) (l : list A) :
  (∀ x, f (g x) = f x) → length (List.filter f (g <$> l)) = length (List.filter f l).
Proof.
  intros Hfg. induction l as [|x l IH]; [done|].
  rewrite fmap_cons. simpl. rewrite Hfg. destruct (f x); simpl; by rewrite IH.
Qed.

Lemma update_row_of_page_path (now entryId : string) (dto : UpdateEntryDto.t)
    (r : EntryRow.t) :
  EntryRow.page_path (update_row_of now entryId dto r) = EntryRow.page_path r.
Proof. unfold update_row_of. by case_decide. Qed.

Lemma update_row_of_entry_id (now entryId : string) (dto : UpdateEntryDto.t)
    (r : EntryRow.t) :
  EntryRow.entry_id (update_row_of now entryId dto r) = EntryRow.entry_id r.
Proof. unfold update_row_of. by case_decide. Qed.

(** X9: [updateEntry] never changes the total count of any page path, and
    it changes no open count unless the payload carries isComplete. *)
Theorem updateEntry_keeps_the_total_count
    (now entryId : string) (dto : UpdateEntryDto.t) (q : option string) (st : Store) :
  ∃ r st' before after,
    updateEntry now entryId dto st = Ok r st'
    ∧ getOpenCount q st = Ok before st
    ∧ getOpenCount q st' = Ok after st'
    ∧ CountResult.totalCount after = CountResult.totalCount before
    ∧ (CountResult.openCount after = CountResult.openCount before
       ∨ is_Some (UpdateEntryDto.isComplete dto)).
Proof.
  destruct (updateEntry_run now entryId dto st) as (r & Hrun).
  eexists _, _, _, _. split; [exact Hrun|].
  split; [apply getOpenCount_eq|]. split; [apply getOpenCount_eq|].
  unfold page_open_count, page_total_count, count_rows. simpl. split.
  - f_equal. apply List_filter_fmap_length. intros e.
    by rewrite update_row_of_page_path.
  - destruct (UpdateEntryDto.isComplete dto) as [b|] eqn:Hflag; [by right|left].
    f_equal. apply List_filter_fmap_length. intros e.
    rewrite update_row_of_page_path. f_equal.
    unfold update_row_of. case_decide; [|done]. simpl. by rewrite Hflag.
Qed.

Lemma filter_fmap_fixed {A} (P : A → Prop) `{!∀ x, Decision (P x)} (g : A → A)
    (l : list A) :
  (∀ x, P (g x) ↔ P x) → (∀ x, P x → g x = x) → filter P (g <$> l) = filter P l.
Proof.
  intros HP Hg. induction l as [|x l IH]; [done|].
  rewrite fmap_cons, !filter_cons.
  destruct (decide (P x)) as [Hx|Hx].
  - rewrite decide_True by by apply HP. by rewrite Hg, IH.
  - rewrite decide_False by by rewrite HP. exact IH.
Qed.

Lemma getAttachment_set_entries (f : list EntryRow.t → list EntryRow.t) (id : Z)
    (st : Store) :
  returned (getAttachment id (set_entries f st)) = returned (getAttachment id st).
Proof.
  unfold getAttachment, mbind, M_bind, gets, select_attachment. simpl.
  destruct (head _) as [row|]; [|done].
  destruct (AttachmentRow.storage_type row), (AttachmentRow.blob_data row),
    (AttachmentRow.file_path row) as [p|]; try done;
    destruct (truthy p); try done;
    unfold existsSync, readFileSync, gets; simpl;
    destruct (disk st !! p) as [[?|]|] eqn:Hp;
    rewrite ?bool_decide_eq_true_2, ?bool_decide_eq_false_2 by (by rewrite ?is_Some_alt);
    cbv beta; simpl; rewrite ?Hp; done.
Qed.

(** X10: [updateEntry] on one entry leaves every other entry as [getEntry]
    returns it, and every attachment as [getAttachment] returns it. *)
Theorem updateEntry_leaves_other_entries
    (now entryId other : string) (dto : UpdateEntryDto.t) (st : Store) :
  other ≠ entryId →
  ∃ r st' e,
    updateEntry now entryId dto st = Ok r st'
    ∧ getEntry other st = Ok e st
    ∧ getEntry other st' = Ok e st'
    ∧ ∀ id, returned (getAttachment id st') = returned (getAttachment id st).
Proof.
  intros Hother.
  destruct (updateEntry_run now entryId dto st) as (r & Hrun).
  eexists _, _, _. split; [exact Hrun|].
  split; [apply getEntry_eq|]. split.
  - rewrite getEntry_eq. f_equal. unfold select_entry. simpl.
    rewrite filter_fmap_fixed; [done|..].
    + intros x. by rewrite update_row_of_entry_id.
    + intros x Hx. unfold update_row_of. rewrite decide_False; [done|congruence].
  - intros id. apply getAttachment_set_entries.
Qed.

Lemma updateEntry_leaves_other_entries_witness :
  ∃ r st' e,
    updateEntry "2026-01-01 00:00:09" "BUG-002" mark_complete (store_two_entries None)
    = Ok r st'
    ∧ getEntry "BUG-001" (store_two_entries None) = Ok e (store_two_entries None)
    ∧ getEntry "BUG-001" st' = Ok e st'
    ∧ is_Some e
    ∧ (∀ id, returned (getAttachment id st')
             = returned (getAttachment id (store_two_entries None)))
    ∧ is_Some (returned (getAttachment 1 (store_two_entries None)) ≫= id).
Proof.
  destruct (updateEntry_leaves_other_entries
              "2026-01-01 00:00:09" "BUG-002" "BUG-001" mark_complete
              (store_two_entries None))
    as (r & st' & e & Hupd & Hbefore & Hafter & Hattachments).
  { discriminate. }
  exists r, st', e. split; [exact Hupd|]. split; [exact Hbefore|].
  split; [exact Hafter|]. split; [|split; [exact Hattachments|]].
  - rewrite getEntry_eq in Hbefore. injection Hbefore as <-.
    vm_compute. eexists. reflexivity.
  - vm_compute. eexists. reflexivity.
Defined.

(** ** The completion flag *)

Lemma flags_inv_after_call (uploadsDir : string) (c : Call) (st : Store) :
  store_inv uploadsDir st →
  call_permitted c st →
  flags_inv st →
  flags_inv (after_call uploadsDir c st).
Proof.
  intros Hinv Hok Hflags. destruct c; cbn [after_call].
  - by rewrite getNextEntryId_eq.
  - by rewrite listEntries_final.
  - by rewrite getEntry_eq.
  - rewrite createEntry_eq by apply Hinv. simpl.
    intros r [Hr| ->%list_elem_of_singleton]%elem_of_app; [by apply Hflags|by left].
  - destruct (updateEntry_run now entryId dto st) as (r & ->). simpl.
    intros r' (r0 & -> & Hr0)%list_elem_of_fmap. unfold update_row_of.
    case_decide; [|by apply Hflags]. simpl.
    destruct (UpdateEntryDto.isComplete dto) as [[|]|]; [by right|by left|by apply Hflags].
  - destruct (deleteEntry_eq uploadsDir entryId st) as (disk' & -> & _). simpl.
    intros r [_ Hr]%list_elem_of_filter. by apply Hflags.
  - destruct (addAttachment_final uploadsDir DEVLOG_STORAGE_TYPE randomPrefix now entryId
                file st Hinv Hok) as [_ Hentries].
    unfold flags_inv. by rewrite Hentries.
  - by rewrite getAttachment_final.
  - destruct (deleteAttachment_final id st) as (st' & -> & Hentries & _).
    unfold flags_inv. by rewrite Hentries.
  - by rewrite getOpenCount_eq.
  - by rewrite exportAllEntries_eq.
Qed.

(** On every reachable store the completion flags are 0 or 1. *)
Lemma reachable_flags_inv (uploadsDir : string) (st : Store) :
  reachable uploadsDir st → flags_inv st.
Proof.
  induction 1 as [|c st Hst IH Hok|p st _ IH].
  - intros r Hr. by apply elem_of_nil in Hr.
  - apply flags_inv_after_call; [|done..]. by apply reachable_store_inv.
  - done.
Qed.

(** The rows of a table with unique keys, cut at the row of a key. *)
Lemma entries_split_unique (entryId : string) (st : Store) (row : EntryRow.t) :
  tables_inv st →
  select_entry entryId st = Some row →
  ∃ l1 l2, entries st = l1 ++ row :: l2
    ∧ Forall (λ r, EntryRow.entry_id r ≠ entryId) (l1 ++ l2).
Proof.
  intros Hinv Hrow. apply select_entry_entry_id in Hrow as [Hid Hin].
  apply list_elem_of_split in Hin as (l1 & l2 & Hsplit).
  exists l1, l2. split; [done|].
  pose proof (inv_entry_unique st Hinv) as Hnodup.
  rewrite Hsplit, fmap_app, fmap_cons, Hid in Hnodup.
  apply NoDup_app in Hnodup as (_ & Hl1 & Hl2).
  apply NoDup_cons in Hl2 as [Hl2 _].
  apply Forall_app. split; apply Forall_forall; intros r Hr Heq.
  - apply (Hl1 entryId); [|left]. rewrite <- Heq. by apply list_elem_of_fmap_2.
  - apply Hl2. rewrite <- Heq. by apply list_elem_of_fmap_2.
Qed.

Lemma fmap_update_row_of_others (now entryId : string) (dto : UpdateEntryDto.t)
    (l : list EntryRow.t) :
  Forall (λ r, EntryRow.entry_id r ≠ entryId) l →
  update_row_of now entryId dto <$> l = l.
Proof.
  induction 1 as [|r l Hr _ IH]; [done|].
  rewrite fmap_cons, IH. f_equal. unfold update_row_of. by rewrite decide_False.
Qed.

(** X11: on a reachable store, an update that sets isComplete to the
    opposite of what the entry carries returns the entry with the new flag;
    completing it lowers by one, and reopening it raises by one, the open
    count of every page path that covers the entry's page; no other open
    count and no total count changes. *)
Theorem updateEntry_completion_moves_the_open_count
    (uploadsDir now entryId : string) (dto : UpdateEntryDto.t) (isComplete : bool)
    (q : option string) (st : Store) (e : DevLogEntry.t) :
  reachable uploadsDir st →
  getEntry entryId st = Ok (Some e) st →
  UpdateEntryDto.isComplete dto = Some isComplete →
  DevLogEntry.isComplete e = negb isComplete →
  ∃ e' st' before after,
    updateEntry now entryId dto st = Ok (Some e') st'
    ∧ DevLogEntry.isComplete e' = isComplete
    ∧ getOpenCount q st = Ok before st
    ∧ getOpenCount q st' = Ok after st'
    ∧ CountResult.openCount after
      = CountResult.openCount before
        + completion_step isComplete * counts_page q (DevLogEntry.pagePath e)
    ∧ CountResult.totalCount after = CountResult.totalCount before.
Proof.
  intros Hreach Hget Hflag Hwas.
  pose proof (reachable_store_inv _ _ Hreach) as [Hinv _].
  pose proof (reachable_flags_inv _ _ Hreach) as Hflags.
  rewrite getEntry_eq in Hget.
  destruct (select_entry entryId st) as [row|] eqn:Hrow; [|done].
  injection Hget as <-.
  destruct (updateEntry_found now entryId dto st row Hrow) as (st0 & Hupd & _).
  destruct (updateEntry_run now entryId dto st) as (r & Hrun).
  rewrite Hupd in Hrun. injection Hrun as <- ->.
  destruct (entries_split_unique entryId st row Hinv Hrow) as (l1 & l2 & Hsplit & Hothers).
  apply Forall_app in Hothers as [Hl1 Hl2].
  pose proof (select_entry_entry_id _ _ _ Hrow) as [Hid Hin].
  eexists _, _, _, _. split; [exact Hupd|].
  split; [simpl; rewrite Hflag; by destruct isComplete|].
  split; [apply getOpenCount_eq|]. split; [apply getOpenCount_eq|].
  unfold page_open_count, page_total_count, count_rows, counts_page. simpl.
  rewrite Hsplit, fmap_app, fmap_cons, !fmap_update_row_of_others by done.
  unfold update_row_of at 1 2. rewrite decide_True by done.
  rewrite !List.filter_app, !length_app. simpl. rewrite Hflag.
  simpl in Hwas. specialize (Hflags row Hin).
  destruct (admits (or_null q) (EntryRow.page_path row)); rewrite ?andb_false_r, ?andb_true_r;
    [|unfold completion_step; destruct isComplete; simpl; lia].
  destruct isComplete; simpl in *.
  - apply bool_decide_eq_false in Hwas.
    destruct Hflags as [Hzero|Hone]; [|done]. rewrite Hzero. simpl. lia.
  - apply bool_decide_eq_true in Hwas. rewrite Hwas. simpl. lia.
Qed.

Lemma updateEntry_completion_moves_the_open_count_witness :
  ∃ e e' st' before after,
    getEntry "BUG-001" store_one_bug = Ok (Some e) store_one_bug
    ∧ updateEntry "2026-01-01 00:00:09" "BUG-001" mark_complete store_one_bug
      = Ok (Some e') st'
    ∧ DevLogEntry.isComplete e' = true
    ∧ getOpenCount (Some "/a") store_one_bug = Ok before store_one_bug
    ∧ getOpenCount (Some "/a") st' = Ok after st'
    ∧ CountResult.openCount after
      = CountResult.openCount before
        + completion_step true * counts_page (Some "/a") (DevLogEntry.pagePath e)
    ∧ CountResult.totalCount after = CountResult.totalCount before.
Proof.
  assert (Hget : getEntry "BUG-001" store_one_bug
                 = Ok (Some (mapEntry
                               (created_row "2026-01-01 00:00:00" sample_bug 1 "BUG-001") []))
                      store_one_bug) by (vm_compute; reflexivity).
  destruct (updateEntry_completion_moves_the_open_count
              sample_uploads_dir "2026-01-01 00:00:09" "BUG-001" mark_complete true
              (Some "/a") store_one_bug _ store_one_bug_reachable Hget eq_refl eq_refl)
    as (e' & st' & before & after & Hrest).
  by eexists _, e', st', before, after.
Defined.

Lemma List_filter_length_perm {A} (f : A → bool) (l l' : list A) :
  l ≡ₚ l' → length (List.filter f l) = length (List.filter f l').
Proof.
  induction 1 as [|x l l' _ IH|x y l|l l' l'' _ IH1 _ IH2]; simpl.
  - done.
  - destruct (f x); simpl; by rewrite IH.
  - by destruct (f x), (f y).
  - by rewrite IH1.
Qed.

Lemma List_filter_fmap {A B} (f : B → bool) (g : A → B) (l : list A) :
  List.filter f (g <$> l) = g <$> List.filter (λ x, f (g x)) l.
Proof.
  induction l as [|x l IH]; [done|].
  rewrite fmap_cons. simpl. destruct (f (g x)); by rewrite IH.
Qed.

Lemma List_filter_filter {A} (f g : A → bool) (l : list A) :
  List.filter f (List.filter g l) = List.filter (λ x, g x && f x) l.
Proof.
  induction l as [|x l IH]; [done|].
  simpl. destruct (g x); simpl; [destruct (f x)|]; by rewrite IH.
Qed.

(** X12: on a reachable store whose entries of a page path are within the
    parameter limit of the attachments query, the open count that
    [listEntries] reports for the page path is the number of entries with
    isComplete false in the list it returns for that page path when
    completed entries are included and no type is asked for, and the total
    is the length of that list. *)
Theorem listEntries_openCount_counts_incomplete_entries
    (uploadsDir : string) (q : option string) (st : Store) :
  reachable uploadsDir st →
  within_variable_limit {| ListOptions.pagePath := q; ListOptions.type := None;
                           ListOptions.includeComplete := Some true |} st →
  ∃ r,
    listEntries {| ListOptions.pagePath := q; ListOptions.type := None;
                   ListOptions.includeComplete := Some true |} st = Ok r st
    ∧ ListResult.openCount r
      = count_rows (List.filter (λ e, negb (DevLogEntry.isComplete e))
                                (ListResult.entries r))
    ∧ ListResult.total r = count_rows (ListResult.entries r).
Proof.
  intros Hreach Hlimit. pose proof (reachable_flags_inv _ _ Hreach) as Hflags.
  eexists. split; [by apply listEntries_eq|]. simpl.
  unfold page_open_count, count_rows. rewrite !length_fmap. split; [|done].
  f_equal. rewrite List_filter_fmap, length_fmap.
  rewrite (List_filter_length_perm _ _ _ (order_by_desc_perm _ _)).
  rewrite List_filter_filter. f_equal.
  apply List.filter_ext_in. intros e He%list_elem_of_In.
  unfold passes_filters. simpl. rewrite !andb_true_r, andb_comm. f_equal.
  destruct (Hflags e He) as [-> | ->]; done.
Qed.

Lemma listEntries_openCount_counts_incomplete_entries_witness :
  ∃ r,
    listEntries {| ListOptions.pagePath := Some "/a"; ListOptions.type := None;
                   ListOptions.includeComplete := Some true |} store_one_bug
    = Ok r store_one_bug
    ∧ ListResult.openCount r
      = count_rows (List.filter (λ e, negb (DevLogEntry.isComplete e))
                                (ListResult.entries r))
    ∧ ListResult.total r = count_rows (ListResult.entries r).
Proof.
  apply (listEntries_openCount_counts_incomplete_entries
           sample_uploads_dir (Some "/a") store_one_bug).
  - apply store_one_bug_reachable.
  - vm_compute. discriminate.
Defined.

(** ** Removing an attachment *)

Lemma select_attachment_None (id : Z) (st : Store) :
  select_attachment id st = None ↔ id ∉ AttachmentRow.id <$> attachments st.
Proof.
  unfold select_attachment. rewrite head_None. split.
  - intros Hnone (a & -> & Ha)%list_elem_of_fmap.
    assert (Hin : a ∈ filter (λ a', AttachmentRow.id a' = AttachmentRow.id a)
                        (attachments st)) by by apply list_elem_of_filter.
    rewrite Hnone in Hin. by apply elem_of_nil in Hin.
  - intros Hnotin. apply filter_none. intros a Ha Hid. apply Hnotin.
    rewrite <- Hid. by apply list_elem_of_fmap_2.
Qed.

Lemma deleteAttachment_eq (id : Z) (st : Store) :
  deleteAttachment id st
  = Ok (bool_decide (id ∈ AttachmentRow.id <$> attachments st)) (detached_store id st).
Proof.
  unfold deleteAttachment, detached_store, unlinked_disk.
  unfold mbind at 1, M_bind at 1, gets.
  destruct (select_attachment id st) as [row|] eqn:Hrow.
  - pose proof (select_attachment_elem _ _ _ Hrow) as [Hid Hin].
    assert (Hchanges : (0 <? count_rows (filter (λ a, AttachmentRow.id a = id)
                                           (attachments st))) = true).
    { apply count_rows_positive. intros Hnil.
      unfold select_attachment in Hrow. by rewrite Hnil in Hrow. }
    rewrite bool_decide_eq_true_2
      by (rewrite <- Hid; by apply list_elem_of_fmap_2).
    unfold mbind at 1, M_bind at 1.
    destruct (AttachmentRow.storage_type row), (AttachmentRow.file_path row) as [p|];
      try (unfold mbind, M_bind, delete_attachments, mret, M_ret; simpl;
           by rewrite Hchanges).
    destruct (truthy p);
      [|unfold mbind, M_bind, delete_attachments, mret, M_ret; simpl; by rewrite Hchanges].
    unfold try_ignore, unlinkSync.
    destruct (disk st !! p) as [[data|]|];
      unfold mbind, M_bind, delete_attachments, mret, M_ret; simpl; by rewrite Hchanges.
  - rewrite bool_decide_eq_false_2 by by apply select_attachment_None.
    unfold mret, M_ret. f_equal. destruct st as [? ? atts ? ? ?]. simpl in *. f_equal.
    symmetry. apply filter_all. intros a Ha Hid.
    apply select_attachment_None in Hrow. apply Hrow.
    rewrite <- Hid. by apply list_elem_of_fmap_2.
Qed.

Lemma filter_fmap {A B} (P : B → Prop) `{!∀ y, Decision (P y)} (f : A → B) (l : list A) :
  filter P (f <$> l) = f <$> filter (λ x, P (f x)) l.
Proof.
  induction l as [|x l IH]; [done|].
  rewrite fmap_cons, !filter_cons. destruct (decide (P (f x))); by rewrite IH.
Qed.

Lemma select_attachments_of_detached (id : Z) (entryId : string) (st : Store) :
  mapAttachment <$> select_attachments_of entryId (detached_store id st)
  = filter (λ a, Attachment.id a ≠ id)
      (mapAttachment <$> select_attachments_of entryId st).
Proof.
  rewrite filter_fmap. f_equal.
  unfold select_attachments_of. simpl.
  rewrite order_by_asc_filter, !list_filter_filter. f_equal.
  apply list_filter_iff. intros a. simpl. tauto.
Qed.

(** X13: on a store that satisfies its invariants, [deleteAttachment]
    returns true exactly when an attachment carries the id; afterwards
    [getAttachment] returns null for the id, the file of a filesystem
    attachment is off the disk, and [getEntry] returns every entry as
    before except that the attachment is gone from its list, the other
    attachments in the order they had.  When it returns false the store is
    as it was. *)
Theorem deleteAttachment_removes_the_attachment
    (uploadsDir : string) (id : Z) (st : Store) :
  store_inv uploadsDir st →
  ∃ removed st',
    deleteAttachment id st = Ok removed st'
    ∧ (removed = true ↔ ∃ a, a ∈ attachments st ∧ AttachmentRow.id a = id)
    ∧ getAttachment id st' = Ok None st'
    ∧ (∀ row p, select_attachment id st = Some row →
         AttachmentRow.file_path row = Some p → file_content st' p = None)
    ∧ (∀ entryId, ∃ e e',
         getEntry entryId st = Ok e st
         ∧ getEntry entryId st' = Ok e' st'
         ∧ without_attachment id e e')
    ∧ (removed = false → st' = st).
Proof.
  intros [Htables Huploads].
  eexists _, _. split; [apply deleteAttachment_eq|].
  split; [|split; [|split; [|split]]].
  - rewrite bool_decide_eq_true, list_elem_of_fmap. split.
    + intros (a & -> & Ha). by exists a.
    + intros (a & Ha & <-). by exists a.
  - apply getAttachment_no_row, select_attachment_None. simpl.
    intros (a & Hid & [Hne _]%list_elem_of_filter)%list_elem_of_fmap. by apply Hne.
  - intros row p Hrow Hp. unfold file_content, detached_store, unlinked_disk. simpl.
    rewrite Hrow, Hp.
    pose proof (select_attachment_elem _ _ _ Hrow) as [_ Hin].
    pose proof (inv_rows uploadsDir st Huploads row Hin) as Hwritten.
    unfold row_as_written in Hwritten.
    destruct (AttachmentRow.storage_type row) eqn:Hmode.
    + destruct Hwritten as [_ Hpath]. rewrite Hp in Hpath. injection Hpath as ->.
      rewrite path_join_truthy.
      destruct (disk st !! _) as [[data|]|] eqn:Hdisk.
      * by rewrite lookup_delete_eq.
      * exfalso. by eapply (row_path_not_dir uploadsDir st row).
      * by rewrite Hdisk.
    + destruct Hwritten as [_ Hpath]. by rewrite Hp in Hpath.
  - intros entryId. eexists _, _.
    split; [apply getEntry_eq|]. split; [apply getEntry_eq|].
    change (select_entry entryId (detached_store id st)) with (select_entry entryId st).
    destruct (select_entry entryId st) as [row|]; [|done]. simpl.
    eexists row, _. split; [done|].
    by rewrite select_attachments_of_detached.
  - intros Hnone%bool_decide_eq_false. apply select_attachment_None in Hnone.
    destruct st as [? ? atts ? ? ?]. unfold detached_store, unlinked_disk.
    rewrite Hnone. simpl in *. f_equal.
    apply filter_all. intros a Ha Hid.
    apply select_attachment_None in Hnone. apply Hnone.
    rewrite <- Hid. by apply list_elem_of_fmap_2.
Qed.

Lemma deleteAttachment_removes_the_attachment_witness :
  ∃ removed st',
    deleteAttachment 1 (store_with_two_uploads None) = Ok removed st'
    ∧ (removed = true
       ↔ ∃ a, a ∈ attachments (store_with_two_uploads None) ∧ AttachmentRow.id a = 1)
    ∧ getAttachment 1 st' = Ok None st'
    ∧ (∀ row p, select_attachment 1 (store_with_two_uploads None) = Some row →
         AttachmentRow.file_path row = Some p → file_content st' p = None)
    ∧ (∀ entryId, ∃ e e',
         getEntry entryId (store_with_two_uploads None)
         = Ok e (store_with_two_uploads None)
         ∧ getEntry entryId st' = Ok e' st'
         ∧ without_attachment 1 e e')
    ∧ (removed = false → st' = store_with_two_uploads None).
Proof.
  apply (deleteAttachment_removes_the_attachment
           sample_uploads_dir 1 (store_with_two_uploads None)).
  apply reachable_store_inv, store_with_two_uploads_reachable.
Defined.

(** ** Files of different attachments *)

Lemma segment_split (e e' f f' : string) :
  is_segment e → is_segment e' →
  e +:+ "/" +:+ f = e' +:+ "/" +:+ f' → e = e' ∧ f = f'.
Proof.
  unfold is_segment. revert e'.
  induction e as [|c e IH]; intros [|c' e'] He He' Heq.
  - change (String "/" f = String "/" f') in Heq. by injection Heq as ->.
  - change (String "/" f = String c' (e' +:+ "/" +:+ f')) in Heq.
    injection Heq as <- _. simpl in He'. done.
  - change (String c (e +:+ "/" +:+ f) = String "/" f') in Heq.
    injection Heq as -> _. simpl in He. done.
  - rewrite !string_app_cons in Heq. injection Heq as -> Heq.
    simpl in He, He'. apply orb_false_iff in He as [_ He], He' as [_ He'].
    destruct (IH e' He He' Heq) as [-> ->]. done.
Qed.

(** Files of attachments sit at different paths unless the attachments
    share the entry and the file name. *)
Lemma file_path_inj (uploadsDir e e' f f' : string) :
  is_segment e → is_segment e' →
  path_join (path_join uploadsDir e) f = path_join (path_join uploadsDir e') f' →
  e = e' ∧ f = f'.
Proof.
  intros He He' Heq. rewrite !path_join_nested in Heq.
  apply path_join_inj in Heq. by apply segment_split.
Qed.

Lemma row_segment (st : Store) (a : AttachmentRow.t) :
  tables_inv st → a ∈ attachments st → is_segment (AttachmentRow.entry_id a).
Proof.
  intros Hinv Ha. apply (entry_id_segment st); [done|]. by apply inv_foreign_key.
Qed.

Lemma select_attachment_detached (id other : Z) (st : Store) :
  other ≠ id →
  select_attachment other (detached_store id st) = select_attachment other st.
Proof.
  intros Hne. unfold select_attachment. simpl.
  rewrite list_filter_filter_l; [done|]. intros a. congruence.
Qed.

(** X14: on a store that satisfies its invariants, removing an attachment
    leaves every other attachment as [getAttachment] returns it, its bytes
    included, unless the two share the entry and the stored file name. *)
Theorem deleteAttachment_leaves_other_attachments
    (uploadsDir : string) (id other : Z) (st : Store) :
  store_inv uploadsDir st →
  other ≠ id →
  (∀ a a', a ∈ attachments st → a' ∈ attachments st →
     AttachmentRow.id a = id → AttachmentRow.id a' = other →
     ¬ (AttachmentRow.entry_id a' = AttachmentRow.entry_id a
        ∧ AttachmentRow.filename a' = AttachmentRow.filename a)) →
  ∃ removed st' result,
    deleteAttachment id st = Ok removed st'
    ∧ getAttachment other st = Ok result st
    ∧ getAttachment other st' = Ok result st'.
Proof.
  intros [Htables Huploads] Hne Hnames.
  destruct (select_attachment other st) as [row'|] eqn:Hother.
  2:{ eexists _, _, _. split; [apply deleteAttachment_eq|].
      split; apply getAttachment_no_row; [done|].
      by rewrite select_attachment_detached. }
  pose proof (select_attachment_elem _ _ _ Hother) as [Hid' Hin'].
  pose proof (inv_rows uploadsDir st Huploads row' Hin') as Hwritten'.
  unfold row_as_written in Hwritten'.
  destruct (AttachmentRow.storage_type row') eqn:Hmode'.
  - destruct Hwritten' as [_ Hpath'].
    assert (Hnodir : disk st !! path_join (path_join uploadsDir (AttachmentRow.entry_id row'))
                                   (AttachmentRow.filename row') ≠ Some Dir)
      by by eapply (row_path_not_dir uploadsDir st row').
    assert (Hdisk : disk (detached_store id st)
                      !! path_join (path_join uploadsDir (AttachmentRow.entry_id row'))
                                   (AttachmentRow.filename row')
                    = disk st
                      !! path_join (path_join uploadsDir (AttachmentRow.entry_id row'))
                                   (AttachmentRow.filename row')).
    { unfold detached_store, unlinked_disk. simpl.
      destruct (select_attachment id st) as [row|] eqn:Hrow; [|done].
      pose proof (select_attachment_elem _ _ _ Hrow) as [Hid Hin].
      pose proof (inv_rows uploadsDir st Huploads row Hin) as Hwritten.
      unfold row_as_written in Hwritten.
      destruct (AttachmentRow.storage_type row); [|done].
      destruct Hwritten as [_ ->]. rewrite path_join_truthy.
      destruct (disk st !! path_join _ (AttachmentRow.filename row)) as [[data|]|];
        [|done..].
      apply lookup_delete_ne. intros Heq.
      apply file_path_inj in Heq as [He Hf]; [|by eapply row_segment..].
      by apply (Hnames row row' Hin Hin' Hid Hid'). }
    eexists _, _, _. split; [apply deleteAttachment_eq|]. split.
    + by apply getAttachment_filesystem; [..|apply path_join_truthy|].
    + rewrite (getAttachment_filesystem other (detached_store id st) row'
                 (path_join (path_join uploadsDir (AttachmentRow.entry_id row'))
                            (AttachmentRow.filename row')));
        [|by rewrite select_attachment_detached|done|done|apply path_join_truthy
         |by rewrite Hdisk].
      unfold file_content. by rewrite Hdisk.
  - destruct Hwritten' as [[data Hdata] _].
    eexists _, _, _. split; [apply deleteAttachment_eq|].
    split; eapply getAttachment_blob; try done.
    by rewrite select_attachment_detached.
Qed.

Lemma deleteAttachment_leaves_other_attachments_witness :
  ∃ removed st' result,
    deleteAttachment 1 (store_with_two_uploads None) = Ok removed st'
    ∧ getAttachment 2 (store_with_two_uploads None)
      = Ok result (store_with_two_uploads None)
    ∧ getAttachment 2 st' = Ok result st'.
Proof.
  apply (deleteAttachment_leaves_other_attachments
           sample_uploads_dir 1 2 (store_with_two_uploads None)).
  - apply reachable_store_inv, store_with_two_uploads_reachable.
  - discriminate.
  - intros a a' Ha Ha' Hid Hid' [_ Hname].
    vm_compute in Ha, Ha'.
    apply elem_of_cons in Ha as [->|Ha]; [|apply elem_of_cons in Ha as [->|Ha]];
      [|discriminate Hid|by apply elem_of_nil in Ha].
    apply elem_of_cons in Ha' as [->|Ha']; [discriminate Hid'|].
    apply elem_of_cons in Ha' as [->|Ha']; [discriminate Hname|].
    by apply elem_of_nil in Ha'.
Defined.

(** ** What deleting an entry leaves alone *)

(** The unlink loop touches no path outside its list. *)
Lemma unlink_loop_frame (paths : list (option string)) (st : Store) :
  ∃ disk',
    for_of paths
      (λ file_path,
         match file_path with
         | Some p => if truthy p then try_ignore (unlinkSync p) else mret tt
         | None => mret tt
         end) st
    = Ok tt (set_disk (λ _, disk') st)
    ∧ disk' ⊆ disk st
    ∧ ∀ q, Some q ∉ paths → disk' !! q = disk st !! q.
Proof.
  revert st. induction paths as [|path paths IH]; intros st.
  - exists (disk st). split; [by destruct st|done].
  - simpl. unfold mbind, M_bind.
    assert (Hbody : ∃ disk1,
      match path with
      | Some p => if truthy p then try_ignore (unlinkSync p) else mret tt
      | None => mret tt
      end st = Ok tt (set_disk (λ _, disk1) st)
      ∧ disk1 ⊆ disk st
      ∧ ∀ q, Some q ≠ path → disk1 !! q = disk st !! q).
    { destruct path as [p|]; [destruct (truthy p)|];
        try (exists (disk st); split; [by destruct st|done]).
      unfold try_ignore, unlinkSync.
      destruct (disk st !! p) as [[data|]|] eqn:Hp;
        try (exists (disk st); split; [by destruct st|done]).
      exists (delete p (disk st)). split; [done|]. split; [apply delete_subseteq|].
      intros q Hq. apply lookup_delete_ne. congruence. }
    destruct Hbody as (disk1 & -> & Hsub1 & Hframe1).
    destruct (IH (set_disk (λ _, disk1) st)) as (disk2 & -> & Hsub2 & Hframe2).
    exists disk2. split; [done|]. split; [by etrans|].
    intros q Hq. apply not_elem_of_cons in Hq as [Hq1 Hq2].
    rewrite Hframe2 by done. simpl. by apply Hframe1.
Qed.

Lemma deleteEntry_frame (uploadsDir entryId : string) (st : Store) :
  ∃ disk',
    deleteEntry uploadsDir entryId st
    = Ok (0 <? count_rows (filter (λ r, EntryRow.entry_id r = entryId) (entries st)))
         (deleted_store uploadsDir entryId disk' st)
    ∧ disk' ⊆ disk st
    ∧ ∀ q, Some q ∉ AttachmentRow.file_path <$>
                      filter (λ a, AttachmentRow.entry_id a = entryId
                                   ∧ AttachmentRow.storage_type a = filesystem)
                             (attachments st) →
           disk' !! q = disk st !! q.
Proof.
  unfold deleteEntry. unfold mbind at 1, M_bind at 1, gets at 1.
  unfold mbind at 1, M_bind at 1.
  destruct (unlink_loop_frame
              (AttachmentRow.file_path <$>
                 filter (λ a, AttachmentRow.entry_id a = entryId
                              ∧ AttachmentRow.storage_type a = filesystem)
                        (attachments st)) st)
    as (disk' & -> & Hsub & Hframe).
  exists disk'. split; [done|]. split; [exact Hsub|exact Hframe].
Qed.

Lemma prefix_app_cancel (u x y : string) :
  String.prefix (u +:+ x) (u +:+ y) = String.prefix x y.
Proof.
  induction u as [|c u IH]; [done|].
  rewrite !string_app_cons. simpl. by destruct (ascii_dec c c).
Qed.

Lemma prefix_cons_inv (a b : ascii) (s t : string) :
  String.prefix (String a s) (String b t) = true → a = b ∧ String.prefix s t = true.
Proof. simpl. by destruct (ascii_dec a b). Qed.

Lemma segment_prefix (e e' f : string) :
  is_segment e → is_segment e' →
  String.prefix (e +:+ "/") (e' +:+ "/" +:+ f) = true → e = e'.
Proof.
  unfold is_segment. revert e'.
  induction e as [|c e IH]; intros [|c' e'] He He' Hprefix.
  - done.
  - change (String.prefix (String "/" "") (String c' (e' +:+ "/" +:+ f)) = true)
      in Hprefix.
    apply prefix_cons_inv in Hprefix as [<- _]. simpl in He'. done.
  - change (String.prefix (String c (e +:+ "/")) (String "/" f) = true) in Hprefix.
    apply prefix_cons_inv in Hprefix as [-> _]. simpl in He. done.
  - rewrite !string_app_cons in Hprefix.
    apply prefix_cons_inv in Hprefix as [<- Hprefix]. simpl in He, He'.
    apply orb_false_iff in He as [_ He], He' as [_ He'].
    f_equal. by apply IH.
Qed.

(** A file of one entry does not lie below the directory of another. *)
Lemma not_below_other_entry (uploadsDir e e' f : string) :
  is_segment e → is_segment e' → e ≠ e' →
  is_below (path_join uploadsDir e) (path_join (path_join uploadsDir e') f) = false.
Proof.
  intros He He' Hne. apply not_true_is_false. intros Hbelow. apply Hne.
  unfold is_below in Hbelow. rewrite path_join_nested in Hbelow.
  unfold path_join in Hbelow.
  rewrite !string_app_assoc, prefix_app_cancel in Hbelow.
  change (String.prefix (String "/" (e +:+ "/")) (String "/" (e' +:+ "/" +:+ f)) = true)
    in Hbelow.
  apply prefix_cons_inv in Hbelow as [_ Hbelow].
  by eapply segment_prefix.
Qed.

Lemma map_lookup_filter_keep {V} (P : string * V → Prop) `{!∀ kv, Decision (P kv)}
    (m : gmap string V) (k : string) :
  (∀ v, P (k, v)) → filter P m !! k = m !! k.
Proof.
  intros HP. destruct (m !! k) as [v|] eqn:Hk.
  - by apply map_lookup_filter_Some_2.
  - apply map_lookup_filter_None_2. by left.
Qed.

Lemma select_attachment_unique (st : Store) (a : AttachmentRow.t) :
  tables_inv st → a ∈ attachments st → select_attachment (AttachmentRow.id a) st = Some a.
Proof.
  intros Hinv Ha. unfold select_attachment.
  apply (head_filter_unique AttachmentRow.id); [by apply inv_attachment_ids|done].
Qed.

(** X15: on a store that satisfies its invariants, deleting an existing
    entry leaves every other entry as [getEntry] returns it, attachments
    included, and every attachment of another entry as [getAttachment]
    returns it, bytes included. *)
Theorem deleteEntry_leaves_other_entries
    (uploadsDir entryId other : string) (st : Store) :
  store_inv uploadsDir st →
  entryId ∈ EntryRow.entry_id <$> entries st →
  other ≠ entryId →
  ∃ removed st' e,
    deleteEntry uploadsDir entryId st = Ok removed st'
    ∧ getEntry other st = Ok e st
    ∧ getEntry other st' = Ok e st'
    ∧ ∀ a, a ∈ attachments st → AttachmentRow.entry_id a = other →
        ∃ result,
          getAttachment (AttachmentRow.id a) st = Ok result st
          ∧ getAttachment (AttachmentRow.id a) st' = Ok result st'.
Proof.
  intros Hinv Hexists Hother.
  destruct (deleteEntry_frame uploadsDir entryId st) as (disk' & Hdel & Hsub & Hframe).
  pose proof (store_inv_deleted uploadsDir entryId disk' st Hinv Hsub) as Hinv'.
  destruct Hinv as [Htables Huploads].
  assert (Hkept : ∀ a, a ∈ attachments st → AttachmentRow.entry_id a = other →
            a ∈ attachments (deleted_store uploadsDir entryId disk' st)).
  { intros a Ha Hid. simpl. apply list_elem_of_filter. split; [|done].
    intros (r & Heq & [Hr _]%list_elem_of_filter)%list_elem_of_fmap. congruence. }
  eexists _, _, _. split; [exact Hdel|].
  split; [apply getEntry_eq|]. split.
  - rewrite getEntry_eq. f_equal. unfold select_entry, select_attachments_of. simpl.
    rewrite (list_filter_filter_l (λ r, EntryRow.entry_id r = other))
      by (intros r Hr Heq; congruence).
    rewrite (list_filter_filter_l (λ a, AttachmentRow.entry_id a = other)); [done|].
    intros a Hid (r & Heq & [Hr _]%list_elem_of_filter)%list_elem_of_fmap. congruence.
  - intros a Ha Hid.
    pose proof (select_attachment_unique st a Htables Ha) as Hsel.
    pose proof (select_attachment_unique _ a (proj1 Hinv') (Hkept a Ha Hid)) as Hsel'.
    pose proof (inv_rows uploadsDir st Huploads a Ha) as Hwritten.
    unfold row_as_written in Hwritten.
    destruct (AttachmentRow.storage_type a) eqn:Hmode.
    + destruct Hwritten as [_ Hpath]. rewrite Hid in Hpath.
      assert (Hseg : is_segment other) by (rewrite <- Hid; by eapply row_segment).
      assert (Hseg' : is_segment entryId) by by eapply entry_id_segment.
      assert (Hdisk : disk (deleted_store uploadsDir entryId disk' st)
                        !! path_join (path_join uploadsDir other) (AttachmentRow.filename a)
                      = disk st
                        !! path_join (path_join uploadsDir other)
                             (AttachmentRow.filename a)).
      { simpl. rewrite map_lookup_filter_keep.
        - apply Hframe.
          intros (a' & Hpath' & [[Hid' Hmode'] Ha']%list_elem_of_filter)%list_elem_of_fmap.
          pose proof (inv_rows uploadsDir st Huploads a' Ha') as Hwritten'.
          unfold row_as_written in Hwritten'. rewrite Hmode', Hid' in Hwritten'.
          destruct Hwritten' as [_ Heq]. rewrite Heq in Hpath'. injection Hpath' as Hpath'.
          by apply file_path_inj in Hpath' as [? _].
        - intros v. simpl. split.
          + intros Heq. symmetry in Heq. by apply entry_dir_not_a_file_path in Heq.
          + apply not_below_other_entry; [done..|congruence]. }
      exists ((λ data, (mapAttachment a, data))
                <$> file_content st (path_join (path_join uploadsDir other)
                                       (AttachmentRow.filename a))).
      split.
      * apply getAttachment_filesystem; [done..|apply path_join_truthy|].
        by eapply (row_path_not_dir uploadsDir st a).
      * rewrite (getAttachment_filesystem (AttachmentRow.id a)
                   (deleted_store uploadsDir entryId disk' st) a
                   (path_join (path_join uploadsDir other) (AttachmentRow.filename a)));
          [|done|done|done|apply path_join_truthy
           |by eapply (row_path_not_dir uploadsDir _ a); [apply Hinv'|apply Hkept|..]].
        unfold file_content. by rewrite Hdisk.
    + destruct Hwritten as [[data Hdata] _].
      exists (Some (mapAttachment a, data)).
      split; by eapply getAttachment_blob.
Qed.

Lemma deleteEntry_leaves_other_entries_witness :
  ∃ removed st' e,
    deleteEntry sample_uploads_dir "BUG-002" (store_two_entries None) = Ok removed st'
    ∧ getEntry "BUG-001" (store_two_entries None) = Ok e (store_two_entries None)
    ∧ getEntry "BUG-001" st' = Ok e st'
    ∧ ∀ a, a ∈ attachments (store_two_entries None) →
        AttachmentRow.entry_id a = "BUG-001" →
        ∃ result,
          getAttachment (AttachmentRow.id a) (store_two_entries None)
          = Ok result (store_two_entries None)
          ∧ getAttachment (AttachmentRow.id a) st' = Ok result st'.
Proof.
  apply (deleteEntry_leaves_other_entries
           sample_uploads_dir "BUG-002" "BUG-001" (store_two_entries None)).
  - apply reachable_store_inv, store_two_entries_reachable.
  - vm_compute. right. left.
  - discriminate.
Defined.

(** X16: on a store whose tables satisfy their invariants, a second
    [deleteEntry] of the same entryId returns false and changes nothing. *)
Theorem deleteEntry_twice (uploadsDir entryId : string) (st : Store) :
  tables_inv st →
  ∃ removed st',
    deleteEntry uploadsDir entryId st = Ok removed st'
    ∧ deleteEntry uploadsDir entryId st' = Ok false st'.
Proof.
  intros Hinv.
  destruct (deleteEntry_eq uploadsDir entryId st) as (disk1 & Hdel1 & _).
  destruct (deleteEntry_frame uploadsDir entryId
              (deleted_store uploadsDir entryId disk1 st))
    as (disk2 & Hdel2 & _ & Hframe).
  eexists _, _. split; [exact Hdel1|]. rewrite Hdel2.
  assert (Hentries : filter (λ r, EntryRow.entry_id r = entryId)
                       (entries (deleted_store uploadsDir entryId disk1 st)) = []).
  { simpl. apply filter_none. by intros r [Hr _]%list_elem_of_filter. }
  assert (Hdisk : disk2 = disk (deleted_store uploadsDir entryId disk1 st)).
  { apply map_eq. intros q. apply Hframe.
    rewrite filter_none; [by intros ?%elem_of_nil|].
    intros a Ha [Hid _]. by apply (cascade_removes_attachments entryId st a). }
  rewrite Hentries, Hdisk. f_equal.
  unfold deleted_store at 1. cbn [entries entries_seq attachments attachments_seq
                                   next_number disk].
  rewrite Hentries. unfold deleted_store. f_equal.
  - apply filter_all. by intros r [Hr _]%list_elem_of_filter.
  - apply filter_all. by intros a _ ?%elem_of_nil.
  - apply map_filter_id. by intros q node [_ HP]%map_lookup_filter_Some.
Qed.

Lemma deleteEntry_twice_witness :
  ∃ removed st',
    deleteEntry sample_uploads_dir "BUG-001" (store_with_upload None) = Ok removed st'
    ∧ deleteEntry sample_uploads_dir "BUG-001" st' = Ok false st'.
Proof.
  apply (deleteEntry_twice sample_uploads_dir "BUG-001" (store_with_upload None)).
  apply (reachable_store_inv sample_uploads_dir), store_with_upload_reachable.
Defined.

(** ** Stored file names *)

Lemma name_char_not_separator (c : ascii) :
  Ascii.eqb (if is_name_char c then c else "_"%char) "/" = false.
Proof.
  destruct (is_name_char c) eqn:Hc; [|done].
  destruct (Ascii.eqb_spec c "/") as [->|]; [|done]. by vm_compute in Hc.
Qed.

Lemma safe_name_segment (name : string) : is_segment (safe_name name).
Proof.
  unfold is_segment. induction name as [|c name IH]; [done|].
  simpl. by rewrite IH, name_char_not_separator.
Qed.

(** X17: the sanitised file name has the length of the original one,
    consists of letters, digits, dots, underscores and hyphens only, holds
    no path separator, and is the original name exactly when that already
    consists of such characters. *)
Theorem safe_name_is_safe (name : string) :
  String.length (safe_name name) = String.length name
  ∧ all_chars is_name_char (safe_name name) = true
  ∧ is_segment (safe_name name)
  ∧ (safe_name name = name ↔ all_chars is_name_char name = true).
Proof.
  split; [|split; [|split; [apply safe_name_segment|]]].
  - induction name as [|c name IH]; [done|]. simpl. by rewrite IH.
  - induction name as [|c name IH]; [done|]. simpl. rewrite IH, andb_true_r.
    by destruct (is_name_char c) eqn:Hc.
  - induction name as [|c name IH]; [done|]. simpl. split.
    + intros [= Hc Hname]. apply IH in Hname. rewrite Hname, andb_true_r.
      destruct (is_name_char c) eqn:Hsafe; [done|]. subst c. by vm_compute in Hsafe.
    + intros [Hc Hname]%andb_true_iff. rewrite Hc. f_equal. by apply IH.
Qed.

(** X18: when the random prefix holds no path separator, the file name
    that [addAttachment] generates holds none either, so the file it
    writes for a filesystem attachment lies directly in the directory of
    the entry; the name is never empty. *)
Theorem generated_filename_is_a_segment (randomPrefix : string) (file : UploadedFile.t) :
  is_segment randomPrefix →
  is_segment (generated_filename randomPrefix file)
  ∧ generated_filename randomPrefix file ≠ "".
Proof.
  unfold is_segment, generated_filename. intros Hprefix. split.
  - rewrite !mentions_app, Hprefix. simpl.
    apply (safe_name_segment (UploadedFile.name file)).
  - intros Hempty. apply (f_equal String.length) in Hempty.
    rewrite !string_length_app in Hempty. simpl in Hempty. lia.
Qed.

Lemma generated_filename_is_a_segment_witness :
  is_segment (generated_filename "k3x9qa" sample_upload)
  ∧ generated_filename "k3x9qa" sample_upload ≠ "".
Proof.
  apply (generated_filename_is_a_segment "k3x9qa" sample_upload). reflexivity.
Defined.

(** ** What adding an attachment leaves alone *)

(** X19: on a store that satisfies its invariants, adding an attachment to
    an existing entry, with a stored name and path within the limits of the
    file system and a random prefix without separator, leaves every other
    entry as [getEntry] returns it, and every attachment that was there as
    [getAttachment] returns it, bytes included, unless it belongs to the
    same entry under the file name just generated. *)
Theorem addAttachment_leaves_other_attachments
    (uploadsDir : string) (env : option string) (randomPrefix now entryId : string)
    (file : UploadedFile.t) (st : Store) :
  store_inv uploadsDir st →
  entryId ∈ EntryRow.entry_id <$> entries st →
  is_segment randomPrefix →
  upload_fits uploadsDir (getStorageType env) randomPrefix entryId file →
  ∃ added st',
    addAttachment uploadsDir env randomPrefix now entryId file st = Ok added st'
    ∧ (∀ other, other ≠ entryId →
         ∃ e, getEntry other st = Ok e st ∧ getEntry other st' = Ok e st')
    ∧ (∀ a, a ∈ attachments st →
         ¬ (AttachmentRow.entry_id a = entryId
            ∧ AttachmentRow.filename a = generated_filename randomPrefix file) →
         ∃ result,
           getAttachment (AttachmentRow.id a) st = Ok result st
           ∧ getAttachment (AttachmentRow.id a) st' = Ok result st').
Proof.
  intros Hinv Hexists _ Hfits.
  destruct (addAttachment_eq uploadsDir env randomPrefix now entryId file st Hinv Hexists
              Hfits) as (row & Hadd & _).
  pose proof (store_inv_added uploadsDir (getStorageType env) randomPrefix now entryId
                file st Hinv Hexists) as Hinv'.
  destruct Hinv as [Htables Huploads].
  eexists _, _. split; [exact Hadd|]. split.
  - intros other Hother. eexists. split; [apply getEntry_eq|].
    rewrite getEntry_eq. f_equal. unfold select_attachments_of. simpl.
    rewrite filter_app, filter_cons_False, filter_nil, app_nil_r by (simpl; congruence).
    done.
  - intros a Ha Hname.
    assert (Ha' : a ∈ attachments (added_store uploadsDir (getStorageType env) randomPrefix
                                     now entryId file st))
      by (simpl; apply elem_of_app; by left).
    pose proof (select_attachment_unique st a Htables Ha) as Hsel.
    pose proof (select_attachment_unique _ a (proj1 Hinv') Ha') as Hsel'.
    pose proof (inv_rows uploadsDir st Huploads a Ha) as Hwritten.
    unfold row_as_written in Hwritten.
    destruct (AttachmentRow.storage_type a) eqn:Hmode.
    + destruct Hwritten as [_ Hpath].
      assert (Hseg : is_segment (AttachmentRow.entry_id a)) by by eapply row_segment.
      assert (Hseg' : is_segment entryId) by by eapply entry_id_segment.
      assert (Hdisk : disk (added_store uploadsDir (getStorageType env) randomPrefix
                              now entryId file st)
                        !! path_join (path_join uploadsDir (AttachmentRow.entry_id a))
                             (AttachmentRow.filename a)
                      = disk st
                        !! path_join (path_join uploadsDir (AttachmentRow.entry_id a))
                             (AttachmentRow.filename a)).
      { simpl. destruct (getStorageType env); [|done].
        rewrite lookup_insert_ne, lookup_insert_ne; [done| |].
        - by apply entry_dir_not_a_file_path.
        - intros Heq. apply file_path_inj in Heq as [? ?]; [|done..]. by apply Hname. }
      exists ((λ data, (mapAttachment a, data))
                <$> file_content st
                      (path_join (path_join uploadsDir (AttachmentRow.entry_id a))
                         (AttachmentRow.filename a))).
      split.
      * apply getAttachment_filesystem; [done..|apply path_join_truthy|].
        by eapply (row_path_not_dir uploadsDir st a).
      * rewrite (getAttachment_filesystem (AttachmentRow.id a) _ a
                   (path_join (path_join uploadsDir (AttachmentRow.entry_id a))
                      (AttachmentRow.filename a)));
          [|done|done|done|apply path_join_truthy
           |by eapply (row_path_not_dir uploadsDir _ a); [apply Hinv'|..]].
        unfold file_content. by rewrite Hdisk.
    + destruct Hwritten as [[data Hdata] _].
      exists (Some (mapAttachment a, data)).
      split; by eapply getAttachment_blob.
Qed.

Lemma addAttachment_leaves_other_attachments_witness :
  ∃ added st',
    addAttachment sample_uploads_dir None "p7m2zd" "2026-01-01 00:00:08" "BUG-001"
      sample_upload (store_with_upload None) = Ok added st'
    ∧ (∀ other, other ≠ "BUG-001" →
         ∃ e, getEntry other (store_with_upload None) = Ok e (store_with_upload None)
              ∧ getEntry other st' = Ok e st')
    ∧ (∀ a, a ∈ attachments (store_with_upload None) →
         ¬ (AttachmentRow.entry_id a = "BUG-001"
            ∧ AttachmentRow.filename a = generated_filename "p7m2zd" sample_upload) →
         ∃ result,
           getAttachment (AttachmentRow.id a) (store_with_upload None)
           = Ok result (store_with_upload None)
           ∧ getAttachment (AttachmentRow.id a) st' = Ok result st').
Proof.
  apply (addAttachment_leaves_other_attachments sample_uploads_dir None "p7m2zd"
           "2026-01-01 00:00:08" "BUG-001" sample_upload (store_with_upload None)).
  - apply store_with_upload_inv.
  - vm_compute. left.
  - reflexivity.
  - by_evaluation.
Defined.



(** ** One counter per type *)

Lemma after_call_allocations (uploadsDir : string) (c : Call) (st : Store)
    (type : EntryType) :
  next_number (after_call uploadsDir c st) type = next_number st type + allocations c type.
Proof.
  destruct c; cbn [after_call allocations]; rewrite ?Z.add_0_r.
  - rewrite getNextEntryId_eq. simpl. case_decide as Htype.
    + subst. by rewrite fn_lookup_insert.
    + rewrite fn_lookup_insert_ne by done. lia.
  - symmetry. apply (listEntries_counters options st).
  - symmetry. apply (getEntry_counters entryId st).
  - unfold createEntry. unfold mbind at 1, M_bind at 1. rewrite getNextEntryId_eq.
    match goal with
    | |- next_number (final_store (?m ?st1)) _ = _ =>
        assert (Hrest : relates counters_eq m)
    end.
    { apply relates_bind; [apply _|apply counters_eq_insert_entry|intros _].
      apply getEntry_counters. }
    rewrite <- (Hrest _ type). simpl. case_decide as Htype.
    + subst. by rewrite fn_lookup_insert.
    + rewrite fn_lookup_insert_ne by done. lia.
  - symmetry. apply (updateEntry_counters now entryId dto st).
  - symmetry. apply (deleteEntry_counters uploadsDir entryId st).
  - symmetry.
    apply (addAttachment_counters uploadsDir DEVLOG_STORAGE_TYPE randomPrefix now entryId
             file st).
  - symmetry. apply (getAttachment_counters id st).
  - symmetry. apply (deleteAttachment_counters id st).
  - symmetry. apply (getOpenCount_counters pagePath st).
  - symmetry. apply (exportAllEntries_counters st).
Qed.

(** X21: every type has a counter of its own.  After any sequence of calls
    the counter of a type has advanced by exactly the number of
    [getNextEntryId] and [createEntry] calls for that type in the sequence;
    calls for other types and all other calls leave it where it was. *)
Theorem counters_advance_by_allocations
    (uploadsDir : string) (calls : list Call) (st : Store) (type : EntryType) :
  next_number (after_calls uploadsDir calls st) type
  = next_number st type + allocations_of calls type.
Proof.
  unfold after_calls. revert st. induction calls as [|c calls IH]; intros st; simpl.
  - lia.
  - rewrite IH, after_call_allocations. lia.
Qed.

(** ** What every reachable store exports *)

(** X22: on every store that calls of the exported functions produce from
    the freshly opened database, the export lists entries with pairwise
    different entryIds, each made of the prefix of its type and a number
    that the counter of the type has passed; every attachment of the store
    is listed under the entry it names, and every listed attachment names
    the entry it is listed under and is either a blob attachment without a
    file path or a filesystem attachment whose path is its file name inside
    the directory of its entry. *)
Theorem reachable_store_is_consistent (uploadsDir : string) (st : Store) :
  reachable uploadsDir st →
  ∃ exported,
    exportAllEntries st = Ok exported st
    ∧ NoDup (DevLogEntry.entryId <$> exported)
    ∧ (∀ e, e ∈ exported →
         ∃ num, 1 ≤ num < next_number st (DevLogEntry.type e)
                ∧ DevLogEntry.entryId e = format_entry_id (DevLogEntry.type e) num)
    ∧ (∀ a, a ∈ attachments st →
         ∃ e, e ∈ exported
              ∧ DevLogEntry.entryId e = AttachmentRow.entry_id a
              ∧ mapAttachment a ∈ DevLogEntry.attachments e)
    ∧ (∀ e a, e ∈ exported → a ∈ DevLogEntry.attachments e →
         Attachment.entryId a = DevLogEntry.entryId e
         ∧ Attachment.filePath a
           = match Attachment.storageType a with
             | blob => None
             | filesystem =>
                 Some (path_join (path_join uploadsDir (DevLogEntry.entryId e))
                                 (Attachment.filename a))
             end).
Proof.
  intros [Htables Huploads]%reachable_store_inv.
  eexists. split; [apply exportAllEntries_eq|].
  split; [|split; [|split]].
  - assert (Hids : ∀ (f : EntryRow.t → list Attachment.t) (l : list EntryRow.t),
              DevLogEntry.entryId <$> ((λ e, mapEntry e (f e)) <$> l)
              = EntryRow.entry_id <$> l).
    { intros f l. induction l as [|x l IH]; [done|]. by rewrite !fmap_cons, IH. }
    rewrite Hids, order_by_desc_perm. by apply inv_entry_unique.
  - intros e (row & -> & Hrow)%list_elem_of_fmap.
    rewrite order_by_desc_perm in Hrow. by apply inv_entry_ids.
  - intros a Ha.
    pose proof (inv_foreign_key st Htables a Ha) as Hfk.
    apply list_elem_of_fmap in Hfk as (row & Hid & Hrow).
    eexists. split; [|split].
    + apply list_elem_of_fmap. exists row. split; [reflexivity|].
      by rewrite order_by_desc_perm.
    + done.
    + simpl. apply list_elem_of_fmap_2, list_elem_of_filter. split; [done|].
      by rewrite order_by_asc_perm.
  - intros e a (row & -> & Hrow)%list_elem_of_fmap. simpl.
    intros (r & -> & [Hid Hr]%list_elem_of_filter)%list_elem_of_fmap.
    rewrite order_by_asc_perm in Hr. split; [done|]. simpl.
    pose proof (inv_rows uploadsDir st Huploads r Hr) as Hwritten.
    unfold row_as_written in Hwritten. rewrite <- Hid.
    destruct (AttachmentRow.storage_type r); by destruct Hwritten.
Qed.

Lemma reachable_store_is_consistent_witness :
  ∃ exported,
    exportAllEntries (store_two_entries None) = Ok exported (store_two_entries None)
    ∧ NoDup (DevLogEntry.entryId <$> exported)
    ∧ (∀ e, e ∈ exported →
         ∃ num, 1 ≤ num < next_number (store_two_entries None) (DevLogEntry.type e)
                ∧ DevLogEntry.entryId e = format_entry_id (DevLogEntry.type e) num)
    ∧ (∀ a, a ∈ attachments (store_two_entries None) →
         ∃ e, e ∈ exported
              ∧ DevLogEntry.entryId e = AttachmentRow.entry_id a
              ∧ mapAttachment a ∈ DevLogEntry.attachments e)
    ∧ (∀ e a, e ∈ exported → a ∈ DevLogEntry.attachments e →
         Attachment.entryId a = DevLogEntry.entryId e
         ∧ Attachment.filePath a
           = match Attachment.storageType a with
             | blob => None
             | filesystem =>
                 Some (path_join (path_join sample_uploads_dir (DevLogEntry.entryId e))
                                 (Attachment.filename a))
             end).
Proof.
  apply (reachable_store_is_consistent sample_uploads_dir (store_two_entries None)).
  apply store_two_entries_reachable.
Defined.

(** ** The upload route *)

(** X23: on a store that satisfies its invariants, with a random prefix
    without separator, the upload route answers 404 when the entry does not
    exist, 400 when the form carries no file or an empty text field, 500
    when it carries a non-empty text field, and 400 when the file has more
    than 10 MiB, each time leaving the store as it was.  Otherwise, when
    the stored name and path are within the limits of the file system
    (nothing is asked of them in blob mode), it answers 201, stores one
    attachment under the next id with the bytes, the name and the size of
    the file and its type, or application/octet-stream when the type is
    empty; when they are beyond the limits it answers 500 and stores no
    attachment.  The store it leaves satisfies the invariants again. *)
Theorem upload_route_outcomes
    (uploadsDir : string) (env : option string) (randomPrefix now entryId : string)
    (file : FormField) (st : Store) :
  store_inv uploadsDir st →
  is_segment randomPrefix →
  ∃ body status st',
    upload_POST uploadsDir env randomPrefix now entryId file st = (body, status, st')
    ∧ store_inv uploadsDir st'
    ∧ if bool_decide (entryId ∈ EntryRow.entry_id <$> entries st) then
        match file with
        | no_field => (body, status) = (json_error "No file provided", 400) ∧ st' = st
        | text_field value =>
            st' = st
            ∧ (body, status)
              = if truthy value then (json_error "Failed to upload attachment", 500)
                else (json_error "No file provided", 400)
        | file_field f =>
            if MAX_FILE_SIZE <? FormFile.size f
            then (body, status) = (json_error "File too large (max 10MB)", 400) ∧ st' = st
            else if decide (upload_fits uploadsDir (getStorageType env) randomPrefix
                              entryId (form_upload f))
            then
              status = 201
              ∧ (∃ attachment, body = json_attachment attachment)
              ∧ length (attachments st') = S (length (attachments st))
              ∧ ∃ stored,
                  getAttachment (attachments_seq st + 1) st'
                  = Ok (Some (stored, FormFile.content f)) st'
                  ∧ Attachment.entryId stored = entryId
                  ∧ Attachment.originalName stored = FormFile.name f
                  ∧ Attachment.sizeBytes stored = FormFile.size f
                  ∧ Attachment.mimeType stored
                    = (if truthy (FormFile.type f) then FormFile.type f
                       else "application/octet-stream")
            else
              (body, status) = (json_error "Failed to upload attachment", 500)
              ∧ entries st' = entries st
              ∧ attachments st' = attachments st
        end
      else (body, status) = (json_error "Entry not found", 404) ∧ st' = st.
Proof.
  intros Hinv _. unfold upload_POST. cbv zeta.
  unfold mbind at 1, M_bind at 1. rewrite getEntry_eq.
  destruct (select_entry entryId st) as [row|] eqn:Hrow; simpl.
  - assert (Hin : entryId ∈ EntryRow.entry_id <$> entries st).
    { apply select_entry_entry_id in Hrow as [<- Hrow]. by apply list_elem_of_fmap_2. }
    rewrite bool_decide_eq_true_2 by done.
    destruct file as [|value|f].
    + by eexists _, _, _.
    + destruct (truthy value); by eexists _, _, _.
    + destruct (MAX_FILE_SIZE <? FormFile.size f); [by eexists _, _, _|].
      unfold mbind, M_bind.
      destruct (decide (upload_fits uploadsDir (getStorageType env) randomPrefix entryId
                          (form_upload f))) as [Hfits|Hlong].
      2:{ pose proof (addAttachment_final uploadsDir env randomPrefix now entryId
                        (form_upload f) st Hinv Hin) as [Hinv' Hentries].
          rewrite addAttachment_too_long in * by done.
          eexists _, _, _. split; [reflexivity|]. split; [exact Hinv'|].
          split; [done|]. split; [exact Hentries|].
          simpl. by destruct (decide (fits (path_join uploadsDir entryId))). }
      destruct (addAttachment_eq uploadsDir env randomPrefix now entryId (form_upload f) st
                  Hinv Hin Hfits) as (stored & Hadd & _).
      rewrite Hadd.
      eexists _, _, _. split; [reflexivity|].
      split; [by apply store_inv_added|].
      split; [done|]. split; [by eexists|].
      split; [simpl; rewrite length_app; simpl; lia|].
      pose proof (select_attachment_added uploadsDir (getStorageType env) randomPrefix now
                    entryId (form_upload f) st (proj1 Hinv)) as Hsel.
      exists (mapAttachment (added_row uploadsDir (getStorageType env) randomPrefix now
                               entryId (form_upload f) (attachments_seq st + 1))).
      split; [|done].
      destruct (getStorageType env) eqn:Hmode.
      * erewrite getAttachment_filesystem;
          [|exact Hsel|done|done|apply path_join_truthy|].
        -- unfold file_content. simpl. by rewrite lookup_insert_eq.
        -- simpl. by rewrite lookup_insert_eq.
      * by erewrite getAttachment_blob.
  - rewrite bool_decide_eq_false_2; [by eexists _, _, _|].
    intros Hin. apply entry_exists_filter in Hin.
    unfold select_entry in Hrow. apply head_None in Hrow. done.
Qed.

Lemma upload_route_outcomes_witness :
  ∃ body status st',
    upload_POST sample_uploads_dir None "k3x9qa" "2026-01-01 00:00:07" "BUG-001"
      sample_form store_one_bug = (body, status, st')
    ∧ store_inv sample_uploads_dir st'
    ∧ status = 201.
Proof.
  destruct (upload_route_outcomes sample_uploads_dir None "k3x9qa" "2026-01-01 00:00:07"
              "BUG-001" sample_form store_one_bug)
    as (body & status & st' & Hrun & Hinv & Hrest).
  { apply reachable_store_inv, store_one_bug_reachable. }
  { reflexivity. }
  exists body, status, st'. split; [exact Hrun|]. split; [exact Hinv|].
  rewrite bool_decide_eq_true_2 in Hrest by apply store_one_bug_entry.
  cbn [sample_form] in Hrest.
  rewrite decide_True in Hrest by by_evaluation.
  apply Hrest.
Defined.

(** ** Grouping the export by page *)

Lemma first_seen_snoc (l : list string) (p : string) :
  first_seen (l ++ [p])
  = if decide (p ∈ first_seen l) then first_seen l else first_seen l ++ [p].
Proof. unfold first_seen. by rewrite foldl_app. Qed.

Lemma first_seen_elem_of (l : list string) (p : string) : p ∈ first_seen l ↔ p ∈ l.
Proof.
  induction l as [|q l IH] using rev_ind; [done|].
  rewrite first_seen_snoc, elem_of_app, list_elem_of_singleton.
  case_decide as Hq; [|rewrite elem_of_app, list_elem_of_singleton; tauto].
  split; [tauto|]. intros [?| ->]; tauto.
Qed.

Lemma first_seen_NoDup (l : list string) : NoDup (first_seen l).
Proof.
  induction l as [|q l IH] using rev_ind; [constructor|].
  rewrite first_seen_snoc. case_decide as Hq; [done|].
  apply NoDup_app. split; [done|]. split; [|apply NoDup_singleton].
  intros p Hp Heq%list_elem_of_singleton. by subst.
Qed.

Lemma map_get_fmap {V} (f : string → V) (keys : list string) (key : string) :
  map_get key ((λ p, (p, f p)) <$> keys)
  = if decide (key ∈ keys) then Some (f key) else None.
Proof.
  induction keys as [|k keys IH]; [done|].
  rewrite fmap_cons. simpl. destruct (decide (k = key)) as [->|Hne].
  - rewrite decide_True; [done|left].
  - rewrite IH. destruct (decide (key ∈ keys)) as [Hin|Hnotin].
    + rewrite decide_True; [done|by right].
    + rewrite decide_False; [done|].
      intros [?|?]%elem_of_cons; congruence.
Qed.

Lemma map_set_fmap_new {V} (f : string → V) (keys : list string) (key : string) (v : V) :
  key ∉ keys →
  map_set key v ((λ p, (p, f p)) <$> keys) = ((λ p, (p, f p)) <$> keys) ++ [(key, v)].
Proof.
  induction keys as [|k keys IH]; intros Hnotin; [done|].
  apply not_elem_of_cons in Hnotin as [Hne Hnotin].
  rewrite fmap_cons. simpl. rewrite decide_False by done. by rewrite IH.
Qed.

Lemma map_set_fmap_old {V} (f g : string → V) (keys : list string) (key : string) (v : V) :
  NoDup keys → key ∈ keys →
  g key = v → (∀ p, p ≠ key → g p = f p) →
  map_set key v ((λ p, (p, f p)) <$> keys) = (λ p, (p, g p)) <$> keys.
Proof.
  intros Hnodup Hin Hkey Hothers.
  induction keys as [|k keys IH]; [by apply elem_of_nil in Hin|].
  apply NoDup_cons in Hnodup as [Hk Hnodup].
  rewrite !fmap_cons. simpl. destruct (decide (k = key)) as [->|Hne].
  - rewrite Hkey. f_equal. apply list_fmap_ext. intros i p Hp. f_equal.
    symmetry. apply Hothers. intros ->. apply Hk. by eapply list_elem_of_lookup_2.
  - rewrite Hothers by done. f_equal. apply IH; [done|].
    apply elem_of_cons in Hin as [?|?]; [congruence|done].
Qed.

(** X24: the grouping loop of [toMarkdown] yields one group per page path,
    the page paths in the order in which they first occur in the list, each
    with the entries of that page in the order of the list: no entry is
    lost, repeated or moved to another page. *)
Theorem group_by_page_groups_in_order (exported : list DevLogEntry.t) :
  group_by_page exported
  = (λ p, (p, entries_of_page exported p))
      <$> first_seen (DevLogEntry.pagePath <$> exported).
Proof.
  induction exported as [|e es IH] using rev_ind; [done|].
  unfold group_by_page in *. rewrite foldl_app. simpl. rewrite IH. clear IH.
  rewrite fmap_app. simpl. rewrite first_seen_snoc, map_get_fmap.
  unfold entries_of_page.
  case_decide as Hseen.
  - simpl. apply map_set_fmap_old; [apply first_seen_NoDup|done|..].
    + by rewrite filter_app, filter_cons_True, filter_nil.
    + intros p Hp. rewrite filter_app, filter_cons_False, filter_nil by done.
      by rewrite app_nil_r.
  - simpl. rewrite map_set_fmap_new by done. rewrite fmap_app. simpl. f_equal.
    + apply list_fmap_ext. intros i p Hp%list_elem_of_lookup_2. f_equal.
      rewrite filter_app, filter_cons_False, filter_nil; [by rewrite app_nil_r|].
      simpl. intros Heq. apply Hseen. by rewrite Heq.
    + do 2 f_equal. rewrite filter_app, filter_cons_True, filter_nil by done.
      rewrite filter_none; [done|].
      intros e' He' Heq. apply Hseen, first_seen_elem_of.
      rewrite <- Heq. by apply list_elem_of_fmap_2.
Qed.

(** ** The file name in the response header *)

Lemma printable_not (c bad : ascii) :
  is_printable bad = false →
  Ascii.eqb (if is_printable c then c else "_"%char) bad = false.
Proof.
  intros Hbad. destruct (is_printable c) eqn:Hc.
  - destruct (Ascii.eqb_spec c bad) as [->|]; [congruence|done].
  - destruct (Ascii.eqb_spec "_"%char bad) as [<-|]; [by vm_compute in Hbad|done].
Qed.

(** X25: the file name put into the Content-Disposition header has the
    length of the original name, consists of printable ASCII characters
    only, so holds no carriage return and no line feed, and is the original
    name exactly when that consists of printable ASCII characters. *)
Theorem sanitizeHeaderFilename_is_printable (name : string) :
  String.length (sanitizeHeaderFilename name) = String.length name
  ∧ all_chars is_printable (sanitizeHeaderFilename name) = true
  ∧ mentions carriage_return (sanitizeHeaderFilename name) = false
  ∧ mentions line_feed (sanitizeHeaderFilename name) = false
  ∧ (sanitizeHeaderFilename name = name ↔ all_chars is_printable name = true).
Proof.
  induction name as [|c name (IHlen & IHall & IHcr & IHlf & IHid)]; [done|].
  simpl. rewrite IHlen, IHall, IHcr, IHlf, !printable_not by done.
  split; [done|]. split; [by destruct (is_printable c) eqn:Hc; rewrite ?Hc|].
  split; [done|]. split; [done|]. split.
  - intros [= Hc Hname]. apply IHid in Hname. rewrite Hname, andb_true_r.
    destruct (is_printable c) eqn:Hsafe; [done|]. subst c. by vm_compute in Hsafe.
  - intros [Hc Hname]%andb_true_iff. rewrite Hc. f_equal. by apply IHid.
Qed.

(** ** The entry routes *)

Lemma select_entry_None (entryId : string) (st : Store) :
  select_entry entryId st = None ↔ entryId ∉ EntryRow.entry_id <$> entries st.
Proof.
  unfold select_entry. rewrite head_None, <- entry_exists_filter.
  destruct (filter _ (entries st)); [tauto|].
  split; [done|]. intros Hne. by destruct Hne.
Qed.

(** X26: the create route answers 400 and changes nothing, no counter
    included, when type, title, pageUrl or pagePath is missing or empty; it
    answers 500 and changes nothing when the type is not one of the three
    entry types; otherwise, on a store whose tables satisfy their
    invariants, it answers 201 with the created entry, which carries the
    fields of the body and is what [getEntry] then returns, and the counter
    of the type has advanced by one. *)
Theorem entries_POST_outcomes (now : string) (body : CreateBody.t) (st : Store) :
  tables_inv st →
  ∃ response status st',
    entries_POST now body st = (response, status, st')
    ∧ if missing_required body then status = 400 ∧ st' = st
      else
        match CreateBody.type body with
        | type_known type =>
            status = 201
            ∧ next_number st' type = next_number st type + 1
            ∧ ∃ e, response = json_entry (Some e)
                   ∧ created_entry_fields (body_dto type body) e
                   ∧ CreateBody.title body = Some (DevLogEntry.title e)
                   ∧ CreateBody.pagePath body = Some (DevLogEntry.pagePath e)
                   ∧ getEntry (DevLogEntry.entryId e) st' = Ok (Some e) st'
        | _ => status = 500 ∧ st' = st
        end.
Proof.
  intros Hinv. unfold entries_POST, or_500.
  destruct (missing_required body) eqn:Hmissing; [by eexists _, _, _|].
  destruct (CreateBody.type body) as [|type|value] eqn:Htype;
    [by eexists _, _, _| |by eexists _, _, _].
  unfold mbind, M_bind. rewrite createEntry_eq by done.
  eexists _, _, _. split; [reflexivity|]. split; [done|].
  split; [simpl; by rewrite fn_lookup_insert|].
  eexists. split; [reflexivity|].
  unfold missing_required in Hmissing. rewrite Htype in Hmissing. simpl in Hmissing.
  apply orb_false_iff in Hmissing as [Hmissing Hpath].
  apply orb_false_iff in Hmissing as [Htitle _].
  apply negb_false_iff in Htitle, Hpath.
  split; [|split; [|split]].
  - unfold created_entry_fields. simpl. by rewrite or_default_same, or_default_empty.
  - simpl. revert Htitle. by destruct (CreateBody.title body).
  - simpl. revert Hpath. by destruct (CreateBody.pagePath body).
  - simpl. rewrite getEntry_eq. unfold select_entry. simpl.
    rewrite select_entry_snoc; [|by apply fresh_entry_id|done].
    rewrite select_attachments_of_none; [done|].
    simpl. intros a Ha Heq. apply (fresh_entry_id st type Hinv).
    rewrite <- Heq. by apply inv_foreign_key.
Qed.

Lemma entries_POST_outcomes_witness :
  ∃ response status st',
    entries_POST "2026-01-01 00:00:03" sample_body store_one_bug = (response, status, st')
    ∧ status = 201
    ∧ next_number st' bug_report = next_number store_one_bug bug_report + 1.
Proof.
  destruct (entries_POST_outcomes "2026-01-01 00:00:03" sample_body store_one_bug)
    as (response & status & st' & Hrun & Hstatus & Hcounter & _).
  { apply (reachable_store_inv sample_uploads_dir), store_one_bug_reachable. }
  by exists response, status, st'.
Defined.

(** X27: for one entryId, and an update body of the declared type
    UpdateEntryDto, the routes that read, update and delete an entry answer
    alike: 200 when an entry carries the entryId and 404 when none does.
    Reading changes nothing, an update of a missing entry changes nothing,
    and after the delete route the read route answers 404. *)
Theorem entry_routes_agree
    (uploadsDir now entryId : string) (body : UpdateEntryDto.t) (st : Store) :
  ∃ got patched deleted st_patched st_deleted not_found,
    entry_GET entryId st = (got, found_status entryId st, st)
    ∧ entry_PATCH now entryId body st = (patched, found_status entryId st, st_patched)
    ∧ entry_DELETE uploadsDir entryId st = (deleted, found_status entryId st, st_deleted)
    ∧ (found_status entryId st = 404 → st_patched = st)
    ∧ entry_GET entryId st_deleted = (not_found, 404, st_deleted).
Proof.
  destruct (deleteEntry_eq uploadsDir entryId st) as (disk' & Hdel & _).
  assert (Hgone : select_entry entryId (deleted_store uploadsDir entryId disk' st) = None).
  { apply select_entry_None. simpl.
    intros (r & Heq & [Hne _]%list_elem_of_filter)%list_elem_of_fmap. by apply Hne. }
  assert (Hnot_found : ∃ not_found,
    entry_GET entryId (deleted_store uploadsDir entryId disk' st)
    = (not_found, 404, deleted_store uploadsDir entryId disk' st)).
  { unfold entry_GET, or_500, mbind, M_bind. rewrite getEntry_eq, Hgone. by eexists. }
  destruct Hnot_found as (not_found & Hnot_found).
  unfold found_status.
  destruct (select_entry entryId st) as [row|] eqn:Hrow.
  - destruct (updateEntry_found now entryId body st row Hrow) as (st_p & Hupd & _).
    assert (Hin : entryId ∈ EntryRow.entry_id <$> entries st).
    { apply select_entry_entry_id in Hrow as [<- Hrow]. by apply list_elem_of_fmap_2. }
    assert (Hcount : (0 <? count_rows (filter (λ r, EntryRow.entry_id r = entryId)
                                       (entries st))) = true)
      by by apply count_rows_positive, entry_exists_filter.
    rewrite bool_decide_eq_true_2 by done.
    eexists _, _, _, _, _, not_found. split; [|split; [|split; [|split]]].
    + unfold entry_GET, or_500, mbind, M_bind. rewrite getEntry_eq, Hrow. reflexivity.
    + unfold entry_PATCH, or_500, mbind, M_bind. rewrite Hupd. reflexivity.
    + unfold entry_DELETE, or_500, mbind, M_bind. rewrite Hdel, Hcount. reflexivity.
    + done.
    + exact Hnot_found.
  - pose proof (proj1 (select_entry_None entryId st) Hrow) as Hnotin.
    assert (Hcount : (0 <? count_rows (filter (λ r, EntryRow.entry_id r = entryId)
                                       (entries st))) = false).
    { apply not_true_is_false. intros Hpos%count_rows_positive%entry_exists_filter. done. }
    rewrite bool_decide_eq_false_2 by done.
    eexists _, _, _, _, _, not_found. split; [|split; [|split; [|split]]].
    + unfold entry_GET, or_500, mbind, M_bind. rewrite getEntry_eq, Hrow. reflexivity.
    + unfold entry_PATCH, or_500, mbind, M_bind.
      rewrite updateEntry_not_found by done. reflexivity.
    + unfold entry_DELETE, or_500, mbind, M_bind. rewrite Hdel, Hcount. reflexivity.
    + done.
    + exact Hnot_found.
Qed.

(** ** What creating an entry leaves alone *)

(** [getAttachment] reads the attachments table and the uploads tree
    only. *)
Lemma getAttachment_ext (id : Z) (st st' : Store) :
  attachments st' = attachments st →
  disk st' = disk st →
  returned (getAttachment id st') = returned (getAttachment id st).
Proof.
  intros Hatts Hdisk.
  unfold getAttachment, mbind, M_bind, gets, select_attachment. rewrite Hatts.
  destruct (head _) as [row|]; [|done].
  destruct (AttachmentRow.storage_type row), (AttachmentRow.blob_data row),
    (AttachmentRow.file_path row) as [p|]; try done;
    destruct (truthy p); try done;
    unfold existsSync, readFileSync, gets; rewrite Hdisk;
    destruct (disk st !! p) as [[?|]|] eqn:Hp;
    rewrite ?bool_decide_eq_true_2, ?bool_decide_eq_false_2 by (by rewrite ?is_Some_alt);
    cbv beta; rewrite ?Hdisk, ?Hp; done.
Qed.

(** X28: on a store whose tables satisfy their invariants, [createEntry]
    gives the new entry an entryId that no entry carried before, and leaves
    every other entry as [getEntry] returns it and every attachment as
    [getAttachment] returns it. *)
Theorem createEntry_leaves_other_entries
    (now : string) (dto : CreateEntryDto.t) (st : Store) :
  tables_inv st →
  ∃ e st',
    createEntry now dto st = Ok (Some e) st'
    ∧ getEntry (DevLogEntry.entryId e) st = Ok None st
    ∧ (∀ other, other ≠ DevLogEntry.entryId e →
         ∃ r, getEntry other st = Ok r st ∧ getEntry other st' = Ok r st')
    ∧ ∀ id, returned (getAttachment id st') = returned (getAttachment id st).
Proof.
  intros Hinv. eexists _, _. split; [by apply createEntry_eq|].
  pose proof (fresh_entry_id st (CreateEntryDto.type dto) Hinv) as Hfresh.
  split; [|split].
  - rewrite getEntry_eq. simpl.
    by rewrite (proj2 (select_entry_None _ st) Hfresh).
  - intros other Hother. simpl in Hother. eexists. split; [apply getEntry_eq|].
    rewrite getEntry_eq. f_equal. unfold select_entry, select_attachments_of. simpl.
    by rewrite filter_app, filter_cons_False, filter_nil, app_nil_r by (simpl; congruence).
  - intros id. by apply getAttachment_ext.
Qed.

Lemma createEntry_leaves_other_entries_witness :
  ∃ e st',
    createEntry "2026-01-01 00:00:08" sample_bug (store_with_upload None) = Ok (Some e) st'
    ∧ getEntry (DevLogEntry.entryId e) (store_with_upload None)
      = Ok None (store_with_upload None)
    ∧ (∀ other, other ≠ DevLogEntry.entryId e →
         ∃ r, getEntry other (store_with_upload None) = Ok r (store_with_upload None)
              ∧ getEntry other st' = Ok r st')
    ∧ ∀ id, returned (getAttachment id st')
            = returned (getAttachment id (store_with_upload None)).
Proof.
  apply (createEntry_leaves_other_entries "2026-01-01 00:00:08" sample_bug
           (store_with_upload None)).
  apply (store_with_upload_inv None).
Defined.
